(** * XGC_analysis middleman: diffusion and heatload streaming reductions

    A shallow embedding of [middleman/diffusion.cpp] and
    [middleman/heatloadcalc.cpp]: the block partitioner, the per-step
    operation of both pipelines, the collective consolidation (sum
    reduction and variable-length gather) and the lazily declared output
    writer, with the properties of the specification proved about them. *)

From Stdlib Require Import ZArith Lia.
From Stdlib Require String.
From stdpp Require Import base option list numbers.

Local Open Scope nat_scope.

(** ** util.hpp: the block partitioner *)

Module Util.

(** Modelled from the spec: [split_vector] is declared in [util.hpp], which
    is not among the sources.  Section 4.2 of the specification: the
    [blockCount] blocks are divided into [workerCount] contiguous ranges,
    the remainder blocks going to the earliest ranks, one extra block each.
    As in the callers, the result is the pair (offset, nblock). *)
Definition split_vector {T : Type} (vec : list T) (comm_size rank : nat) : nat * nat :=
  let q := length vec / comm_size in
  let rem := length vec mod comm_size in
  (rank * q + Nat.min rank rem, q + (if rank <? rem then 1 else 0)).

Definition slice_offset {T} (vec : list T) (W r : nat) : nat := (split_vector vec W r).1.
Definition slice_count {T} (vec : list T) (W r : nat) : nat := (split_vector vec W r).2.

(** The blocks a rank reads: [block_list[i]] for [offset <= i < offset + nblock]. *)
Definition slice {T} (vec : list T) (W r : nat) : list T :=
  take (slice_count vec W r) (drop (slice_offset vec W r) vec).

End Util.

(** ** adios2 and MPI: what the pipelines use of them *)

Module Adios.

(** [adios2::StepStatus], the result of [Engine::BeginStep]. *)
Inductive StepStatus := OK | NotReady | EndOfStream | OtherError.

#[global] Instance StepStatus_eq_dec : EqDecision StepStatus.
Proof. solve_decision. Defined.

(** [int] as the two's complement reading of a 32-bit pattern. *)
Definition to_int32 (z : Z) : Z := ((z + 2 ^ 31) mod 2 ^ 32 - 2 ^ 31)%Z.

(** [int ncount = 1; for (auto &d : block.Count) ncount *= d;] with
    [Count] a vector of [size_t]: the product is taken in 64-bit unsigned
    arithmetic and stored back into the [int]. *)
Definition block_ncount (count : list Z) : Z :=
  fold_left (λ ncount d, to_int32 ((ncount mod 2 ^ 64) * d mod 2 ^ 64)%Z) count 1%Z.

End Adios.

(** Loops over a sequence in which one iteration may be undefined
    (an index outside its vector): [None] stands for undefined behaviour. *)
Fixpoint for_each {A S : Type} (body : A → S → option S) (l : list A) (s : S) : option S :=
  match l with
  | [] => Some s
  | a :: l' => s' ← body a s; for_each body l' s'
  end.

(** ** diffusion.cpp *)

(** The arithmetic of [double] used by the diffusion pipeline: the
    constant [0.0], [+=] and the conversion [int(x)]. *)
Class DoubleOps (double : Type) := {
  d_zero : double;
  d_add : double → double → double;
  d_to_int : double → Z
}.

(** Exact arithmetic: addition is associative with neutral element [0.0].
    IEEE addition rounds and is not associative; the properties that speak
    of "the sum" of a family of rows are stated under these laws. *)
Class DoubleLaws (double : Type) `{DoubleOps double} : Prop := {
  d_add_assoc : ∀ x y z : double, d_add x (d_add y z) = d_add (d_add x y) z;
  d_add_0_l : ∀ x : double, d_add d_zero x = x;
  d_add_0_r : ∀ x : double, d_add x d_zero = x
}.

Module Diffusion.
Import Adios Util.

Section defs.
Context {double : Type} `{DoubleOps double}.

Definition NCOL : nat := 11.

(** [#define GET(X, i, j) X[i * NCOL + j]].  Every use below has
    [i < X.size() / NCOL] and [j < NCOL], so the index is inside [X]
    (lemma [GET_in_range]); the default is never read. *)
Definition GET (X : list double) (i j : nat) : double := nth (i * NCOL + j) X d_zero.

(** The ten accumulated quantities, in the order of the table columns 1..10. *)
Inductive Field :=
| F_i_dr_avg | F_i_dr_squared_average | F_i_dE_avg | F_i_dE_squared_average | F_i_marker_den
| F_e_dr_avg | F_e_dr_squared_average | F_e_dE_avg | F_e_dE_squared_average | F_e_marker_den.

Definition fields : list Field :=
  [F_i_dr_avg; F_i_dr_squared_average; F_i_dE_avg; F_i_dE_squared_average; F_i_marker_den;
   F_e_dr_avg; F_e_dr_squared_average; F_e_dE_avg; F_e_dE_squared_average; F_e_marker_den].

(** Column of the table that is added into the field. *)
Definition col (f : Field) : nat :=
  match f with
  | F_i_dr_avg => 1 | F_i_dr_squared_average => 2 | F_i_dE_avg => 3
  | F_i_dE_squared_average => 4 | F_i_marker_den => 5
  | F_e_dr_avg => 6 | F_e_dr_squared_average => 7 | F_e_dE_avg => 8
  | F_e_dE_squared_average => 9 | F_e_marker_den => 10
  end.

(** The ten vectors of the class, one entry per triangle. *)
Record EntityBin := {
  i_dr_avg : list double;
  i_dr_squared_average : list double;
  i_dE_avg : list double;
  i_dE_squared_average : list double;
  i_marker_den : list double;
  e_dr_avg : list double;
  e_dr_squared_average : list double;
  e_dE_avg : list double;
  e_dE_squared_average : list double;
  e_marker_den : list double
}.

Definition bin (f : Field) (b : EntityBin) : list double :=
  match f with
  | F_i_dr_avg => i_dr_avg b | F_i_dr_squared_average => i_dr_squared_average b
  | F_i_dE_avg => i_dE_avg b | F_i_dE_squared_average => i_dE_squared_average b
  | F_i_marker_den => i_marker_den b
  | F_e_dr_avg => e_dr_avg b | F_e_dr_squared_average => e_dr_squared_average b
  | F_e_dE_avg => e_dE_avg b | F_e_dE_squared_average => e_dE_squared_average b
  | F_e_marker_den => e_marker_den b
  end.

(** One block of the variable "table" as [BlocksInfo] lists it, together
    with the values a [Get] of that block delivers. *)
Record Block := {
  BlockID : nat;
  Count : list Z;
  payload : list double
}.

(** What the process does to the outside, in program order. *)
Inductive Event :=
| ReaderBeginStep (status : StepStatus)
| DupBeginStep
| ReaderGet (block_id : nat)
| PerformGets
| DupPut (table : list double)
| ReaderEndStep
| DupEndStep
| Reduce (f : Field)
| DeclareIO
| DefineVariable (f : Field) (shape : nat)
| WriterOpen
| WriterBeginStep
| WriterPut (f : Field) (data : list double)
| WriterEndStep.

(** The members of [class Diffusion] the step reads or writes; [first]
    is the function-local [static bool first] of [output] (the program
    has one [Diffusion] object per process).  [istep] is read as an
    unbounded integer. *)
Record t := {
  rank : nat;
  comm_size : nat;
  ntriangle : nat;
  istep : Z;
  bins : EntityBin;
  first : bool;
  trace : list Event
}.

Definition set_bins (b : EntityBin) (d : t) : t :=
  {| rank := rank d; comm_size := comm_size d; ntriangle := ntriangle d; istep := istep d;
     bins := b; first := first d; trace := trace d |}.

Definition set_istep (n : Z) (d : t) : t :=
  {| rank := rank d; comm_size := comm_size d; ntriangle := ntriangle d; istep := n;
     bins := bins d; first := first d; trace := trace d |}.

Definition set_first (b : bool) (d : t) : t :=
  {| rank := rank d; comm_size := comm_size d; ntriangle := ntriangle d; istep := istep d;
     bins := bins d; first := b; trace := trace d |}.

Definition emit (evs : list Event) (d : t) : t :=
  {| rank := rank d; comm_size := comm_size d; ntriangle := ntriangle d; istep := istep d;
     bins := bins d; first := first d; trace := trace d ++ evs |}.

(** [Diffusion::reset]: every vector is resized to [ntriangle] and filled
    with [0.0]. *)
Definition zero_bins (n : nat) : EntityBin :=
  let z := replicate n d_zero in
  {| i_dr_avg := z; i_dr_squared_average := z; i_dE_avg := z; i_dE_squared_average := z;
     i_marker_den := z; e_dr_avg := z; e_dr_squared_average := z; e_dE_avg := z;
     e_dE_squared_average := z; e_marker_den := z |}.

Definition reset (d : t) : t := set_bins (zero_bins (ntriangle d)) d.

(** [vec[itri] += x]; an index outside the vector is undefined. *)
Definition bin_add (vec : list double) (itri : Z) (x : double) : option (list double) :=
  if (itri <? 0)%Z then None
  else y ← vec !! Z.to_nat itri; Some (<[Z.to_nat itri := d_add y x]> vec).

(** Body of the loop over the rows [k] of a table. *)
Definition process_row (table : list double) (k : nat) (b : EntityBin) : option EntityBin :=
  let itri := d_to_int (GET table k 0) in
  a1 ← bin_add (i_dr_avg b) itri (GET table k 1);
  a2 ← bin_add (i_dr_squared_average b) itri (GET table k 2);
  a3 ← bin_add (i_dE_avg b) itri (GET table k 3);
  a4 ← bin_add (i_dE_squared_average b) itri (GET table k 4);
  a5 ← bin_add (i_marker_den b) itri (GET table k 5);
  a6 ← bin_add (e_dr_avg b) itri (GET table k 6);
  a7 ← bin_add (e_dr_squared_average b) itri (GET table k 7);
  a8 ← bin_add (e_dE_avg b) itri (GET table k 8);
  a9 ← bin_add (e_dE_squared_average b) itri (GET table k 9);
  a10 ← bin_add (e_marker_den b) itri (GET table k 10);
  Some {| i_dr_avg := a1; i_dr_squared_average := a2; i_dE_avg := a3;
          i_dE_squared_average := a4; i_marker_den := a5; e_dr_avg := a6;
          e_dr_squared_average := a7; e_dE_avg := a8; e_dE_squared_average := a9;
          e_marker_den := a10 |}.

(** [int nrow = table.size() / NCOL; for (k = 0; k < nrow; k++) ...]. *)
Definition process_table (table : list double) (b : EntityBin) : option EntityBin :=
  for_each (process_row table) (seq 0 (length table / NCOL)) b.

(** The table of a block: fetched only when [ncount > 0], empty otherwise. *)
Definition fetch (block : Block) : list double :=
  if (0 <? block_ncount (Count block))%Z then payload block else [].

(** Body of the loop over the blocks of the slice. *)
Definition process_block (block : Block) (d : t) : option t :=
  let table := fetch block in
  let d :=
    if (0 <? block_ncount (Count block))%Z
    then emit [ReaderGet (BlockID block); PerformGets; DupPut table] d
    else d in
  b ← process_table table (bins d);
  Some (set_bins b d).

(** Lines 121 to 201 of [Diffusion::step], on one process: begin the step
    on the reader and on the duplicate writer, then, on [OK], reset,
    read the slice and end the step. *)
Definition step_local (status : StepStatus) (block_list : list Block) (d : t) : option t :=
  let d := emit [ReaderBeginStep status; DupBeginStep] d in
  match status with
  | OK =>
      let d := reset d in
      let slice := split_vector block_list (comm_size d) (rank d) in
      let offset := slice.1 in
      let nblock := slice.2 in
      d ← for_each (λ i d, block ← block_list !! i; process_block block d)
                   (seq offset nblock) d;
      Some (emit [ReaderEndStep; DupEndStep] d)
  | _ => Some d
  end.

(** [MPI_Reduce(..., vec.size(), MPI_DOUBLE, MPI_SUM, 0, comm)] as the root
    sees it: the element-wise sum of the buffers of ranks 0, 1, ... in rank
    order; the call is erroneous when the counts differ. *)
Definition MPI_Reduce_sum (bufs : list (list double)) : option (list double) :=
  match bufs with
  | [] => None
  | v0 :: rest =>
      for_each (λ v acc, if decide (length v = length acc)
                         then Some (zip_with d_add acc v) else None) rest v0
  end.

(** The ten [vec_reduce] calls, over the vectors of all processes of the
    communicator, listed by rank. *)
Definition reduce_bins (bs : list EntityBin) : option EntityBin :=
  a1 ← MPI_Reduce_sum (map i_dr_avg bs);
  a2 ← MPI_Reduce_sum (map i_dr_squared_average bs);
  a3 ← MPI_Reduce_sum (map i_dE_avg bs);
  a4 ← MPI_Reduce_sum (map i_dE_squared_average bs);
  a5 ← MPI_Reduce_sum (map i_marker_den bs);
  a6 ← MPI_Reduce_sum (map e_dr_avg bs);
  a7 ← MPI_Reduce_sum (map e_dr_squared_average bs);
  a8 ← MPI_Reduce_sum (map e_dE_avg bs);
  a9 ← MPI_Reduce_sum (map e_dE_squared_average bs);
  a10 ← MPI_Reduce_sum (map e_marker_den bs);
  Some {| i_dr_avg := a1; i_dr_squared_average := a2; i_dE_avg := a3;
          i_dE_squared_average := a4; i_marker_den := a5; e_dr_avg := a6;
          e_dr_squared_average := a7; e_dE_avg := a8; e_dE_squared_average := a9;
          e_marker_den := a10 |}.

(** [Diffusion::output]. *)
Definition declare_events (ntri : nat) : list Event :=
  DeclareIO :: map (λ f, DefineVariable f ntri) fields ++ [WriterOpen].

Definition write_events (b : EntityBin) : list Event :=
  WriterBeginStep :: map (λ f, WriterPut f (bin f b)) fields ++ [WriterEndStep].

Definition output (d : t) : t :=
  let d := if first d then set_first false (emit (declare_events (ntriangle d)) d) else d in
  emit (write_events (bins d)) d.

(** Lines 204 to 229 on one process, [reduced] being what the reductions
    deliver at the root: the receive buffer of a process other than the
    root is left as it is. *)
Definition step_reduce (reduced : EntityBin) (d : t) : t :=
  let d := emit (map Reduce fields) d in
  let d := if decide (rank d = 0) then output (set_bins reduced d) else d in
  set_istep (istep d + 1)%Z d.

(** [Diffusion::step] on all processes of the communicator, which see the
    same status and the same block list. *)
Definition step (status : StepStatus) (block_list : list Block) (w : list t) : option (list t) :=
  w1 ← mapM (step_local status block_list) w;
  match status with
  | OK => reduced ← reduce_bins (map bins w1); Some (map (step_reduce reduced) w1)
  | _ => Some w1
  end.

(** The constructor: [istep = 0], [reset()]; [first] starts [true]. *)
Definition init (comm_size rank ntri : nat) : t :=
  {| rank := rank; comm_size := comm_size; ntriangle := ntri; istep := 0;
     bins := zero_bins ntri; first := true; trace := [] |}.

Definition init_world (comm_size ntri : nat) : list t :=
  map (λ r, init comm_size r ntri) (seq 0 comm_size).

(** A run: one call of [step] per element, with the status [BeginStep]
    returns and the blocks published for that step. *)
Fixpoint run (inputs : list (StepStatus * list Block)) (w : list t) : option (list t) :=
  match inputs with
  | [] => Some w
  | (status, block_list) :: rest => w' ← step status block_list w; run rest w'
  end.

(** [vec_sum]: [double sum = 0; for (auto &x : vec) sum += x;]. *)
Definition vec_sum (vec : list double) : double := fold_left d_add vec d_zero.

(** What [Diffusion::finalize] closes, in program order. *)
Inductive CloseEvent := ReaderClose | WriterClose | DupWriterClose.

(** [Diffusion::finalize]: the reader, the output writer on rank 0, the
    duplicate writer. *)
Definition finalize (d : t) : list CloseEvent :=
  [ReaderClose] ++ (if decide (rank d = 0) then [WriterClose] else []) ++ [DupWriterClose].

End defs.
End Diffusion.

(** ** heatloadcalc.cpp *)

Module Heatload.
Import Adios Util.

Definition NPHASE : nat := 11.

(** [struct Particle], as far as the step fills it. *)
Record Particle {float : Type} := {
  gid : Z;
  flag : Z;
  esc_step : Z;
  r : float;
  z : float;
  phi : float;
  rho : float;
  w1 : float;
  w2 : float;
  mu : float;
  w0 : float;
  f0 : float;
  psi : float;
  B : float;
  dw : float
}.
Arguments Particle : clear implicits.

(** What the step takes from the headers that are not among the sources:
    the value [0.0f] a [std::vector<float>(n)] is filled with, the
    [escaped] bit that [Flags fl(flag)] decodes, the particle map
    [t_ParticlesList] with the empty map and [add], and the collective
    [ptlmap_sync], given the maps of all ranks. *)
Class Deps (float PList : Type) := {
  f_zero : float;
  escaped : Z → bool;
  pl_empty : PList;
  add : PList → Particle float → PList;
  ptlmap_sync : list PList → list PList
}.

Section defs.
Context {float PList : Type} `{Deps float PList}.

(** [#define GET(X, i, j) X[i * NPHASE + j]].  Reading past the end of a
    vector is undefined in the code; the model reads [0.0f] there.  In a
    step that returns no such read occurs: every gather checks the send
    count of every rank, so the local vectors of a merge that goes through
    are index-aligned (lemma [merge_Some_aligned]), and the gathered
    vectors are allocated with matching sizes. *)
Definition GET (X : list float) (i j : nat) : float := nth (i * NPHASE + j) X f_zero.

(** One block of a species as [BlocksInfo] lists it for the gid variable,
    with what a [Get] of that block delivers for each of the five variables. *)
Record Block := {
  BlockID : nat;
  Count : list Z;
  gid_data : list Z;
  flag_data : list Z;
  step_data : list Z;
  dw_data : list float;
  phase_data : list float
}.

(** The five flat vectors of a species, local ([igid], [iflag], ...) or
    gathered ([igid_total], ...). *)
Record Columns := {
  c_gid : list Z;
  c_flag : list Z;
  c_step : list Z;
  c_dw : list float;
  c_phase : list float
}.

Definition no_columns : Columns :=
  {| c_gid := []; c_flag := []; c_step := []; c_dw := []; c_phase := [] |}.

(** [igid.insert(igid.end(), _igid.begin(), _igid.end())] and the like,
    done only when [ncount > 0]. *)
Definition append_block (block : Block) (c : Columns) : Columns :=
  if (0 <? block_ncount (Count block))%Z
  then {| c_gid := c_gid c ++ gid_data block;
          c_flag := c_flag c ++ flag_data block;
          c_step := c_step c ++ step_data block;
          c_dw := c_dw c ++ dw_data block;
          c_phase := c_phase c ++ phase_data block |}
  else c.

(** The loop over the blocks of the slice of one species. *)
Definition read_species (block_list : list Block) (comm_size rank : nat) : option Columns :=
  let slice := split_vector block_list comm_size rank in
  let offset := slice.1 in
  let nblock := slice.2 in
  for_each (λ i c, block ← block_list !! i; Some (append_block block c))
           (seq offset nblock) no_columns.

(** *** The merge to rank 0 *)

(** The ten gathered variables. *)
Inductive Var :=
| V_igid | V_iflag | V_istep | V_idw | V_iphase
| V_egid | V_eflag | V_estep | V_edw | V_ephase.

(** One [MPI_Gatherv] as the root issues it: the variable and the contents
    of [len_list] and [displacement_list] at the time of the call. *)
Record GatherCall := {
  g_var : Var;
  g_recvcounts : list nat;
  g_displs : list nat
}.

(** The two buffers [len_list] and [displacement_list], allocated once and
    used for every gather of the step, and the gathers issued so far.
    Lengths and displacements are natural numbers: the [int] of the code is
    taken not to overflow. *)
Record Buffers := {
  len_list : list nat;
  displacement_list : list nat;
  calls : list GatherCall
}.

(** Code that reads and writes the buffers and may be erroneous. *)
Definition M (A : Type) : Type := Buffers → option (A * Buffers).

Definition ret {A} (a : A) : M A := λ st, Some (a, st).

Definition bind {A B'} (m : M A) (k : A → M B') : M B' :=
  λ st, match m st with
        | Some (a, st') => k a st'
        | None => None
        end.

(** [MPI_Allgather(&len, 1, MPI_INT, len_list.data(), 1, MPI_INT, comm)]:
    entry [i] of [len_list] receives the [len] of rank [i]. *)
Definition MPI_Allgather (lens : list nat) : M unit :=
  λ st, Some (tt, {| len_list := list_inserts 0 lens (len_list st);
                     displacement_list := displacement_list st;
                     calls := calls st |}).

(** [ntotal = 0; for (i = 0; i < len_list.size(); i++)
      { displacement_list[i] = ntotal; ntotal += len_list[i]; }]. *)
Definition displacements (lens displs : list nat) : list nat * nat :=
  fold_left (λ '(displs, ntotal) i, (<[i := ntotal]> displs, ntotal + nth i lens 0))
            (seq 0 (length lens)) (displs, 0).

Definition compute_displacements : M nat :=
  λ st, let '(displs, ntotal) := displacements (len_list st) (displacement_list st) in
        Some (ntotal, {| len_list := len_list st; displacement_list := displs;
                         calls := calls st |}).

(** [for (i = 0; i < len_list.size(); i++) len_list[i] = len_list[i] * NPHASE;]. *)
Definition scale (lens : list nat) : list nat :=
  fold_left (λ lens i, <[i := nth i lens 0 * NPHASE]> lens) (seq 0 (length lens)) lens.

Definition scale_len_list : M unit :=
  λ st, Some (tt, {| len_list := scale (len_list st);
                     displacement_list := displacement_list st; calls := calls st |}).

(** What [MPI_Gatherv] leaves in the receive buffer of the root: the data
    of rank [i] at [displs[i]].  The call is erroneous when a rank sends a
    number of elements other than [recvcounts[i]] or when a segment does
    not fit the buffer. *)
Definition gather_into {T} (sends : list (list T)) (recvcounts displs : list nat)
    (recvbuf : list T) : option (list T) :=
  for_each (λ '(i, send) buf,
              cnt ← recvcounts !! i;
              dsp ← displs !! i;
              if decide (length send = cnt ∧ dsp + cnt ≤ length buf)
              then Some (list_inserts dsp send buf) else None)
           (zip (seq 0 (length sends)) sends) recvbuf.

Definition MPI_Gatherv {T} (v : Var) (sends : list (list T)) (recvbuf : list T) : M (list T) :=
  λ st, buf ← gather_into sends (len_list st) (displacement_list st) recvbuf;
        Some (buf, {| len_list := len_list st; displacement_list := displacement_list st;
                      calls := calls st ++ [{| g_var := v; g_recvcounts := len_list st;
                                               g_displs := displacement_list st |}] |}).

Notation "x <~ m ;; k" := (bind m (λ x, k))
  (at level 100, m at next level, k at level 200, right associativity, only parsing).

(** The gathered variable of a species: ions ([true]) or electrons. *)
Definition v_gid (ion : bool) : Var := if ion then V_igid else V_egid.
Definition v_flag (ion : bool) : Var := if ion then V_iflag else V_eflag.
Definition v_step (ion : bool) : Var := if ion then V_istep else V_estep.
Definition v_dw (ion : bool) : Var := if ion then V_idw else V_edw.
Definition v_phase (ion : bool) : Var := if ion then V_iphase else V_ephase.

(** Lines 177 to 218 for the ions and 221 to 260 for the electrons, as the
    root runs them; [locals] are the local vectors of ranks 0, 1, ... *)
Definition merge_species (ion : bool) (locals : list Columns) : M Columns :=
  _ <~ MPI_Allgather (map (λ c, length (c_gid c)) locals) ;;
  ntotal <~ compute_displacements ;;
  gid_total <~ MPI_Gatherv (v_gid ion) (map c_gid locals) (replicate ntotal 0%Z) ;;
  flag_total <~ MPI_Gatherv (v_flag ion) (map c_flag locals) (replicate ntotal 0%Z) ;;
  step_total <~ MPI_Gatherv (v_step ion) (map c_step locals) (replicate ntotal 0%Z) ;;
  dw_total <~ MPI_Gatherv (v_dw ion) (map c_dw locals) (replicate ntotal f_zero) ;;
  _ <~ scale_len_list ;;
  _ <~ compute_displacements ;;
  phase_total <~ MPI_Gatherv (v_phase ion) (map c_phase locals)
                             (replicate (ntotal * NPHASE) f_zero) ;;
  ret {| c_gid := gid_total; c_flag := flag_total; c_step := step_total;
         c_dw := dw_total; c_phase := phase_total |}.

(** Both species, one after the other, on the same two buffers. *)
Definition merge (ions electrons : list Columns) : M (Columns * Columns) :=
  itotal <~ merge_species true ions ;;
  etotal <~ merge_species false electrons ;;
  ret (itotal, etotal).

(** [std::vector<int> len_list(comm_size), displacement_list(comm_size)]. *)
Definition init_buffers (comm_size : nat) : Buffers :=
  {| len_list := replicate comm_size 0; displacement_list := replicate comm_size 0;
     calls := [] |}.

(** *** Particles *)

(** The particle built from index [k] of the five vectors. *)
Definition particle_at (c : Columns) (k : nat) : Particle float :=
  {| gid := nth k (c_gid c) 0%Z;
     flag := nth k (c_flag c) 0%Z;
     esc_step := nth k (c_step c) 0%Z;
     r := GET (c_phase c) k 0;
     z := GET (c_phase c) k 1;
     phi := GET (c_phase c) k 2;
     rho := GET (c_phase c) k 3;
     w1 := GET (c_phase c) k 4;
     w2 := GET (c_phase c) k 5;
     mu := GET (c_phase c) k 6;
     w0 := GET (c_phase c) k 7;
     f0 := GET (c_phase c) k 8;
     psi := GET (c_phase c) k 9;
     B := GET (c_phase c) k 10;
     dw := nth k (c_dw c) f_zero |}.

(** [for (k = 0; k < igid_total.size(); k++) { ...; if (fl.escaped) add(iesc, iptl); }]. *)
Definition escaped_loop (c : Columns) : PList :=
  fold_left (λ esc k, let ptl := particle_at c k in
                      if escaped (nth k (c_flag c) 0%Z) then add esc ptl else esc)
            (seq 0 (length (c_gid c))) pl_empty.

(** [for (i = 0; i < igid.size(); i++) { ...; if (!fl.escaped) idiv.push_back(iptl); }]. *)
Definition confined_loop (c : Columns) : list (Particle float) :=
  fold_left (λ div i, let ptl := particle_at c i in
                      if negb (escaped (nth i (c_flag c) 0%Z)) then div ++ [ptl] else div)
            (seq 0 (length (c_gid c))) [].

(** The four local collections of a step, before [ptlmap_sync]. *)
Record Classified := {
  idiv : list (Particle float);
  ediv : list (Particle float);
  iesc : PList;
  eesc : PList
}.

(** Lines 262 to 395 on the process of rank [rank]: the escaped maps are
    filled on rank 0 only, from the gathered vectors; the divertor lists
    are filled everywhere, from the local vectors. *)
Definition classify (rank : nat) (totals : Columns * Columns) (ions electrons : Columns)
    : Classified :=
  {| iesc := if decide (rank = 0) then escaped_loop totals.1 else pl_empty;
     eesc := if decide (rank = 0) then escaped_loop totals.2 else pl_empty;
     idiv := confined_loop ions;
     ediv := confined_loop electrons |}.

(** *** The step *)

Inductive Event :=
| ReaderBeginStep (status : StepStatus)
| HeatloadCalc (isp : Z) (div : list (Particle float)) (db : list PList)
| Output
| ReaderEndStep.

(** The members of [class Heatload] the step reads or writes. *)
Record t := {
  rank : nat;
  comm_size : nat;
  istep : Z;
  iesc_db : list PList;
  eesc_db : list PList;
  trace : list Event
}.

(** The constructor. *)
Definition init (comm_size rank : nat) : t :=
  {| rank := rank; comm_size := comm_size; istep := 0; iesc_db := []; eesc_db := [];
     trace := [] |}.

Definition init_world (comm_size : nat) : list t := map (init comm_size) (seq 0 comm_size).

(** Lines 397 to 421 on one process, [iesc'] and [eesc'] being its maps
    after [ptlmap_sync]. *)
Definition finish (h : t) (cl : Classified) (iesc' eesc' : PList) : t :=
  let idb := iesc_db h ++ [iesc'] in
  let edb := eesc_db h ++ [eesc'] in
  {| rank := rank h; comm_size := comm_size h;
     istep := (istep h + 1)%Z;
     iesc_db := idb; eesc_db := edb;
     trace := trace h ++ [ReaderBeginStep OK; HeatloadCalc 1 (idiv cl) idb;
                          HeatloadCalc 0 (ediv cl) edb; Output; ReaderEndStep] |}.

Definition not_ready (status : StepStatus) (h : t) : t :=
  {| rank := rank h; comm_size := comm_size h; istep := istep h;
     iesc_db := iesc_db h; eesc_db := eesc_db h;
     trace := trace h ++ [ReaderBeginStep status] |}.

(** The four collections of every process of the communicator, given the
    blocks published for the two species. *)
Definition classify_world (iblocks eblocks : list Block) (w : list t) : option (list Classified) :=
  ions ← mapM (λ h, read_species iblocks (comm_size h) (rank h)) w;
  electrons ← mapM (λ h, read_species eblocks (comm_size h) (rank h)) w;
  merged ← merge ions electrons (init_buffers (length w));
  Some (zip_with (λ h ie, classify (rank h) merged.1 ie.1 ie.2) w (zip ions electrons)).

(** [Heatload::step] on all processes of the communicator, which see the
    same status and the same blocks. *)
Definition step (status : StepStatus) (iblocks eblocks : list Block) (w : list t)
    : option (list t) :=
  match status with
  | OK =>
      cls ← classify_world iblocks eblocks w;
      let isync := ptlmap_sync (map iesc cls) in
      let esync := ptlmap_sync (map eesc cls) in
      Some (imap (λ i hc, finish hc.1 hc.2 (default (iesc hc.2) (isync !! i))
                                           (default (eesc hc.2) (esync !! i)))
                 (zip w cls))
  | _ => Some (map (not_ready status) w)
  end.

Fixpoint run (inputs : list (StepStatus * list Block * list Block)) (w : list t)
    : option (list t) :=
  match inputs with
  | [] => Some w
  | (status, iblocks, eblocks) :: rest => w' ← step status iblocks eblocks w; run rest w'
  end.

End defs.
End Heatload.

(** ** The command-line driver of the heatload program *)

Module Driver.

(** The loop of [main]: [rets] are the values [heatload_step] returns, call
    after call.  The result is the step counter when the loop is left, or
    when the calls at hand are used up. *)
Fixpoint main_loop (rets : list Z) (istep : Z) : Z :=
  match rets with
  | [] => istep
  | ret :: rest =>
      if (ret =? 0)%Z then main_loop rest (istep + 1)%Z
      else if (0 <? ret)%Z then main_loop rest istep
      else if (ret =? -1)%Z then istep
      else main_loop rest istep
  end.

(** [int istep = 1; while (1) ...]. *)
Definition main (rets : list Z) : Z := main_loop rets 1%Z.


Import String.
(** The checks [main] makes on [argv[1 .. argc-1]] before anything else;
    each failure prints a message and calls [exit(1)]. *)
Inductive ArgError := TooManyArguments | UnknownArgument.

(** The two options. *)
Definition opt_test : String.string := "--test".
Definition opt_update_test : String.string := "--update-test".

Fixpoint check_args (args : list String.string) : option ArgError :=
  match args with
  | [] => None
  | arg :: rest =>
      if String.eqb arg opt_test then check_args rest
      else if String.eqb arg opt_update_test then check_args rest
      else Some UnknownArgument
  end.

(** [argc > 2] is tested first; [args] is [argv] without the program name. *)
Definition parse_args (args : list String.string) : option ArgError :=
  if decide (2 < S (List.length args)) then Some TooManyArguments else check_args args.

(** The loop of [main] with what it does: the value of [istep] passed to
    each call of [heatload_step], and the value of [istep] when the loop is
    left by [break] ([None] while it is still running after the calls at
    hand). *)
Fixpoint main_loop_calls (rets : list Z) (istep : Z) : list Z * option Z :=
  match rets with
  | [] => ([], None)
  | ret :: rest =>
      let next :=
        if (ret =? 0)%Z then main_loop_calls rest (istep + 1)%Z
        else if (0 <? ret)%Z then main_loop_calls rest istep
        else if (ret =? -1)%Z then ([], Some istep)
        else main_loop_calls rest istep in
      (istep :: next.1, next.2)
  end.

End Driver.

(** ** Vocabulary of the properties of the diffusion pipeline *)

Section diffusion_spec.
Import Adios Util Diffusion.
Context {double : Type} `{DoubleOps double}.
Implicit Types (d : Diffusion.t (double:=double)) (w : list (Diffusion.t (double:=double))).
Implicit Types (f : Field) (blocks : list (Block (double:=double))).
Implicit Types (b : EntityBin (double:=double)) (bs : list (EntityBin (double:=double))).
Implicit Types (vec table : list double).

(** A row as the accumulation sees it: the triangle it names and the value
    of one of its ten columns. *)
Definition table_rows f table : list (Z * double) :=
  map (λ k, (d_to_int (GET table k 0), GET table k (col f))) (seq 0 (length table / NCOL)).

(** The running sum at entity [e]: the values of the rows naming [e], added
    one after the other to [init]. *)
Definition acc_sum (e : nat) (rows : list (Z * double)) (init : double) : double :=
  fold_left (λ acc row, if decide (row.1 = Z.of_nat e) then d_add acc row.2 else acc) rows init.

Definition bins_len (n : nat) b : Prop := ∀ f, length (bin f b) = n.

(** The number of values of a block: the product of its dimensions. *)
Definition dims_product (count : list Z) : Z := fold_left Z.mul count 1%Z.

(** A block as the reader publishes it: the payload has as many values as
    the product of the dimensions, which fits an [int]. *)
Definition block_ok (block : Block (double:=double)) : Prop :=
  (0 ≤ dims_product (Count block) < 2 ^ 31)%Z ∧
  length (payload block) = Z.to_nat (dims_product (Count block)).

(** The rows of a list of blocks, block after block. *)
Definition blocks_rows f (blocks : list (Block (double:=double))) : list (Z * double) :=
  concat (map (λ block, table_rows f (payload block)) blocks).

(** Every row names a triangle of the mesh. *)
Definition ids_in_range (n : nat) (blocks : list (Block (double:=double))) : Prop :=
  Forall (λ row, (0 ≤ row.1 < Z.of_nat n)%Z) (blocks_rows F_i_dr_avg blocks).

(** What the local part of a step leaves alone. *)
Definition same_config d d' : Prop :=
  rank d' = rank d ∧ comm_size d' = comm_size d ∧ ntriangle d' = ntriangle d ∧
  istep d' = istep d ∧ first d' = first d.

(** The processes of a communicator of size [W] over a mesh of [n]
    triangles, listed by rank. *)
Definition world_ok (W n : nat) w : Prop :=
  length w = W ∧
  ∀ r d, w !! r = Some d → rank d = r ∧ comm_size d = W ∧ ntriangle d = n.

(** [MPI_SUM] over the contributions of ranks 0, 1, ... *)
Definition sum_ranks (ys : list double) : double :=
  match ys with
  | [] => d_zero
  | y0 :: ys' => fold_left d_add ys' y0
  end.

(** The sum the specification speaks of: over all rows of all blocks that
    name entity [e], of the column of field [f]. *)
Definition entity_sum f (e : nat) blocks : double := acc_sum e (blocks_rows f blocks) d_zero.

(** The events of reading one block and mirroring it. *)
Definition is_fetch_event (ev : Event (double:=double)) : bool :=
  match ev with
  | ReaderGet _ | PerformGets | DupPut _ => true
  | _ => false
  end.

(** The events of the local part of a step, [mid] being those of its blocks. *)
Definition local_events (status : StepStatus) (mid : list (Event (double:=double))) : list Event :=
  [ReaderBeginStep status; DupBeginStep] ++
  match status with
  | OK => mid ++ [ReaderEndStep; DupEndStep]
  | _ => []
  end.

(** The configuration of a process: rank, communicator size, mesh size. *)
Definition cfg d : nat * nat * nat := (rank d, comm_size d, ntriangle d).

(** The vectors a process holds after the local part of a Ready step, as a
    function of its configuration and of the blocks alone. *)
Definition local_bins blocks (c : nat * nat * nat) : option EntityBin :=
  let slice := split_vector blocks c.1.2 c.1.1 in
  for_each (λ i b, block ← blocks !! i; process_table (fetch block) b)
           (seq slice.1 slice.2) (zero_bins c.2).

(** The vectors of all processes after a Ready step, likewise. *)
Definition step_bins blocks (cs : list (nat * nat * nat)) : option (list EntityBin) :=
  bs ← mapM (local_bins blocks) cs;
  reduced ← reduce_bins bs;
  Some (zip_with (λ c b, if decide (c.1.1 = 0) then reduced else b) cs bs).

(** The events of the second part of a Ready step: the ten reductions and,
    on rank 0, [output], which declares the layout when [first] is set. *)
Definition reduce_events (fst : bool) (r n : nat) (b : EntityBin (double:=double)) : list Event :=
  map Reduce fields ++
  if decide (r = 0)
  then (if fst then declare_events n else []) ++ write_events b
  else [].

Definition step_events (status : StepStatus) (mid : list Event)
    (fst : bool) (r n : nat) (b : EntityBin (double:=double)) : list Event :=
  local_events status mid ++
  match status with
  | OK => reduce_events fst r n b
  | _ => []
  end.

(** How one call of [step] relates the state of a process before and after. *)
Definition step_rel (status : StepStatus) d d' : Prop :=
  cfg d' = cfg d ∧
  istep d' = (istep d + if decide (status = OK) then 1 else 0)%Z ∧
  first d' = (if decide (status = OK ∧ rank d = 0) then false else first d) ∧
  (status ≠ OK → bins d' = bins d) ∧
  ∃ mid, Forall (λ ev, is_fetch_event ev = true) mid ∧
    trace d' = trace d ++ step_events status mid (first d) (rank d) (ntriangle d) (bins d').

Definition count_OK (statuses : list StepStatus) : nat :=
  length (filter (λ s, s = OK) statuses).

(** The events on the duplicate-stream writer. *)
Definition is_dup_event (ev : Event (double:=double)) : bool :=
  match ev with
  | DupBeginStep | DupPut _ | DupEndStep => true
  | _ => false
  end.

Definition is_DupPut (ev : Event (double:=double)) : Prop :=
  match ev with
  | DupPut _ => True
  | _ => False
  end.

(** The events on the output writer "diffusion". *)
Definition is_sink_event (ev : Event (double:=double)) : bool :=
  match ev with
  | DeclareIO | DefineVariable _ _ | WriterOpen
  | WriterBeginStep | WriterPut _ _ | WriterEndStep => true
  | _ => false
  end.

(** The output of a run that persisted the snapshots [bs], in this order:
    one declaration of the layout, then one written step per snapshot. *)
Definition sink_log (n : nat) bs : list Event :=
  match bs with
  | [] => []
  | _ :: _ => declare_events n ++ concat (map write_events bs)
  end.

Definition sink_inv d bs : Prop :=
  first d = bool_decide (bs = []) ∧
  filter (λ ev, is_sink_event ev = true) (trace d) = sink_log (ntriangle d) bs.
End diffusion_spec.

(** Exact integer arithmetic, used to run the model on concrete inputs. *)
#[global] Instance exact_ops : DoubleOps Z :=
  {| d_zero := 0%Z; d_add := Z.add; d_to_int := id |}.

(** Two blocks of two rows each, over a mesh of three triangles; both
    blocks have a row for triangle 1.  Column [j] of a row holds a multiple
    of [j]. *)
Definition ex_row (itri m : Z) : list Z :=
  itri :: map (λ j, m * j)%Z [1; 2; 3; 4; 5; 6; 7; 8; 9; 10]%Z.

Definition ex_blocks : list (Diffusion.Block (double:=Z)) :=
  [ {| Diffusion.BlockID := 0; Diffusion.Count := [2; 11]%Z;
       Diffusion.payload := ex_row 0 1 ++ ex_row 1 10 |};
    {| Diffusion.BlockID := 1; Diffusion.Count := [2; 11]%Z;
       Diffusion.payload := ex_row 1 100 ++ ex_row 2 1000 |} ].

Definition ex_inputs : list (Adios.StepStatus * list (Diffusion.Block (double:=Z))) :=
  [(Adios.OK, ex_blocks); (Adios.NotReady, []); (Adios.OK, ex_blocks)].

(** ** Vocabulary of the properties of the heatload pipeline *)

Section heatload_spec.
Import Adios Util Heatload.
Context {float PList : Type} `{Deps float PList}.
Implicit Types (c : Columns (float:=float)) (cs : list (Columns (float:=float))).
Implicit Types (h : Heatload.t (float:=float) (PList:=PList)).

(** The displacement table of a length table: entry [i] is the sum of the
    lengths before [i]. *)
Fixpoint prefix_from (acc : nat) (lens : list nat) : list nat :=
  match lens with
  | [] => []
  | n :: lens' => acc :: prefix_from (acc + n) lens'
  end.

Definition prefix_sums (lens : list nat) : list nat := prefix_from 0 lens.

(** The five vectors are index-aligned: one flag, step and energy loss and
    [NPHASE] phase values per gid. *)
Definition aligned c : Prop :=
  length (c_flag c) = length (c_gid c) ∧
  length (c_step c) = length (c_gid c) ∧
  length (c_dw c) = length (c_gid c) ∧
  length (c_phase c) = length (c_gid c) * NPHASE.

(** The vectors of rank 0 followed by those of rank 1, and so on. *)
Definition concat_columns cs : Columns :=
  {| c_gid := concat (map c_gid cs);
     c_flag := concat (map c_flag cs);
     c_step := concat (map c_step cs);
     c_dw := concat (map c_dw cs);
     c_phase := concat (map c_phase cs) |}.

(** The records of a set of vectors, one per gid, in index order. *)
Definition records_of c : list (Particle float) :=
  map (particle_at c) (seq 0 (length (c_gid c))).

Definition is_escaped (p : Particle float) : Prop := escaped (flag p) = true.

#[global] Instance is_escaped_dec (p : Particle float) : Decision (is_escaped p).
Proof. unfold is_escaped. apply _. Defined.

(** The particles proposed to the escaped map of the root: the escaped
    ones among the records of all ranks, in rank order. *)
Definition candidates cs : list (Particle float) :=
  filter is_escaped (concat (map records_of cs)).

(** The local record counts [n_0, n_1, ...] of the ranks. *)
Definition lens_of cs : list nat := map (λ c, length (c_gid c)) cs.

Definition times_NPHASE (lens : list nat) : list nat := map (λ n, n * NPHASE) lens.

(** The five gathers of one species: the four scalar variables with the
    length table of the species and its prefix sums, the phase vector with
    both scaled by [NPHASE]. *)
Definition species_calls (ion : bool) (lens : list nat) : list GatherCall :=
  [ {| g_var := v_gid ion; g_recvcounts := lens; g_displs := prefix_sums lens |};
    {| g_var := v_flag ion; g_recvcounts := lens; g_displs := prefix_sums lens |};
    {| g_var := v_step ion; g_recvcounts := lens; g_displs := prefix_sums lens |};
    {| g_var := v_dw ion; g_recvcounts := lens; g_displs := prefix_sums lens |};
    {| g_var := v_phase ion; g_recvcounts := times_NPHASE lens;
       g_displs := prefix_sums (times_NPHASE lens) |} ].

(** A block of a species as the reader publishes it: the five variables
    of the block are index-aligned. *)
Definition hblock_ok (block : Block (float:=float)) : Prop :=
  length (flag_data block) = length (gid_data block) ∧
  length (step_data block) = length (gid_data block) ∧
  length (dw_data block) = length (gid_data block) ∧
  length (phase_data block) = length (gid_data block) * NPHASE.

(** The vectors of [c1] followed by those of [c2]. *)
Definition app_columns (c1 c2 : Columns (float:=float)) : Columns :=
  {| c_gid := c_gid c1 ++ c_gid c2;
     c_flag := c_flag c1 ++ c_flag c2;
     c_step := c_step c1 ++ c_step c2;
     c_dw := c_dw c1 ++ c_dw c2;
     c_phase := c_phase c1 ++ c_phase c2 |}.

(** The processes of a communicator of size [W], listed by rank. *)
Definition hworld_ok (W : nat) (w : list (Heatload.t (float:=float) (PList:=PList))) : Prop :=
  length w = W ∧ ∀ r h, w !! r = Some h → rank h = r ∧ comm_size h = W.
End heatload_spec.

(** A stand-in for the missing headers, used to run the model: [float]
    read as an integer, bit 0 of the flag as the escape bit, the particle
    map as the list of the particles added, and a [ptlmap_sync] that hands
    the map of rank 0 to every rank. *)
#[global] Instance ex_deps : Heatload.Deps Z (list (Heatload.Particle Z)) :=
  {| Heatload.f_zero := 0%Z;
     Heatload.escaped := Z.odd;
     Heatload.pl_empty := [];
     Heatload.add := λ esc ptl, esc ++ [ptl];
     Heatload.ptlmap_sync := λ maps, replicate (length maps) (default [] (head maps)) |}.

(** [n] particles with gids [base], [base + 1], ...; particle [k] has
    escaped exactly when [k mod 5 < 2]. *)
Definition ex_columns (base : Z) (n : nat) : Heatload.Columns (float:=Z) :=
  {| Heatload.c_gid := map (λ k, base + k)%Z (seqZ 0 (Z.of_nat n));
     Heatload.c_flag := map (λ k, if (k `mod` 5 <? 2)%Z then 1 else 0)%Z (seqZ 0 (Z.of_nat n));
     Heatload.c_step := map (λ k, 7 + k)%Z (seqZ 0 (Z.of_nat n));
     Heatload.c_dw := map (λ k, 1000 + base + k)%Z (seqZ 0 (Z.of_nat n));
     Heatload.c_phase :=
       concat (map (λ k, map (λ j, 100 * (base + k) + j)%Z (seqZ 0 11))
                   (seqZ 0 (Z.of_nat n))) |}.

(** Record counts 0, 3 and 5 on three ranks. *)
Definition ex_ions : list (Heatload.Columns (float:=Z)) :=
  [ex_columns 0 0; ex_columns 10 3; ex_columns 20 5].

Definition ex_electrons : list (Heatload.Columns (float:=Z)) :=
  [ex_columns 50 2; ex_columns 60 0; ex_columns 70 1].

Definition ex_hblock (id : nat) (base : Z) (n : nat) : Heatload.Block (float:=Z) :=
  {| Heatload.BlockID := id; Heatload.Count := [Z.of_nat n];
     Heatload.gid_data := Heatload.c_gid (ex_columns base n);
     Heatload.flag_data := Heatload.c_flag (ex_columns base n);
     Heatload.step_data := Heatload.c_step (ex_columns base n);
     Heatload.dw_data := Heatload.c_dw (ex_columns base n);
     Heatload.phase_data := Heatload.c_phase (ex_columns base n) |}.

(** A batch of ten ions, four escaped and six confined, in three blocks,
    and three electrons in two blocks. *)
Definition ex_iblocks : list (Heatload.Block (float:=Z)) :=
  [ex_hblock 0 0 5; ex_hblock 1 100 0; ex_hblock 2 200 5].

Definition ex_eblocks : list (Heatload.Block (float:=Z)) :=
  [ex_hblock 0 300 2; ex_hblock 1 400 1].

Definition ex_hinputs
    : list (Adios.StepStatus * list (Heatload.Block (float:=Z)) * list (Heatload.Block (float:=Z))) :=
  [(Adios.OK, ex_iblocks, ex_eblocks); (Adios.NotReady, [], []);
   (Adios.OK, ex_eblocks, ex_iblocks); (Adios.EndOfStream, [], [])].

(** ** Vocabulary of the further properties *)

(** Addition that is also commutative, for the properties that reorder a sum. *)
Class DoubleComm (double : Type) `{DoubleOps double} : Prop := {
  d_add_comm : ∀ x y : double, d_add x y = d_add y x
}.

Section diffusion_more_spec.
Import Adios Util Diffusion.
Context {double : Type} `{DoubleOps double}.
Implicit Types (d : Diffusion.t (double:=double)) (w : list (Diffusion.t (double:=double))).
Implicit Types (f : Field) (blocks : list (Block (double:=double))).
Implicit Types (block : Block (double:=double)).

(** Every row of the table the step fetches for the block names a triangle
    of a mesh of [n] triangles. *)
Definition fetched_in_range (n : nat) block : Prop :=
  Forall (λ row, (0 ≤ row.1 < Z.of_nat n)%Z) (table_rows F_i_dr_avg (fetch block)).

(** The events of one iteration of the loop over blocks. *)
Definition fetch_events block : list (Event (double:=double)) :=
  if (0 <? block_ncount (Count block))%Z
  then [ReaderGet (BlockID block); PerformGets; DupPut (fetch block)]
  else [].

(** The block is read: its [ncount] is positive. *)
Definition is_read block : Prop := (0 < block_ncount (Count block))%Z.

#[global] Instance is_read_dec block : Decision (is_read block).
Proof. unfold is_read. apply _. Defined.

(** The tables put on the duplicate stream, in order. *)
Definition dup_tables (evs : list (Event (double:=double))) : list (list double) :=
  omap (λ ev, match ev with DupPut table => Some table | _ => None end) evs.

Definition is_reduce_event (ev : Event (double:=double)) : bool :=
  match ev with
  | Reduce _ => true
  | _ => false
  end.

(** The events on the reader that open and close a step. *)
Definition is_reader_step_event (ev : Event (double:=double)) : bool :=
  match ev with
  | ReaderBeginStep _ | ReaderEndStep => true
  | _ => false
  end.

Definition reader_step_log (status : StepStatus) : list (Event (double:=double)) :=
  ReaderBeginStep status :: match status with OK => [ReaderEndStep] | _ => [] end.

(** A definition or a put of the output writer has [n] entries. *)
Definition sized (n : nat) (ev : Event (double:=double)) : Prop :=
  match ev with
  | DefineVariable _ shape => shape = n
  | WriterPut _ data => length data = n
  | _ => True
  end.

(** The state of a process that ran from the constructor: vectors of
    [ntriangle] entries, and only such vectors declared or written. *)
Definition well_sized d : Prop :=
  bins_len (ntriangle d) (bins d) ∧ Forall (sized (ntriangle d)) (trace d).

(** The value of one column summed over all rows, whatever they name. *)
Definition column_total (rows : list (Z * double)) : double :=
  fold_left d_add (map snd rows) d_zero.
End diffusion_more_spec.

Section heatload_more_spec.
Import Adios Util Heatload.
Context {float PList : Type} `{Deps float PList}.
Implicit Types (h : Heatload.t (float:=float) (PList:=PList)).

(** The five variables of a block as vectors. *)
Definition block_columns (block : Block (float:=float)) : Columns :=
  {| c_gid := gid_data block; c_flag := flag_data block; c_step := step_data block;
     c_dw := dw_data block; c_phase := phase_data block |}.

(** The block is read: its [ncount] is positive. *)
Definition is_hread (block : Block (float:=float)) : Prop :=
  (0 < block_ncount (Count block))%Z.

#[global] Instance is_hread_dec (block : Block (float:=float)) : Decision (is_hread block).
Proof. unfold is_hread. apply _. Defined.

(** The vectors of the blocks that are read, in block order. *)
Definition read_columns (blocks : list (Block (float:=float))) : Columns :=
  concat_columns (map block_columns (filter is_hread blocks)).

(** The history handed to a call of [heatload_calc] is a prefix of the
    history of its species as it is now. *)
Definition calc_consistent h (ev : Event (float:=float) (PList:=PList)) : Prop :=
  match ev with
  | HeatloadCalc isp _ db =>
      (isp = 1%Z ∧ db `prefix_of` iesc_db h) ∨ (isp = 0%Z ∧ db `prefix_of` eesc_db h)
  | _ => True
  end.

(** An event of the step without the data it carries. *)
Inductive Shape :=
| SBeginStep (status : StepStatus)
| SHeatloadCalc (isp : Z)
| SOutput
| SEndStep.

Definition shape (ev : Event (float:=float) (PList:=PList)) : Shape :=
  match ev with
  | ReaderBeginStep status => SBeginStep status
  | HeatloadCalc isp _ _ => SHeatloadCalc isp
  | Output => SOutput
  | ReaderEndStep => SEndStep
  end.

(** The events of one call of the step: the ions are evaluated before the
    electrons, the output follows, and the reader step is ended last. *)
Definition step_shape (status : StepStatus) : list Shape :=
  match status with
  | OK => [SBeginStep OK; SHeatloadCalc 1; SHeatloadCalc 0; SOutput; SEndStep]
  | _ => [SBeginStep status]
  end.

(** The two histories have one entry per completed step, and every call
    of [heatload_calc] so far was given a prefix of today's history. *)
Definition history_inv h : Prop :=
  istep h = Z.of_nat (length (iesc_db h)) ∧
  length (eesc_db h) = length (iesc_db h) ∧
  Forall (calc_consistent h) (trace h).
End heatload_more_spec.

(** ** Vocabulary of the properties of the driver *)

(** The returns of [heatload_step] before the first [-1]. *)
Fixpoint until_break (rets : list Z) : list Z :=
  match rets with
  | [] => []
  | ret :: rest => if decide (ret = -1)%Z then [] else ret :: until_break rest
  end.

(** The number of calls that returned 0. *)
Definition zeros (rets : list Z) : nat := length (filter (λ ret, ret = 0%Z) rets).

(** ** Properties of the diffusion pipeline *)

Section split_facts.
Import Util.
Context {T : Type}.
Implicit Types (vec : list T) (W r : nat).

Lemma slice_offset_0 vec W : slice_offset vec W 0 = 0.
Proof. unfold slice_offset, split_vector; cbn [fst snd]. lia. Qed.

Lemma slice_offset_S vec W r :
  slice_offset vec W (S r) = slice_offset vec W r + slice_count vec W r.
Proof.
  unfold slice_offset, slice_count, split_vector; cbn [fst snd].
  destruct (Nat.ltb_spec r (length vec mod W)); nia.
Qed.

Lemma slice_offset_end vec W :
  0 < W → slice_offset vec W W = length vec.
Proof.
  intros HW. unfold slice_offset, split_vector; cbn [fst snd].
  pose proof (Nat.mod_upper_bound (length vec) W ltac:(lia)).
  pose proof (Nat.div_mod_eq (length vec) W).
  rewrite Nat.min_r by lia. lia.
Qed.

Lemma slice_offset_mono vec W r r' :
  r ≤ r' → slice_offset vec W r ≤ slice_offset vec W r'.
Proof.
  induction 1 as [|r' _ IH]; [done|].
  rewrite slice_offset_S. lia.
Qed.

Lemma slice_end_le vec W r :
  r < W → slice_offset vec W r + slice_count vec W r ≤ length vec.
Proof.
  intros Hr. rewrite <- slice_offset_S, <- (slice_offset_end vec W) by lia.
  apply slice_offset_mono. lia.
Qed.

Lemma slice_length vec W r :
  r < W → length (slice vec W r) = slice_count vec W r.
Proof.
  intros Hr. unfold slice. rewrite length_take, length_drop.
  pose proof (slice_end_le vec W r Hr). lia.
Qed.

(** Reading the ranges of ranks [0 .. n-1] one after the other yields the
    first [slice_offset n] blocks. *)
Lemma slices_prefix vec W n :
  n ≤ W →
  concat (map (slice vec W) (seq 0 n)) = take (slice_offset vec W n) vec.
Proof.
  induction n as [|n IH]; intros Hn.
  - by rewrite slice_offset_0, take_0.
  - rewrite seq_S, map_app, concat_app, IH by lia. simpl.
    rewrite app_nil_r, slice_offset_S. unfold slice.
    by rewrite take_take_drop.
Qed.

Lemma slices_cover vec W :
  0 < W → concat (map (slice vec W) (seq 0 W)) = vec.
Proof.
  intros HW. rewrite slices_prefix, slice_offset_end by lia.
  by rewrite take_ge.
Qed.
End split_facts.

Lemma exact_laws : DoubleLaws Z.
Proof. split; intros; simpl; lia. Qed.

#[global] Existing Instance exact_laws.

Lemma lookup_map {A B} (f : A → B) (l : list A) (i : nat) : map f l !! i = f <$> l !! i.
Proof. apply (list_lookup_fmap f l i). Qed.

Section for_each_facts.
Context {A S : Type}.
Implicit Types (body : A → S → option S) (l : list A).

Lemma for_each_app body l1 l2 s :
  for_each body (l1 ++ l2) s = s' ← for_each body l1 s; for_each body l2 s'.
Proof.
  revert s. induction l1 as [|a l1 IH]; intros s; simpl; [done|].
  destruct (body a s) as [s'|]; simpl; [apply IH|done].
Qed.

Lemma for_each_ext body body' l s :
  (∀ a s, a ∈ l → body a s = body' a s) → for_each body l s = for_each body' l s.
Proof.
  revert s. induction l as [|a l IH]; intros s Hb; simpl; [done|].
  rewrite Hb by left. destruct (body' a s); simpl; [|done].
  apply IH. intros. apply Hb. by right.
Qed.

(** A loop over the indices [off .. off+n-1] of a vector is a loop over
    that segment of the vector. *)
Lemma for_each_indices {B} (g : B → S → option S) (vec : list B) off n s :
  off + n ≤ length vec →
  for_each (λ i s, b ← vec !! i; g b s) (seq off n) s
  = for_each g (take n (drop off vec)) s.
Proof.
  revert off s. induction n as [|n IH]; intros off s Hle; simpl; [done|].
  destruct (lookup_lt_is_Some_2 vec off ltac:(lia)) as [b Hb].
  rewrite Hb. simpl. rewrite (drop_S _ _ _ Hb). simpl.
  destruct (g b s) as [s'|]; simpl; [|done].
  apply IH. lia.
Qed.
End for_each_facts.

Section diffusion_local.
Import Adios Util Diffusion.
Context {double : Type} `{DoubleOps double}.
Implicit Types (b : EntityBin (double:=double)) (vec table : list double) (f : Field).

Lemma GET_in_range table k j :
  k < length table / NCOL → j < NCOL → k * NCOL + j < length table.
Proof.
  intros Hk Hj. pose proof (Nat.div_mod_eq (length table) NCOL). unfold NCOL in *. lia.
Qed.

Lemma acc_sum_app e rows1 rows2 init :
  acc_sum e (rows1 ++ rows2) init = acc_sum e rows2 (acc_sum e rows1 init).
Proof. unfold acc_sum. by rewrite fold_left_app. Qed.

Lemma zero_bins_len n : bins_len n (zero_bins n).
Proof. intros f. destruct f; simpl; apply length_replicate. Qed.

Lemma zero_bins_lookup n f e : e < n → bin f (zero_bins n) !! e = Some d_zero.
Proof. intros He. destruct f; simpl; by apply lookup_replicate_2. Qed.

Lemma bin_add_Some vec itri x :
  (0 ≤ itri < Z.of_nat (length vec))%Z →
  ∃ vec', bin_add vec itri x = Some vec' ∧ length vec' = length vec ∧
    ∀ e y, vec !! e = Some y →
      vec' !! e = Some (if decide (itri = Z.of_nat e) then d_add y x else y).
Proof.
  intros Hr. unfold bin_add.
  destruct (Z.ltb_spec itri 0) as [|_]; [lia|].
  destruct (lookup_lt_is_Some_2 vec (Z.to_nat itri) ltac:(lia)) as [y0 Hy0].
  rewrite Hy0. simpl. eexists. split; [done|]. split; [apply length_insert|].
  intros e y He. destruct (decide (itri = Z.of_nat e)) as [->|Hne].
  - rewrite Nat2Z.id in *. rewrite list_lookup_insert_eq by (by eapply lookup_lt_Some).
    congruence.
  - rewrite list_lookup_insert_ne by lia. done.
Qed.

Lemma bin_add_None vec itri x :
  ¬ (0 ≤ itri < Z.of_nat (length vec))%Z → bin_add vec itri x = None.
Proof.
  intros Hr. unfold bin_add.
  destruct (Z.ltb_spec itri 0) as [|Hge]; [done|].
  rewrite (lookup_ge_None_2 vec (Z.to_nat itri)) by lia. done.
Qed.

Lemma process_row_Some n table k b :
  bins_len n b →
  (0 ≤ d_to_int (GET table k 0) < Z.of_nat n)%Z →
  ∃ b', process_row table k b = Some b' ∧ bins_len n b' ∧
    ∀ f e y, bin f b !! e = Some y →
      bin f b' !! e = Some (acc_sum e [(d_to_int (GET table k 0), GET table k (col f))] y).
Proof.
  intros Hlen Hr. unfold process_row.
  set (itri := d_to_int (GET table k 0)) in *.
  assert (Hstep : ∀ f, ∃ vec', bin_add (bin f b) itri (GET table k (col f)) = Some vec' ∧
            length vec' = n ∧ ∀ e y, bin f b !! e = Some y →
              vec' !! e = Some (acc_sum e [(itri, GET table k (col f))] y)).
  { intros f. destruct (bin_add_Some (bin f b) itri (GET table k (col f)))
      as (vec' & Heq & Hl & Hlk); [rewrite Hlen; lia|].
    exists vec'. split; [done|]. split; [by rewrite Hl, Hlen|].
    intros e y Hy. rewrite (Hlk e y Hy). simpl.
    destruct (decide (itri = Z.of_nat e)); done. }
  pose proof (Hstep F_i_dr_avg) as (a1 & E1 & ? & ?).
  pose proof (Hstep F_i_dr_squared_average) as (a2 & E2 & ? & ?).
  pose proof (Hstep F_i_dE_avg) as (a3 & E3 & ? & ?).
  pose proof (Hstep F_i_dE_squared_average) as (a4 & E4 & ? & ?).
  pose proof (Hstep F_i_marker_den) as (a5 & E5 & ? & ?).
  pose proof (Hstep F_e_dr_avg) as (a6 & E6 & ? & ?).
  pose proof (Hstep F_e_dr_squared_average) as (a7 & E7 & ? & ?).
  pose proof (Hstep F_e_dE_avg) as (a8 & E8 & ? & ?).
  pose proof (Hstep F_e_dE_squared_average) as (a9 & E9 & ? & ?).
  pose proof (Hstep F_e_marker_den) as (a10 & E10 & ? & ?).
  simpl in E1, E2, E3, E4, E5, E6, E7, E8, E9, E10.
  rewrite E1, E2, E3, E4, E5, E6, E7, E8, E9, E10.
  simpl. eexists. split; [done|]. split.
  - intros f. destruct f; simpl; assumption.
  - intros f. destruct f; simpl; auto.
Qed.

Lemma process_row_None n table k b :
  bins_len n b →
  ¬ (0 ≤ d_to_int (GET table k 0) < Z.of_nat n)%Z →
  process_row table k b = None.
Proof.
  intros Hlen Hr. unfold process_row.
  assert (Hn : bin_add (i_dr_avg b) (d_to_int (GET table k 0)) (GET table k 1) = None).
  { apply bin_add_None. change (i_dr_avg b) with (bin F_i_dr_avg b). by rewrite Hlen. }
  by rewrite Hn.
Qed.

(** The loop over rows, for any list of row indices. *)
Lemma process_rows_Some n table ks b :
  bins_len n b →
  Forall (λ k, (0 ≤ d_to_int (GET table k 0) < Z.of_nat n)%Z) ks →
  ∃ b', for_each (process_row table) ks b = Some b' ∧ bins_len n b' ∧
    ∀ f e y, bin f b !! e = Some y →
      bin f b' !! e =
      Some (acc_sum e (map (λ k, (d_to_int (GET table k 0), GET table k (col f))) ks) y).
Proof.
  intros Hlen Hks. revert b Hlen.
  induction Hks as [|k ks Hk _ IH]; intros b Hlen.
  - exists b. simpl. auto.
  - destruct (process_row_Some n table k b Hlen Hk) as (b1 & Heq & Hlen1 & Hlk1).
    destruct (IH b1 Hlen1) as (b' & Heq' & Hlen' & Hlk').
    exists b'. simpl. rewrite Heq. simpl. split; [done|]. split; [done|].
    intros f e y Hy. rewrite (Hlk' f e _ (Hlk1 f e y Hy)). done.
Qed.

Lemma process_table_Some n table b :
  bins_len n b →
  Forall (λ row, (0 ≤ row.1 < Z.of_nat n)%Z) (table_rows F_i_dr_avg table) →
  ∃ b', process_table table b = Some b' ∧ bins_len n b' ∧
    ∀ f e y, bin f b !! e = Some y →
      bin f b' !! e = Some (acc_sum e (table_rows f table) y).
Proof.
  intros Hlen Hids. apply process_rows_Some; [done|].
  unfold table_rows in Hids. by rewrite Forall_map in Hids.
Qed.
End diffusion_local.

Section ncount_facts.
Import Adios.
Local Open Scope Z_scope.

Lemma to_int32_mod z : to_int32 (z mod 2 ^ 32) = to_int32 z.
Proof. unfold to_int32. by rewrite Zplus_mod_idemp_l. Qed.

Lemma to_int32_small z : - 2 ^ 31 ≤ z < 2 ^ 31 → to_int32 z = z.
Proof. intros Hz. unfold to_int32. rewrite Z.mod_small; lia. Qed.

Lemma to_int32_congr x y : x mod 2 ^ 32 = y mod 2 ^ 32 → to_int32 x = to_int32 y.
Proof. intros Heq. by rewrite <- (to_int32_mod x), <- (to_int32_mod y), Heq. Qed.

Lemma to_int32_mod32 z : to_int32 z mod 2 ^ 32 = z mod 2 ^ 32.
Proof.
  unfold to_int32. rewrite Zminus_mod_idemp_l.
  f_equal. lia.
Qed.

Lemma mod64_mod32 z : (z mod 2 ^ 64) mod 2 ^ 32 = z mod 2 ^ 32.
Proof.
  apply Z.mod_mod_divide. exists (2 ^ 32). lia.
Qed.

(** One [ncount *= d] keeps the low 32 bits of the exact product. *)
Lemma ncount_mul_step a d :
  to_int32 ((to_int32 a mod 2 ^ 64) * d mod 2 ^ 64) = to_int32 (a * d).
Proof.
  apply to_int32_congr. rewrite mod64_mod32.
  rewrite Z.mul_mod by lia. rewrite mod64_mod32, to_int32_mod32.
  by rewrite <- Z.mul_mod by lia.
Qed.

Lemma ncount_fold count a :
  fold_left (λ ncount d, to_int32 ((ncount mod 2 ^ 64) * d mod 2 ^ 64)) count (to_int32 a)
  = to_int32 (fold_left Z.mul count a).
Proof.
  revert a. induction count as [|d count IH]; intros a; simpl; [done|].
  by rewrite ncount_mul_step, IH.
Qed.

Lemma block_ncount_exact count :
  0 ≤ dims_product count < 2 ^ 31 → block_ncount count = dims_product count.
Proof.
  intros Hp. unfold block_ncount, dims_product in *.
  change 1 with (to_int32 1) at 1. rewrite ncount_fold.
  apply to_int32_small. lia.
Qed.
End ncount_facts.

Section diffusion_blocks.
Import Adios Util Diffusion.
Context {double : Type} `{DoubleOps double}.
Implicit Types (d : Diffusion.t (double:=double)) (f : Field).
Implicit Types (block : Block (double:=double)) (blocks : list (Block (double:=double))).

Lemma fetch_payload block : block_ok block → fetch block = payload block.
Proof.
  intros [Hp Hlen]. unfold fetch. rewrite block_ncount_exact by done.
  destruct (Z.ltb_spec 0 (dims_product (Count block))) as [|Hle]; [done|].
  symmetry. apply nil_length_inv. lia.
Qed.

Lemma blocks_rows_cons f block blocks :
  blocks_rows f (block :: blocks) = table_rows f (payload block) ++ blocks_rows f blocks.
Proof. done. Qed.

Lemma blocks_rows_concat f (bss : list (list (Block (double:=double)))) :
  blocks_rows f (concat bss) = concat (map (blocks_rows f) bss).
Proof.
  induction bss as [|bs bss IH]; simpl; [done|].
  unfold blocks_rows in *. by rewrite map_app, concat_app, IH.
Qed.

Lemma ids_in_range_cons n block blocks :
  ids_in_range n (block :: blocks) ↔
  Forall (λ row, (0 ≤ row.1 < Z.of_nat n)%Z) (table_rows F_i_dr_avg (payload block))
  ∧ ids_in_range n blocks.
Proof. unfold ids_in_range. rewrite blocks_rows_cons. apply Forall_app. Qed.

Lemma ids_in_range_sublist n blocks blocks' :
  blocks' `sublist_of` blocks → ids_in_range n blocks → ids_in_range n blocks'.
Proof.
  induction 1 as [|block l1 l2 _ IH|block l1 l2 _ IH]; [done|..].
  - rewrite !ids_in_range_cons. tauto.
  - rewrite ids_in_range_cons. tauto.
Qed.

Lemma process_block_Some n block d :
  block_ok block →
  Forall (λ row, (0 ≤ row.1 < Z.of_nat n)%Z) (table_rows F_i_dr_avg (payload block)) →
  bins_len n (bins d) →
  ∃ d', process_block block d = Some d' ∧ same_config d d' ∧ bins_len n (bins d') ∧
    ∀ f e y, bin f (bins d) !! e = Some y →
      bin f (bins d') !! e = Some (acc_sum e (table_rows f (payload block)) y).
Proof.
  intros Hok Hids Hlen. unfold process_block. rewrite (fetch_payload _ Hok).
  set (d1 := if (0 <? block_ncount (Count block))%Z then _ else d).
  assert (Hd1 : bins d1 = bins d ∧ same_config d d1).
  { unfold d1. destruct (0 <? _)%Z; done. }
  destruct Hd1 as [Hb1 Hc1]. rewrite Hb1.
  destruct (process_table_Some n (payload block) (bins d) Hlen Hids) as (b' & -> & Hlen' & Hlk).
  simpl. eexists. split; [done|]. split; [|done].
  destruct Hc1 as (? & ? & ? & ? & ?). done.
Qed.

Lemma process_blocks_Some n blocks d :
  Forall block_ok blocks → ids_in_range n blocks → bins_len n (bins d) →
  ∃ d', for_each process_block blocks d = Some d' ∧ same_config d d' ∧
    bins_len n (bins d') ∧
    ∀ f e y, bin f (bins d) !! e = Some y →
      bin f (bins d') !! e = Some (acc_sum e (blocks_rows f blocks) y).
Proof.
  intros Hok. revert d. induction Hok as [|block blocks Hb _ IH]; intros d Hids Hlen.
  - exists d. by repeat split.
  - apply ids_in_range_cons in Hids as [Hids1 Hids2].
    destruct (process_block_Some n block d Hb Hids1 Hlen) as (d1 & Heq & Hc1 & Hlen1 & Hlk1).
    destruct (IH d1 Hids2 Hlen1) as (d' & Heq' & Hc' & Hlen' & Hlk').
    exists d'. simpl. rewrite Heq. simpl. split; [done|]. split.
    { destruct Hc1 as (? & ? & ? & ? & ?), Hc' as (? & ? & ? & ? & ?).
      repeat split; congruence. }
    split; [done|]. intros f e y Hy.
    rewrite (Hlk' f e _ (Hlk1 f e y Hy)), blocks_rows_cons, acc_sum_app. done.
Qed.
End diffusion_blocks.

Section diffusion_world.
Import Adios Util Diffusion.
Context {double : Type} `{DoubleOps double}.
Implicit Types (d : Diffusion.t (double:=double)) (w : list (Diffusion.t (double:=double))).
Implicit Types (f : Field) (blocks : list (Block (double:=double))).

Lemma slice_sublist {T} (vec : list T) W r : Util.slice vec W r `sublist_of` vec.
Proof.
  unfold Util.slice. etrans; [apply sublist_take|apply sublist_drop].
Qed.

Lemma slice_Forall {T} (P : T → Prop) (vec : list T) W r :
  Forall P vec → Forall P (Util.slice vec W r).
Proof. intros HP. unfold Util.slice. by apply Forall_take, Forall_drop. Qed.

Lemma step_local_OK W n r blocks d :
  rank d = r → comm_size d = W → ntriangle d = n → r < W →
  Forall block_ok blocks → ids_in_range n blocks →
  ∃ d', step_local OK blocks d = Some d' ∧ same_config d d' ∧ bins_len n (bins d') ∧
    ∀ f e, e < n →
      bin f (bins d') !! e = Some (acc_sum e (blocks_rows f (Util.slice blocks W r)) d_zero).
Proof.
  intros Hr HW Hn Hlt Hok Hids. unfold step_local.
  set (d1 := reset (emit _ d)).
  assert (Hc1 : same_config d d1) by done.
  assert (Hb1 : bins d1 = zero_bins n) by (by rewrite <- Hn).
  destruct Hc1 as (Hr1 & HW1 & Hn1 & Hi1 & Hf1).
  rewrite HW1, Hr1, HW, Hr.
  rewrite for_each_indices by (apply slice_end_le; lia).
  change (take _ (drop _ blocks)) with (Util.slice blocks W r).
  destruct (process_blocks_Some n (Util.slice blocks W r) d1) as (d2 & -> & Hc2 & Hlen2 & Hlk2).
  { by apply slice_Forall. }
  { eapply ids_in_range_sublist; [apply slice_sublist|done]. }
  { rewrite Hb1. apply zero_bins_len. }
  simpl. eexists. split; [done|]. split; [|split; [done|]].
  - destruct Hc2 as (? & ? & ? & ? & ?). repeat split; simpl; congruence.
  - intros f e He. simpl. apply Hlk2. rewrite Hb1. by apply zero_bins_lookup.
Qed.

Lemma step_local_not_OK status blocks d :
  status ≠ OK → step_local status blocks d = Some (emit [ReaderBeginStep status; DupBeginStep] d).
Proof. by destruct status. Qed.

(** Applying a process-wise operation that succeeds on every rank. *)
Lemma mapM_indexed {A B} (g : A → option B) (P : nat → B → Prop) (l : list A) :
  (∀ r a, l !! r = Some a → ∃ b, g a = Some b ∧ P r b) →
  ∃ k, mapM g l = Some k ∧ length k = length l ∧ ∀ r b, k !! r = Some b → P r b.
Proof.
  revert P. induction l as [|a l IH]; intros P Hall.
  - exists []. by repeat split.
  - destruct (Hall 0 a eq_refl) as (b & Hb & HP).
    destruct (IH (λ r, P (S r))) as (k & Hk & Hlen & HPk).
    { intros r a' Ha'. apply (Hall (S r) a' Ha'). }
    exists (b :: k). simpl. rewrite Hb. simpl. rewrite Hk. simpl.
    split; [done|]. split; [by rewrite Hlen|].
    intros [|r] b' Hb'; simpl in Hb'; [by simplify_eq|by apply HPk].
Qed.

Lemma MPI_Reduce_sum_Some n (bufs : list (list double)) :
  bufs ≠ [] → Forall (λ v, length v = n) bufs →
  ∃ v, MPI_Reduce_sum bufs = Some v ∧ length v = n ∧
    ∀ e ys, Forall2 (λ buf y, buf !! e = Some y) bufs ys → v !! e = Some (sum_ranks ys).
Proof.
  intros Hne Hall. destruct bufs as [|v0 rest]; [done|]. clear Hne.
  apply Forall_cons_1 in Hall as [Hv0 Hrest]. unfold MPI_Reduce_sum.
  assert (Hgen : ∀ acc, length acc = n →
    ∃ v, for_each (λ v acc, if decide (length v = length acc)
                            then Some (zip_with d_add acc v) else None) rest acc = Some v ∧
      length v = n ∧
      ∀ e y0 ys, acc !! e = Some y0 → Forall2 (λ buf y, buf !! e = Some y) rest ys →
        v !! e = Some (fold_left d_add ys y0)).
  { clear v0 Hv0. induction Hrest as [|v1 rest Hv1 _ IH]; intros acc Hacc.
    - exists acc. simpl. split; [done|]. split; [done|].
      intros e y0 ys Hy0 Hys. by apply Forall2_nil_inv_l in Hys as ->.
    - simpl. rewrite decide_True by congruence. simpl.
      destruct (IH (zip_with d_add acc v1)) as (v & -> & Hlen & Hlk).
      { rewrite length_zip_with. lia. }
      exists v. split; [done|]. split; [done|].
      intros e y0 ys Hy0 Hys. apply Forall2_cons_inv_l in Hys as (y1 & ys' & Hy1 & Hys' & ->).
      simpl. apply Hlk; [|done]. rewrite lookup_zip_with, Hy0. simpl. by rewrite Hy1. }
  destruct (Hgen v0 Hv0) as (v & -> & Hlen & Hlk).
  exists v. split; [done|]. split; [done|].
  intros e ys Hys. apply Forall2_cons_inv_l in Hys as (y0 & ys' & Hy0 & Hys' & ->).
  simpl. by apply Hlk.
Qed.
End diffusion_world.

Section diffusion_sum.
Import Adios Util Diffusion.
Context {double : Type} `{DoubleLaws double}.
Implicit Types (d : Diffusion.t (double:=double)) (w : list (Diffusion.t (double:=double))).
Implicit Types (f : Field) (blocks : list (Block (double:=double))).

Lemma acc_sum_init e rows y : acc_sum e rows y = d_add y (acc_sum e rows d_zero).
Proof.
  revert y. induction rows as [|row rows IH]; intros y; simpl.
  - by rewrite d_add_0_r.
  - destruct (decide (row.1 = Z.of_nat e)); [|apply IH].
    rewrite IH, (IH (d_add d_zero _)), d_add_0_l. symmetry. apply d_add_assoc.
Qed.

Lemma fold_ranks_acc {A} e (R : A → list (Z * double)) (rs : list A) y :
  fold_left d_add (map (λ r, acc_sum e (R r) d_zero) rs) y
  = d_add y (acc_sum e (concat (map R rs)) d_zero).
Proof.
  revert y. induction rs as [|r rs IH]; intros y; simpl.
  - by rewrite d_add_0_r.
  - rewrite IH, acc_sum_app, (acc_sum_init _ _ (acc_sum e (R r) d_zero)).
    by rewrite d_add_assoc.
Qed.

(** Summing the per-rank partial sums in rank order gives the sum over
    the rows of all ranks. *)
Lemma sum_ranks_acc {A} e (R : A → list (Z * double)) (rs : list A) :
  sum_ranks (map (λ r, acc_sum e (R r) d_zero) rs) = acc_sum e (concat (map R rs)) d_zero.
Proof.
  destruct rs as [|r rs]; simpl; [done|].
  by rewrite fold_ranks_acc, acc_sum_app, (acc_sum_init _ _ (acc_sum e (R r) d_zero)).
Qed.
End diffusion_sum.

Section diffusion_reduce.
Import Adios Util Diffusion.
Context {double : Type} `{DoubleOps double}.
Implicit Types (d : Diffusion.t (double:=double)) (w : list (Diffusion.t (double:=double))).
Implicit Types (f : Field) (blocks : list (Block (double:=double))).

Lemma reduce_bins_Some (Q : Field → list double → Prop) (bs : list EntityBin) :
  (∀ f, ∃ v, MPI_Reduce_sum (map (bin f) bs) = Some v ∧ Q f v) →
  ∃ b, reduce_bins bs = Some b ∧ ∀ f, Q f (bin f b).
Proof.
  intros Hf. unfold reduce_bins.
  pose proof (Hf F_i_dr_avg) as (a1 & E1 & ?).
  pose proof (Hf F_i_dr_squared_average) as (a2 & E2 & ?).
  pose proof (Hf F_i_dE_avg) as (a3 & E3 & ?).
  pose proof (Hf F_i_dE_squared_average) as (a4 & E4 & ?).
  pose proof (Hf F_i_marker_den) as (a5 & E5 & ?).
  pose proof (Hf F_e_dr_avg) as (a6 & E6 & ?).
  pose proof (Hf F_e_dr_squared_average) as (a7 & E7 & ?).
  pose proof (Hf F_e_dE_avg) as (a8 & E8 & ?).
  pose proof (Hf F_e_dE_squared_average) as (a9 & E9 & ?).
  pose proof (Hf F_e_marker_den) as (a10 & E10 & ?).
  change (bin F_i_dr_avg) with (i_dr_avg (double:=double)) in E1.
  change (bin F_i_dr_squared_average) with (i_dr_squared_average (double:=double)) in E2.
  change (bin F_i_dE_avg) with (i_dE_avg (double:=double)) in E3.
  change (bin F_i_dE_squared_average) with (i_dE_squared_average (double:=double)) in E4.
  change (bin F_i_marker_den) with (i_marker_den (double:=double)) in E5.
  change (bin F_e_dr_avg) with (e_dr_avg (double:=double)) in E6.
  change (bin F_e_dr_squared_average) with (e_dr_squared_average (double:=double)) in E7.
  change (bin F_e_dE_avg) with (e_dE_avg (double:=double)) in E8.
  change (bin F_e_dE_squared_average) with (e_dE_squared_average (double:=double)) in E9.
  change (bin F_e_marker_den) with (e_marker_den (double:=double)) in E10.
  rewrite E1, E2, E3, E4, E5, E6, E7, E8, E9, E10. simpl.
  eexists. split; [done|]. intros f. destruct f; simpl; assumption.
Qed.

Lemma step_reduce_bins_root reduced d :
  rank d = 0 → bins (step_reduce reduced d) = reduced.
Proof. intros Hr. unfold step_reduce, output. simpl. rewrite Hr. simpl. by destruct (first d). Qed.

Lemma step_reduce_rank reduced d : rank (step_reduce reduced d) = rank d.
Proof.
  unfold step_reduce, output. simpl. destruct (decide (rank d = 0)); [|done].
  simpl. by destruct (first d).
Qed.

(** The local parts and the reductions of a step succeed when every block
    is well formed and names triangles of the mesh; the root then holds,
    per field and entity, the rank-ordered sum of the per-rank sums. *)
Lemma step_OK_grouped W n blocks w :
  0 < W → world_ok W n w → Forall block_ok blocks → ids_in_range n blocks →
  ∃ w' d0, step OK blocks w = Some w' ∧ w' !! 0 = Some d0 ∧ rank d0 = 0 ∧
    ∀ f e, e < n →
      bin f (bins d0) !! e =
      Some (sum_ranks (map (λ r, acc_sum e (blocks_rows f (Util.slice blocks W r)) d_zero)
                           (seq 0 W))).
Proof.
  intros HW [Hlen Hw] Hok Hids. unfold step.
  destruct (mapM_indexed (step_local OK blocks)
    (λ r d', rank d' = r ∧ bins_len n (bins d') ∧ ∀ f e, e < n →
       bin f (bins d') !! e = Some (acc_sum e (blocks_rows f (Util.slice blocks W r)) d_zero)) w)
    as (w1 & -> & Hlen1 & Hw1).
  { intros r d Hd. destruct (Hw r d Hd) as (Hr & Hc & Hn).
    destruct (step_local_OK W n r blocks d) as (d' & Heq & Hcfg & Hbl & Hlk); try done.
    { rewrite <- Hlen. by eapply lookup_lt_Some. }
    exists d'. split; [done|]. destruct Hcfg as (? & _). split; [congruence|done]. }
  simpl.
  destruct (reduce_bins_Some (λ f v, ∀ e, e < n → v !! e =
      Some (sum_ranks (map (λ r, acc_sum e (blocks_rows f (Util.slice blocks W r)) d_zero)
                           (seq 0 W)))) (map bins w1)) as (reduced & -> & Hred).
  { intros f. rewrite map_map.
    destruct (MPI_Reduce_sum_Some n (map (λ d, bin f (bins d)) w1)) as (v & Hv & Hvl & Hvs).
    { intros Hnil. apply (f_equal length) in Hnil. rewrite length_map in Hnil.
      simpl in Hnil. lia. }
    { apply Forall_map, Forall_lookup. intros r d' Hd'.
      destruct (Hw1 r d' Hd') as (_ & Hbl & _). apply Hbl. }
    exists v. split; [done|]. intros e He. apply Hvs.
    apply Forall2_same_length_lookup_2.
    { rewrite !length_map, length_seq. lia. }
    intros r buf y Hbuf Hy. rewrite lookup_map in Hbuf. rewrite lookup_map in Hy.
    destruct (w1 !! r) as [d'|] eqn:Hd'; [|done]. simpl in Hbuf.
    destruct (seq 0 W !! r) as [r'|] eqn:Hr'; [|done]. simpl in Hy.
    apply lookup_seq in Hr' as [-> _]. simplify_eq. simpl.
    destruct (Hw1 r d' Hd') as (_ & _ & Hlk). by apply Hlk. }
  simpl.
  destruct (lookup_lt_is_Some_2 w1 0 ltac:(lia)) as [d1 Hd1].
  destruct (Hw1 0 d1 Hd1) as (Hr1 & _).
  exists (map (step_reduce reduced) w1), (step_reduce reduced d1).
  split; [done|]. split; [by rewrite lookup_map, Hd1|].
  split; [by rewrite step_reduce_rank|].
  intros f e He. rewrite step_reduce_bins_root by done. by apply Hred.
Qed.
End diffusion_reduce.

(** ** The claims about the diffusion pipeline *)

Section diffusion_examples.
Import Adios Util Diffusion.

Example ex_step_two_workers :
  (λ w', (λ d, map (λ f, bin f (bins d)) [F_i_dr_avg; F_e_marker_den]) <$> w' !! 0)
    <$> step OK ex_blocks (init_world 2 3)
  = Some (Some [[1; 110; 1000]; [10; 1100; 10000]]%Z).
Proof. vm_compute. reflexivity. Qed.

Lemma init_world_ok W n : world_ok (double:=Z) W n (init_world W n).
Proof.
  unfold init_world. split; [by rewrite length_map, length_seq|].
  intros r d Hd. rewrite lookup_map in Hd.
  destruct (seq 0 W !! r) as [r'|] eqn:Hr; [|done].
  apply lookup_seq in Hr as [-> _]. simpl in Hd. injection Hd as <-. done.
Qed.

Lemma ex_blocks_ok : Forall block_ok ex_blocks.
Proof. repeat constructor; unfold dims_product; simpl; lia. Qed.

Lemma ex_blocks_ids : ids_in_range 3 ex_blocks.
Proof. unfold ids_in_range. apply (bool_decide_unpack _). by vm_compute. Qed.
End diffusion_examples.



(** ** The claim about the block partitioner *)

Section split_claim.
Import Util.
Context {T : Type}.
Implicit Types (vec : list T) (W r : nat).

Lemma slice_owner_exists vec W n i :
  i < slice_offset vec W n →
  ∃ r, r < n ∧ slice_offset vec W r ≤ i < slice_offset vec W r + slice_count vec W r.
Proof.
  induction n as [|n IH]; intros Hi.
  - rewrite slice_offset_0 in Hi. lia.
  - destruct (decide (i < slice_offset vec W n)) as [Hlt|Hge].
    + destruct (IH Hlt) as (r & ? & ?). exists r. split; [lia|done].
    + exists n. rewrite <- slice_offset_S. split; lia.
Qed.

Lemma slice_owner_unique vec W r r' i :
  slice_offset vec W r ≤ i < slice_offset vec W r + slice_count vec W r →
  slice_offset vec W r' ≤ i < slice_offset vec W r' + slice_count vec W r' →
  r = r'.
Proof.
  rewrite <- !slice_offset_S. intros Hr Hr'.
  destruct (Nat.lt_trichotomy r r') as [Hlt|[->|Hlt]]; [|done|].
  - pose proof (slice_offset_mono vec W (S r) r' ltac:(lia)). lia.
  - pose proof (slice_offset_mono vec W (S r') r ltac:(lia)). lia.
Qed.

Lemma slice_count_eq vec W r :
  slice_count vec W r = length vec / W + (if r <? length vec mod W then 1 else 0).
Proof. done. Qed.
End split_claim.

Example split_10_3 :
  map (Util.split_vector (seq 0 10) 3) [0; 1; 2] = [(0, 4); (4, 3); (7, 3)].
Proof. reflexivity. Qed.

Example split_2_4 :
  map (Util.split_vector (seq 0 2) 4) [0; 1; 2; 3] = [(0, 1); (1, 1); (2, 0); (2, 0)].
Proof. reflexivity. Qed.

(** C2: for every block count [B = length vec] and worker count [W >= 1],
    the ranges (offset, count) of ranks [0 .. W-1] start at 0, each begins
    where the previous one ends, the last ends at [B], every block index
    below [B] lies in the range of exactly one rank, the lengths are
    [B / W] plus one for the first [B mod W] ranks (so they differ by at
    most one and never grow with the rank), and when [B < W] the ranks from
    [B] on get the empty range. *)
Theorem split_vector_partition {T : Type} (vec : list T) (W : nat) :
  0 < W →
  Util.slice_offset vec W 0 = 0 ∧
  (∀ r, S r < W →
     Util.slice_offset vec W (S r) = Util.slice_offset vec W r + Util.slice_count vec W r) ∧
  Util.slice_offset vec W (W - 1) + Util.slice_count vec W (W - 1) = length vec ∧
  (∀ i, i < length vec →
     ∃ r, r < W ∧
       Util.slice_offset vec W r ≤ i < Util.slice_offset vec W r + Util.slice_count vec W r ∧
       ∀ r', r' < W →
         Util.slice_offset vec W r' ≤ i < Util.slice_offset vec W r' + Util.slice_count vec W r' →
         r' = r) ∧
  (∀ r i, r < W →
     Util.slice_offset vec W r ≤ i < Util.slice_offset vec W r + Util.slice_count vec W r →
     i < length vec) ∧
  (∀ r, r < W →
     Util.slice_count vec W r = length vec / W + (if r <? length vec mod W then 1 else 0)) ∧
  (∀ r r', r < W → r' < W → Util.slice_count vec W r ≤ Util.slice_count vec W r' + 1) ∧
  (∀ r r', r ≤ r' → r' < W → Util.slice_count vec W r' ≤ Util.slice_count vec W r) ∧
  (length vec < W → ∀ r, length vec ≤ r → r < W → Util.slice_count vec W r = 0) ∧
  concat (map (Util.slice vec W) (seq 0 W)) = vec.
Proof.
  intros HW. repeat apply conj.
  - apply slice_offset_0.
  - intros r _. apply slice_offset_S.
  - rewrite <- slice_offset_S. replace (S (W - 1)) with W by lia.
    by apply slice_offset_end.
  - intros i Hi. rewrite <- (slice_offset_end vec W HW) in Hi.
    destruct (slice_owner_exists vec W W i Hi) as (r & Hr & Hin).
    exists r. repeat split; try lia.
    intros r' _ Hin'. by eapply slice_owner_unique.
  - intros r i Hr Hin. pose proof (slice_end_le vec W r Hr). lia.
  - intros r _. apply slice_count_eq.
  - intros r r' _ _. rewrite !slice_count_eq.
    destruct (r <? _), (r' <? _); lia.
  - intros r r' Hle _. rewrite !slice_count_eq.
    destruct (Nat.ltb_spec r (length vec mod W)), (Nat.ltb_spec r' (length vec mod W)); lia.
  - intros HB r Hr _. rewrite slice_count_eq.
    rewrite Nat.div_small, Nat.mod_small by lia.
    destruct (Nat.ltb_spec r (length vec)); lia.
  - by apply slices_cover.
Qed.

Lemma split_vector_partition_witness :
  Util.slice_offset (seq 0 10) 3 0 = 0 ∧
  Util.slice_offset (seq 0 10) 3 2 + Util.slice_count (seq 0 10) 3 2 = 10 ∧
  concat (map (Util.slice (seq 0 10) 3) (seq 0 3)) = seq 0 10.
Proof.
  pose proof (split_vector_partition (seq 0 10) 3 ltac:(lia)) as (H0 & _ & Hend & _ & _ & _ & _ & _ & _ & Hcat).
  exact (conj H0 (conj Hend Hcat)).
Defined.

(** ** What a step leaves alone, and what it appends to the trace *)

Section diffusion_frames.
Import Adios Util Diffusion.
Context {double : Type} `{DoubleOps double}.
Implicit Types (d : Diffusion.t (double:=double)) (w : list (Diffusion.t (double:=double))).
Implicit Types (f : Field) (blocks : list (Block (double:=double))).

Lemma same_config_refl d : same_config d d.
Proof. by repeat split. Qed.

Lemma same_config_trans d1 d2 d3 : same_config d1 d2 → same_config d2 d3 → same_config d1 d3.
Proof. intros (? & ? & ? & ? & ?) (? & ? & ? & ? & ?). repeat split; congruence. Qed.

Lemma process_block_frame block d d' :
  process_block block d = Some d' →
  same_config d d' ∧
  ∃ evs, trace d' = trace d ++ evs ∧ Forall (λ ev, is_fetch_event ev = true) evs.
Proof.
  unfold process_block. intros Hpb.
  destruct (process_table _ _) as [b|] eqn:Hb; [|done]. simpl in Hpb.
  injection Hpb as <-. destruct (0 <? block_ncount (Count block))%Z; simpl.
  - split; [done|]. eexists. split; [done|]. by repeat constructor.
  - split; [done|]. exists []. by rewrite app_nil_r.
Qed.

Lemma process_block_bins block d :
  bins <$> process_block block d = process_table (fetch block) (bins d).
Proof.
  unfold process_block.
  assert (Hb : ∀ evs, bins (if (0 <? block_ncount (Count block))%Z then emit evs d else d) = bins d)
    by (intros; by destruct (0 <? _)%Z).
  rewrite Hb. by destruct (process_table _ _).
Qed.

Lemma process_blocks_frame blocks (idxs : list nat) d d' :
  for_each (λ i d, block ← blocks !! i; process_block block d) idxs d = Some d' →
  same_config d d' ∧
  ∃ evs, trace d' = trace d ++ evs ∧ Forall (λ ev, is_fetch_event ev = true) evs.
Proof.
  revert d. induction idxs as [|i idxs IH]; intros d Hfe; simpl in Hfe.
  - injection Hfe as <-. split; [apply same_config_refl|].
    exists []. by rewrite app_nil_r.
  - destruct (blocks !! i) as [block|]; [|done]. simpl in Hfe.
    destruct (process_block block d) as [d1|] eqn:Hd1; [|done]. simpl in Hfe.
    apply process_block_frame in Hd1 as (Hc1 & evs1 & Ht1 & Hf1).
    apply IH in Hfe as (Hc & evs & Ht & Hf).
    split; [by eapply same_config_trans|].
    exists (evs1 ++ evs). rewrite Ht, Ht1, app_assoc. split; [done|].
    by apply Forall_app.
Qed.

Lemma process_blocks_bins blocks (idxs : list nat) d :
  bins <$> for_each (λ i d, block ← blocks !! i; process_block block d) idxs d
  = for_each (λ i b, block ← blocks !! i; process_table (fetch block) b) idxs (bins d).
Proof.
  revert d. induction idxs as [|i idxs IH]; intros d; simpl; [done|].
  destruct (blocks !! i) as [block|]; [|done]. simpl.
  pose proof (process_block_bins block d) as Hb.
  destruct (process_block block d) as [d1|]; simpl in *.
  - rewrite <- Hb. simpl. apply IH.
  - by rewrite <- Hb.
Qed.

Lemma step_local_frame status blocks d d' :
  step_local status blocks d = Some d' →
  same_config d d' ∧
  ∃ mid, trace d' = trace d ++ local_events status mid ∧
         Forall (λ ev, is_fetch_event ev = true) mid.
Proof.
  unfold step_local. intros Hsl.
  destruct (decide (status = OK)) as [->|Hne].
  - destruct (for_each _ _ _) as [d2|] eqn:Hd2; [|done]. simpl in Hsl.
    injection Hsl as <-.
    apply process_blocks_frame in Hd2 as (Hc & mid & Ht & Hf).
    split.
    + destruct Hc as (? & ? & ? & ? & ?). by repeat split.
    + exists mid. split; [|done]. simpl. rewrite Ht. simpl.
      by rewrite <- !app_assoc.
  - assert (d' = emit [ReaderBeginStep status; DupBeginStep] d) as ->
      by (destruct status; congruence).
    split; [done|]. exists []. split; [|done]. by destruct status.
Qed.

Lemma step_local_bins blocks d :
  bins <$> step_local OK blocks d = local_bins blocks (cfg d).
Proof.
  unfold step_local, local_bins. simpl.
  pose proof (process_blocks_bins blocks
    (seq (split_vector blocks (comm_size d) (rank d)).1
         (split_vector blocks (comm_size d) (rank d)).2)
    (reset (emit [ReaderBeginStep OK; DupBeginStep] d))) as Hb.
  simpl in Hb. rewrite <- Hb. by destruct (for_each _ _ _).
Qed.
End diffusion_frames.

Section diffusion_step_frames.
Import Adios Util Diffusion.
Context {double : Type} `{DoubleOps double}.
Implicit Types (d : Diffusion.t (double:=double)) (w : list (Diffusion.t (double:=double))).
Implicit Types (f : Field) (blocks : list (Block (double:=double))).

Lemma output_spec d :
  trace (output d) =
    trace d ++ (if first d then declare_events (ntriangle d) else []) ++ write_events (bins d) ∧
  first (output d) = false ∧ bins (output d) = bins d ∧ cfg (output d) = cfg d ∧
  istep (output d) = istep d.
Proof.
  unfold output. destruct (first d) eqn:Hf; simpl.
  - by rewrite <- app_assoc.
  - by rewrite Hf.
Qed.

Lemma step_reduce_spec reduced d :
  cfg (step_reduce reduced d) = cfg d ∧
  istep (step_reduce reduced d) = (istep d + 1)%Z ∧
  first (step_reduce reduced d) = (if decide (rank d = 0) then false else first d) ∧
  bins (step_reduce reduced d) = (if decide (rank d = 0) then reduced else bins d) ∧
  trace (step_reduce reduced d) =
    trace d ++ reduce_events (first d) (rank d) (ntriangle d) (bins (step_reduce reduced d)).
Proof.
  unfold step_reduce, reduce_events. simpl.
  destruct (decide (rank d = 0)) as [Hr|Hr]; simpl.
  - destruct (output_spec (set_bins reduced (emit (map Reduce fields) d)))
      as (Ht & Hf & Hb & Hc & Hi).
    simpl in *. rewrite Ht, Hf, Hb, Hi. simpl. rewrite <- app_assoc.
    by repeat split.
  - done.
Qed.

Lemma mapM_total {A B} (g : A → B) (l : list A) : mapM (λ a, Some (g a)) l = Some (map g l).
Proof. induction l as [|a l IH]; simpl; [done|]. by rewrite IH. Qed.

Lemma step_not_OK status blocks w :
  status ≠ OK →
  step status blocks w = Some (map (emit [ReaderBeginStep status; DupBeginStep]) w).
Proof.
  intros Hne. unfold step.
  rewrite (mapM_ext _ (λ d, Some (emit [ReaderBeginStep status; DupBeginStep] d)))
    by (intros; by apply step_local_not_OK).
  rewrite mapM_total. by destruct status.
Qed.

Lemma step_frame status blocks w w' :
  step status blocks w = Some w' → Forall2 (step_rel status) w w'.
Proof.
  unfold step. intros Hstep.
  destruct (mapM _ w) as [w1|] eqn:Hw1; [|done]. simpl in Hstep.
  apply mapM_Some_1 in Hw1.
  destruct (decide (status = OK)) as [->|Hne].
  - destruct (reduce_bins _) as [reduced|]; [|done]. simpl in Hstep.
    injection Hstep as <-. apply Forall2_fmap_r.
    eapply Forall2_impl; [|exact Hw1]. intros d d1 Hd1.
    apply step_local_frame in Hd1 as ((Hr & Hc & Hn & Hi & Hf) & mid & Ht & Hmid).
    destruct (step_reduce_spec reduced d1) as (Hc' & Hi' & Hf' & Hb' & Ht').
    change (step_rel OK d (step_reduce reduced d1)). unfold step_rel. rewrite Hc', Hi', Hf', Ht', Ht, Hr, Hi, Hf, Hn.
    split; [unfold cfg; congruence|]. split; [done|]. split.
    { destruct (decide (rank d = 0)); [by rewrite decide_True|].
      rewrite decide_False; [done|]. by intros [_ ?]. }
    split; [done|]. exists mid. split; [done|].
    unfold step_events. by rewrite <- app_assoc.
  - assert (w' = w1) as -> by (destruct status; congruence).
    eapply Forall2_impl; [|exact Hw1]. intros d d1 Hd1. simpl in Hd1.
    rewrite step_local_not_OK in Hd1 by done. injection Hd1 as <-.
    unfold step_rel. simpl. rewrite decide_False by done.
    rewrite decide_False by (by intros [? _]).
    split; [done|]. split; [lia|]. split; [done|]. split; [done|].
    exists []. split; [done|].
    unfold step_events, local_events. destruct status; try done; by rewrite app_nil_r.
Qed.
End diffusion_step_frames.

Section diffusion_determinism.
Import Adios Util Diffusion.
Context {double : Type} `{DoubleOps double}.
Implicit Types (d : Diffusion.t (double:=double)) (w : list (Diffusion.t (double:=double))).
Implicit Types (blocks : list (Block (double:=double))).

Lemma mapM_local_bins blocks w :
  map bins <$> mapM (step_local OK blocks) w = mapM (local_bins blocks) (map cfg w).
Proof.
  induction w as [|d w IH]; [done|].
  change (mapM (step_local OK blocks) (d :: w))
    with (d' ← step_local OK blocks d; k ← mapM (step_local OK blocks) w; Some (d' :: k)).
  change (mapM (local_bins blocks) (map cfg (d :: w)))
    with (b ← local_bins blocks (cfg d); k ← mapM (local_bins blocks) (map cfg w); Some (b :: k)).
  rewrite <- IH, <- step_local_bins.
  destruct (step_local OK blocks d); simpl; [|done].
  by destruct (mapM (step_local OK blocks) w).
Qed.

Lemma step_cfg status blocks w w' :
  step status blocks w = Some w' → map cfg w' = map cfg w.
Proof.
  intros Hstep. apply step_frame in Hstep.
  induction Hstep as [|d d' w w' (Hc & _) _ IH]; simpl; [done|]. by rewrite Hc, IH.
Qed.

Lemma step_reduce_zip reduced w :
  map bins (map (step_reduce reduced) w)
  = zip_with (λ c b, if decide (c.1.1 = 0) then reduced else b) (map cfg w) (map bins w).
Proof.
  induction w as [|d w IH]; simpl; [done|]. rewrite <- IH.
  destruct (step_reduce_spec reduced d) as (_ & _ & _ & Hb & _).
  f_equal. exact Hb.
Qed.

(** The vectors after a Ready step are a function of the blocks and of the
    configuration of the processes: nothing of the state before the step
    enters them. *)
Lemma step_OK_bins blocks w :
  map bins <$> step OK blocks w = step_bins blocks (map cfg w).
Proof.
  unfold step, step_bins. rewrite <- mapM_local_bins.
  destruct (mapM (step_local OK blocks) w) as [w1|] eqn:Hw1; simpl; [|done].
  destruct (reduce_bins (map bins w1)) as [reduced|]; simpl; [|done].
  rewrite step_reduce_zip. do 2 f_equal.
  apply mapM_Some_1 in Hw1. clear -Hw1.
  induction Hw1 as [|d d1 w w1 Hd1 _ IH]; simpl; [done|]. rewrite IH. f_equal.
  apply step_local_frame in Hd1 as ((? & ? & ? & _) & _). unfold cfg. congruence.
Qed.
End diffusion_determinism.

(** C4: when [BeginStep] returns NotReady the step does, on every process,
    nothing but begin the reader step and the duplicate-writer step: the
    ten vectors keep the contents of the previous step, no reduction is
    called, nothing goes to the persisted output (neither a layout
    declaration nor a write, nor a put on the duplicate stream), and
    [istep] keeps its value. *)
Theorem diffusion_not_ready_is_inert {double : Type} `{DoubleOps double}
    (blocks : list Diffusion.Block) (w : list Diffusion.t) :
  ∃ w', Diffusion.step Adios.NotReady blocks w = Some w' ∧
    Forall2 (λ d d',
      Diffusion.bins d' = Diffusion.bins d ∧
      Diffusion.istep d' = Diffusion.istep d ∧
      Diffusion.first d' = Diffusion.first d ∧
      Diffusion.trace d' =
        Diffusion.trace d ++ [Diffusion.ReaderBeginStep Adios.NotReady; Diffusion.DupBeginStep] ∧
      (∀ ev, ev ∈ Diffusion.trace d' → ev ∈ Diffusion.trace d ∨
         ev = Diffusion.ReaderBeginStep Adios.NotReady ∨ ev = Diffusion.DupBeginStep)) w w'.
Proof.
  eexists. split; [by apply step_not_OK|].
  apply Forall2_fmap_r, Forall_Forall2_diag, Forall_forall. intros d _.
  simpl. repeat split; try done.
  intros ev [Hev|Hev]%elem_of_app; [by left|right].
  apply elem_of_cons in Hev as [->|Hev]; [by left|right].
  by apply list_elem_of_singleton in Hev.
Qed.

(** C6: two consecutive Ready steps on the same blocks give the same ten
    vectors on every process both times: each Ready step starts by
    resetting all ten vectors to zero, so whatever the vectors held before
    the step (the result of the previous step, or anything else) does not
    enter the result. *)
Theorem diffusion_reset_no_carry_over {double : Type} `{DoubleOps double}
    (blocks : list Diffusion.Block) (w w1 : list Diffusion.t) :
  Diffusion.step Adios.OK blocks w = Some w1 →
  (∃ w2, Diffusion.step Adios.OK blocks w1 = Some w2 ∧
         map Diffusion.bins w2 = map Diffusion.bins w1) ∧
  (∀ a, map cfg a = map cfg w →
        map Diffusion.bins <$> Diffusion.step Adios.OK blocks a = Some (map Diffusion.bins w1)).
Proof.
  intros Hstep.
  assert (Hany : ∀ a, map cfg a = map cfg w →
    map Diffusion.bins <$> Diffusion.step Adios.OK blocks a = Some (map Diffusion.bins w1)).
  { intros a Ha. by rewrite step_OK_bins, Ha, <- step_OK_bins, Hstep. }
  split; [|done].
  specialize (Hany w1 (step_cfg _ _ _ _ Hstep)).
  destruct (Diffusion.step Adios.OK blocks w1) as [w2|]; [|done].
  exists w2. split; [done|]. by injection Hany.
Qed.

Lemma diffusion_reset_no_carry_over_witness :
  ∃ w1 w2, Diffusion.step Adios.OK ex_blocks (Diffusion.init_world 2 3) = Some w1 ∧
    Diffusion.step Adios.OK ex_blocks w1 = Some w2 ∧
    map Diffusion.bins w2 = map Diffusion.bins w1.
Proof.
  destruct (step_OK_grouped 2 3 ex_blocks (Diffusion.init_world 2 3))
    as (w1 & _ & Hstep & _);
    [lia | apply init_world_ok | apply ex_blocks_ok | apply ex_blocks_ids |].
  destruct (diffusion_reset_no_carry_over ex_blocks _ w1 Hstep) as [(w2 & Hstep2 & Hbins) _].
  exists w1, w2. exact (conj Hstep (conj Hstep2 Hbins)).
Defined.

Section dup_stream.
Import Adios Diffusion.
Context {double : Type} `{DoubleOps double}.

Lemma filter_dup_fetch (mid : list (Event (double:=double))) :
  Forall (λ ev, is_fetch_event ev = true) mid →
  Forall is_DupPut (filter (λ ev, is_dup_event ev = true) mid).
Proof.
  induction 1 as [|ev mid Hev _ IH]; [constructor|].
  destruct ev; simpl in Hev; try discriminate Hev.
  - by rewrite filter_cons_False by (simpl; congruence).
  - by rewrite filter_cons_False by (simpl; congruence).
  - rewrite filter_cons_True by done. by constructor.
Qed.

Lemma filter_dup_reduce fst r n (b : EntityBin (double:=double)) :
  filter (λ ev, is_dup_event ev = true) (reduce_events fst r n b) = [].
Proof. unfold reduce_events. by destruct (decide (r = 0)), fst. Qed.

Lemma filter_dup_step_events status mid fst r n (b : EntityBin (double:=double)) :
  filter (λ ev, is_dup_event ev = true) (step_events status mid fst r n b)
  = DupBeginStep ::
    (if decide (status = OK)
     then filter (λ ev, is_dup_event ev = true) mid ++ [DupEndStep] else []).
Proof.
  unfold step_events, local_events. destruct (decide (status = OK)) as [->|Hne].
  - rewrite !list.filter_app, filter_dup_reduce, app_nil_r. done.
  - by destruct status.
Qed.
End dup_stream.

(** C9: every call of the diffusion step begins a step on the
    duplicate-stream writer right after [BeginStep] on the reader and
    before the status is looked at; the step on the duplicate stream is
    ended only in the Ready branch.  After a NotReady or an end-of-stream
    outcome the duplicate writer is left with a step begun and not ended. *)
Theorem diffusion_dup_begin_without_end {double : Type} `{DoubleOps double}
    (status : Adios.StepStatus) (blocks : list Diffusion.Block) (w w' : list Diffusion.t) :
  Diffusion.step status blocks w = Some w' →
  Forall2 (λ d d',
    (∃ rest, Diffusion.trace d' =
       Diffusion.trace d ++ Diffusion.ReaderBeginStep status :: Diffusion.DupBeginStep :: rest) ∧
    ∃ puts, Forall is_DupPut puts ∧
      filter (λ ev, is_dup_event ev = true) (Diffusion.trace d') =
        filter (λ ev, is_dup_event ev = true) (Diffusion.trace d) ++
        Diffusion.DupBeginStep ::
        (if decide (status = Adios.OK) then puts ++ [Diffusion.DupEndStep] else [])) w w'.
Proof.
  intros Hstep. apply step_frame in Hstep.
  eapply Forall2_impl; [|exact Hstep]. intros d d' (_ & _ & _ & _ & mid & Hmid & Ht).
  split.
  - rewrite Ht. unfold step_events, local_events. simpl. eauto.
  - exists (filter (λ ev, is_dup_event ev = true) mid).
    split; [by apply filter_dup_fetch|].
    by rewrite Ht, list.filter_app, filter_dup_step_events.
Qed.

Lemma diffusion_dup_begin_without_end_witness :
  Forall2 (λ d d',
    (∃ rest, Diffusion.trace d' =
       Diffusion.trace d ++
       Diffusion.ReaderBeginStep Adios.NotReady :: Diffusion.DupBeginStep :: rest) ∧
    ∃ puts, Forall is_DupPut puts ∧
      filter (λ ev, is_dup_event ev = true) (Diffusion.trace d') =
        filter (λ ev, is_dup_event ev = true) (Diffusion.trace d) ++
        Diffusion.DupBeginStep ::
        (if decide (Adios.NotReady = Adios.OK) then puts ++ [Diffusion.DupEndStep] else []))
    (Diffusion.init_world 2 3)
    (map (Diffusion.emit [Diffusion.ReaderBeginStep Adios.NotReady; Diffusion.DupBeginStep])
         (Diffusion.init_world 2 3)).
Proof.
  apply (diffusion_dup_begin_without_end Adios.NotReady ex_blocks). reflexivity.
Defined.

Section sink.
Import Adios Diffusion.
Context {double : Type} `{DoubleOps double}.
Implicit Types (d : Diffusion.t (double:=double)) (w : list (Diffusion.t (double:=double))).
Implicit Types (bs : list (EntityBin (double:=double))).

Lemma filter_sink_fetch (mid : list (Event (double:=double))) :
  Forall (λ ev, is_fetch_event ev = true) mid →
  filter (λ ev, is_sink_event ev = true) mid = [].
Proof.
  induction 1 as [|ev mid Hev _ IH]; [done|].
  destruct ev; simpl in Hev; try discriminate Hev;
    by rewrite filter_cons_False by (simpl; congruence).
Qed.

Lemma filter_sink_declare n :
  filter (λ ev, is_sink_event ev = true) (declare_events (double:=double) n) = declare_events n.
Proof. done. Qed.

Lemma filter_sink_write (b : EntityBin (double:=double)) :
  filter (λ ev, is_sink_event ev = true) (write_events b) = write_events b.
Proof. done. Qed.

Lemma filter_sink_step_events status mid fst r n (b : EntityBin (double:=double)) :
  Forall (λ ev, is_fetch_event ev = true) mid →
  filter (λ ev, is_sink_event ev = true) (step_events status mid fst r n b)
  = if decide (status = OK ∧ r = 0)
    then (if fst then declare_events n else []) ++ write_events b else [].
Proof.
  intros Hmid. unfold step_events, local_events.
  destruct (decide (status = OK)) as [->|Hne].
  - rewrite !list.filter_app, (filter_sink_fetch mid Hmid). unfold reduce_events.
    destruct (decide (r = 0)) as [Hr|Hr].
    + rewrite decide_True by done. rewrite !list.filter_app, filter_sink_write.
      by destruct fst.
    + rewrite decide_False by (by intros [_ ?]). done.
  - rewrite decide_False by (by intros [? _]). by destruct status.
Qed.

Lemma sink_log_snoc n bs b :
  sink_log n bs ++ (if bool_decide (bs = []) then declare_events n else []) ++ write_events b
  = sink_log n (bs ++ [b]).
Proof.
  destruct bs as [|b0 bs].
  - change (declare_events n ++ write_events b = declare_events n ++ write_events b ++ []).
    by rewrite app_nil_r.
  - change ((declare_events n ++ concat (map write_events (b0 :: bs))) ++ write_events b
            = declare_events n ++ concat (map write_events ((b0 :: bs) ++ [b]))).
    rewrite map_app, concat_app, <- app_assoc. do 2 f_equal.
Qed.

Lemma sink_step status d d' bs :
  step_rel status d d' → sink_inv d bs →
  sink_inv d' (bs ++ if decide (status = OK ∧ rank d = 0) then [bins d'] else []).
Proof.
  intros (Hc & _ & Hf & _ & mid & Hmid & Ht) [Hfirst Hlog].
  assert (Hn : ntriangle d' = ntriangle d) by (unfold cfg in Hc; congruence).
  unfold sink_inv. rewrite Hf, Ht, Hn, list.filter_app, Hlog.
  rewrite (filter_sink_step_events _ _ _ _ _ _ Hmid).
  destruct (decide (status = OK ∧ rank d = 0)); cbn iota.
  - split; [by destruct bs|]. rewrite Hfirst. apply sink_log_snoc.
  - by rewrite !app_nil_r.
Qed.

Lemma Forall2_compose {A B C} (R : A → B → Prop) (S : B → C → Prop) (T : A → C → Prop)
    (l : list A) (k : list B) (m : list C) :
  (∀ x y z, R x y → S y z → T x z) →
  Forall2 R l k → Forall2 S k m → Forall2 T l m.
Proof.
  intros HT HR. revert m. induction HR as [|x y l k Hxy _ IH]; intros m HS.
  - apply Forall2_nil_inv_l in HS as ->. constructor.
  - apply Forall2_cons_inv_l in HS as (z & m' & Hyz & HS' & ->).
    constructor; [by eapply HT|by apply IH].
Qed.

Lemma run_frame (inputs : list (StepStatus * list (Block (double:=double)))) w w' :
  run inputs w = Some w' →
  Forall2 (λ d d',
    cfg d' = cfg d ∧
    istep d' = (istep d + Z.of_nat (count_OK (map fst inputs)))%Z ∧
    ∀ bs, sink_inv d bs →
      ∃ bs', length bs' = (if decide (rank d = 0) then count_OK (map fst inputs) else 0) ∧
             sink_inv d' (bs ++ bs')) w w'.
Proof.
  revert w. induction inputs as [|[status blocks] inputs IH]; intros w Hrun; simpl in Hrun.
  - injection Hrun as <-. apply Forall_Forall2_diag, Forall_forall. intros d _.
    split; [done|]. split; [unfold count_OK; simpl; lia|].
    intros bs Hbs. exists []. rewrite app_nil_r. split; [by destruct (decide _)|done].
  - destruct (step status blocks w) as [w1|] eqn:Hstep; [|done]. simpl in Hrun.
    apply step_frame in Hstep. apply IH in Hrun.
    eapply Forall2_compose; [|exact Hstep|exact Hrun].
    intros d d1 d' Hrel (Hc' & Hi' & Hs').
    pose proof Hrel as (Hc & Hi & _).
    assert (Hr : rank d1 = rank d) by (unfold cfg in Hc; congruence).
    assert (Hcount : count_OK (map fst ((status, blocks) :: inputs))
                     = (if decide (status = OK) then 1 else 0) + count_OK (map fst inputs)).
    { unfold count_OK. simpl. rewrite filter_cons. by destruct (decide (status = OK)). }
    split; [congruence|]. split.
    { rewrite Hi', Hi, Hcount. destruct (decide (status = OK)); lia. }
    intros bs Hbs. apply (sink_step _ _ _ _ Hrel) in Hbs.
    destruct (Hs' _ Hbs) as (bs' & Hlen & Hinv).
    eexists. rewrite app_assoc. split; [|exact Hinv].
    rewrite length_app, Hlen, Hr, Hcount.
    destruct (decide (status = OK)) as [->|Hne].
    + destruct (decide (rank d = 0)); [by rewrite decide_True|].
      by rewrite decide_False by (by intros [_ ?]).
    + rewrite decide_False by (by intros [? _]). by destruct (decide (rank d = 0)).
Qed.

Lemma init_sink_inv W r n : sink_inv (init (double:=double) W r n) [].
Proof. done. Qed.
End sink.



(** ** Properties of the heatload pipeline *)

Section gather_facts.
Import Heatload.

Lemma sum_list_app (l1 l2 : list nat) : sum_list (l1 ++ l2) = sum_list l1 + sum_list l2.
Proof. induction l1 as [|n l1 IH]; simpl; [done|]. rewrite IH. lia. Qed.

Lemma prefix_from_app acc l1 l2 :
  prefix_from acc (l1 ++ l2) = prefix_from acc l1 ++ prefix_from (acc + sum_list l1) l2.
Proof.
  revert acc. induction l1 as [|n l1 IH]; intros acc; simpl.
  - by rewrite Nat.add_0_r.
  - by rewrite IH, Nat.add_assoc.
Qed.

Lemma length_prefix_from acc lens : length (prefix_from acc lens) = length lens.
Proof. revert acc. induction lens as [|n lens IH]; intros acc; simpl; [done|]. by rewrite IH. Qed.

Lemma prefix_sums_snoc lens n :
  prefix_sums (lens ++ [n]) = prefix_sums lens ++ [sum_list lens].
Proof. unfold prefix_sums. by rewrite prefix_from_app. Qed.

Lemma prefix_sums_middle l1 n l2 :
  prefix_sums (l1 ++ n :: l2) !! length l1 = Some (sum_list l1).
Proof.
  unfold prefix_sums. rewrite prefix_from_app. simpl.
  rewrite lookup_app_r by (by rewrite length_prefix_from).
  by rewrite length_prefix_from, Nat.sub_diag.
Qed.

(** The displacement loop, stopped after [n] iterations. *)
Lemma displacements_prefix lens displs n :
  length displs = length lens → n ≤ length lens →
  fold_left (λ '(displs, ntotal) i, (<[i := ntotal]> displs, ntotal + nth i lens 0))
            (seq 0 n) (displs, 0)
  = (prefix_sums (take n lens) ++ drop n displs, sum_list (take n lens)).
Proof.
  intros Hlen. induction n as [|n IH]; intros Hn.
  - by rewrite take_0, drop_0.
  - rewrite seq_S, fold_left_app, IH by lia. simpl.
    destruct (lookup_lt_is_Some_2 lens n ltac:(lia)) as [x Hx].
    destruct (lookup_lt_is_Some_2 displs n ltac:(lia)) as [y Hy].
    rewrite (take_S_r _ _ _ Hx), prefix_sums_snoc, sum_list_app. simpl.
    rewrite (nth_lookup_Some _ _ _ _ Hx), Nat.add_0_r. f_equal.
    rewrite (drop_S _ _ _ Hy).
    assert (Hl : length (prefix_sums (take n lens)) = n).
    { unfold prefix_sums. rewrite length_prefix_from, length_take. lia. }
    rewrite insert_app_r_alt by lia. rewrite Hl, Nat.sub_diag. simpl.
    by rewrite <- app_assoc.
Qed.

Lemma displacements_spec lens displs :
  length displs = length lens →
  displacements lens displs = (prefix_sums lens, sum_list lens).
Proof.
  intros Hlen. unfold displacements.
  rewrite displacements_prefix by lia.
  by rewrite take_ge, drop_ge, app_nil_r by lia.
Qed.

Lemma scale_prefix lens n :
  n ≤ length lens →
  fold_left (λ lens i, <[i := nth i lens 0 * NPHASE]> lens) (seq 0 n) lens
  = times_NPHASE (take n lens) ++ drop n lens.
Proof.
  induction n as [|n IH]; intros Hn.
  - by rewrite take_0, drop_0.
  - rewrite seq_S, fold_left_app, IH by lia. simpl.
    destruct (lookup_lt_is_Some_2 lens n ltac:(lia)) as [x Hx].
    assert (Hl : length (times_NPHASE (take n lens)) = n).
    { unfold times_NPHASE. rewrite length_map, length_take. lia. }
    rewrite (take_S_r _ _ _ Hx), (drop_S _ _ _ Hx).
    unfold times_NPHASE in *. rewrite map_app. simpl.
    rewrite app_nth2 by lia. rewrite Hl, Nat.sub_diag. simpl.
    rewrite insert_app_r_alt by lia. rewrite Hl, Nat.sub_diag. simpl.
    by rewrite <- app_assoc.
Qed.

Lemma scale_spec lens : scale lens = times_NPHASE lens.
Proof.
  unfold scale. rewrite scale_prefix by lia.
  by rewrite take_ge, drop_ge, app_nil_r by lia.
Qed.

Lemma sum_list_lengths {T} (sends : list (list T)) :
  sum_list (map length sends) = length (concat sends).
Proof. induction sends as [|s sends IH]; simpl; [done|]. by rewrite length_app, IH. Qed.

(** Gathering the ranks from [done] on, the data of the ranks before being
    in place already. *)
Lemma gather_into_from {T} (all done todo : list (list T)) (rest : list T) :
  all = done ++ todo →
  length rest = sum_list (map length todo) →
  for_each (λ '(i, send) buf,
              cnt ← map length all !! i;
              dsp ← prefix_sums (map length all) !! i;
              if decide (length send = cnt ∧ dsp + cnt ≤ length buf)
              then Some (list_inserts dsp send buf) else None)
           (zip (seq (length done) (length todo)) todo) (concat done ++ rest)
  = Some (concat all).
Proof.
  revert done rest. induction todo as [|send todo IH]; intros done rest Hall Hrest.
  - simpl in *. apply nil_length_inv in Hrest as ->. subst all. by rewrite !app_nil_r.
  - simpl in Hrest.
    assert (Hc : map length all !! length done = Some (length send)).
    { subst all. rewrite map_app. simpl.
      rewrite lookup_app_r by (by rewrite length_map).
      by rewrite length_map, Nat.sub_diag. }
    assert (Hd : prefix_sums (map length all) !! length done = Some (length (concat done))).
    { subst all. rewrite map_app. simpl.
      rewrite <- (length_map length done) at 1.
      by rewrite prefix_sums_middle, sum_list_lengths. }
    simpl. rewrite Hc. simpl. rewrite Hd. simpl.
    rewrite decide_True by (rewrite length_app; lia).
    rewrite <- (Nat.add_0_r (length (concat done))), list_inserts_app_r.
    rewrite <- (take_drop (length send) rest).
    rewrite list_inserts_0_r by (rewrite length_take; lia).
    rewrite app_assoc.
    replace (concat done ++ send) with (concat (done ++ [send]))
      by (rewrite concat_app; simpl; by rewrite app_nil_r).
    replace (S (length done)) with (length (done ++ [send]))
      by (rewrite length_app; simpl; lia).
    apply IH.
    + by rewrite <- app_assoc.
    + rewrite length_drop. lia.
Qed.

Lemma gather_into_spec {T} (sends : list (list T)) (recvbuf : list T) :
  length recvbuf = sum_list (map length sends) →
  gather_into sends (map length sends) (prefix_sums (map length sends)) recvbuf
  = Some (concat sends).
Proof. intros Hlen. by apply (gather_into_from sends [] sends recvbuf). Qed.
End gather_facts.

Section merge_facts.
Import Adios Util Heatload.
Context {float PList : Type} `{Deps float PList}.
Implicit Types (c : Columns (float:=float)) (cs : list (Columns (float:=float))).

Lemma aligned_lengths cs :
  Forall aligned cs →
  map length (map c_gid cs) = lens_of cs ∧
  map length (map c_flag cs) = lens_of cs ∧
  map length (map c_step cs) = lens_of cs ∧
  map length (map c_dw cs) = lens_of cs ∧
  map length (map c_phase cs) = times_NPHASE (lens_of cs).
Proof.
  unfold lens_of, times_NPHASE. rewrite !map_map.
  induction 1 as [|c cs (Hf & Hs & Hd & Hp) _ (IH1 & IH2 & IH3 & IH4 & IH5)]; simpl; [done|].
  rewrite IH2, IH3, IH4, IH5, Hf, Hs, Hd, Hp. done.
Qed.

Lemma sum_list_times lens : sum_list (times_NPHASE lens) = sum_list lens * NPHASE.
Proof.
  unfold times_NPHASE. induction lens as [|n lens IH]; simpl; [done|]. rewrite IH. lia.
Qed.

Lemma length_lens_of cs : length (lens_of cs) = length cs.
Proof. apply length_map. Qed.

Lemma MPI_Gatherv_spec {T} (v : Var) (sends : list (list T)) (recvbuf : list T) (st : Buffers) :
  len_list st = map length sends →
  displacement_list st = prefix_sums (map length sends) →
  length recvbuf = sum_list (map length sends) →
  MPI_Gatherv v sends recvbuf st
  = Some (concat sends,
          {| len_list := len_list st; displacement_list := displacement_list st;
             calls := calls st ++ [{| g_var := v; g_recvcounts := len_list st;
                                      g_displs := displacement_list st |}] |}).
Proof.
  intros Hl Hd Hb. unfold MPI_Gatherv. rewrite Hl, Hd.
  by rewrite gather_into_spec.
Qed.

(** The merge of one species, whatever the two buffers held before. *)
Lemma merge_species_spec (ion : bool) cs (st : Buffers) :
  Forall aligned cs →
  length (len_list st) = length cs → length (displacement_list st) = length cs →
  merge_species ion cs st
  = Some (concat_columns cs,
          {| len_list := times_NPHASE (lens_of cs);
             displacement_list := prefix_sums (times_NPHASE (lens_of cs));
             calls := calls st ++ species_calls ion (lens_of cs) |}).
Proof.
  intros Hal Hll Hdl.
  destruct (aligned_lengths cs Hal) as (Hg & Hf & Hs & Hd & Hp).
  unfold merge_species, bind, MPI_Allgather, compute_displacements, scale_len_list, ret.
  cbn [len_list displacement_list calls].
  fold (lens_of cs).
  assert (Hins : list_inserts 0 (lens_of cs) (len_list st) = lens_of cs).
  { rewrite <- (app_nil_r (lens_of cs)) at 1. apply list_inserts_0_l.
    by rewrite length_lens_of. }
  rewrite Hins.
  rewrite displacements_spec by (by rewrite length_lens_of).
  rewrite (MPI_Gatherv_spec (v_gid ion)); cbn [len_list displacement_list calls];
    [|by rewrite ?Hg, ?length_replicate..].
  rewrite (MPI_Gatherv_spec (v_flag ion)); cbn [len_list displacement_list calls];
    [|by rewrite ?Hf, ?length_replicate..].
  rewrite (MPI_Gatherv_spec (v_step ion)); cbn [len_list displacement_list calls];
    [|by rewrite ?Hs, ?length_replicate..].
  rewrite (MPI_Gatherv_spec (v_dw ion)); cbn [len_list displacement_list calls];
    [|by rewrite ?Hd, ?length_replicate..].
  rewrite scale_spec.
  rewrite displacements_spec
    by (unfold prefix_sums, times_NPHASE;
        by rewrite length_prefix_from, length_map).
  rewrite (MPI_Gatherv_spec (v_phase ion)); cbn [len_list displacement_list calls];
    [|by rewrite ?Hp, ?length_replicate, ?sum_list_times..].
  unfold concat_columns, species_calls. by rewrite <- !app_assoc.
Qed.

Lemma merge_spec (ions electrons : list (Columns (float:=float))) (W : nat) :
  length ions = W → length electrons = W →
  Forall aligned ions → Forall aligned electrons →
  merge ions electrons (init_buffers W)
  = Some ((concat_columns ions, concat_columns electrons),
          {| len_list := times_NPHASE (lens_of electrons);
             displacement_list := prefix_sums (times_NPHASE (lens_of electrons));
             calls := species_calls true (lens_of ions) ++
                      species_calls false (lens_of electrons) |}).
Proof.
  intros Hi He Hai Hae. unfold merge, bind, ret.
  rewrite merge_species_spec by (cbn [init_buffers len_list displacement_list];
                                 by rewrite ?length_replicate).
  rewrite merge_species_spec; [done|done|..].
  - cbn [len_list]. unfold times_NPHASE. by rewrite length_map, length_lens_of, Hi.
  - cbn [displacement_list]. unfold prefix_sums, times_NPHASE.
    by rewrite length_prefix_from, length_map, length_lens_of, Hi.
Qed.
End merge_facts.

Section merge_checks.
Import Adios Util Heatload.
Context {float PList : Type} `{Deps float PList}.
Implicit Types (c : Columns (float:=float)) (cs : list (Columns (float:=float))).

Lemma gather_into_counts_from {T} (sends : list (list T)) (recvcounts displs : list nat)
    (k : nat) (buf res : list T) :
  for_each (λ '(i, send) buf,
              cnt ← recvcounts !! i;
              dsp ← displs !! i;
              if decide (length send = cnt ∧ dsp + cnt ≤ length buf)
              then Some (list_inserts dsp send buf) else None)
           (zip (seq k (length sends)) sends) buf = Some res →
  ∀ i send, sends !! i = Some send → recvcounts !! (k + i) = Some (length send).
Proof.
  revert k buf. induction sends as [|send0 sends IH]; intros k buf Hg i send Hi; [done|].
  simpl in Hg.
  destruct (recvcounts !! k) as [cnt|] eqn:Hcnt; simpl in Hg; [|done].
  destruct (displs !! k) as [dsp|]; simpl in Hg; [|done].
  destruct (decide (length send0 = cnt ∧ dsp + cnt ≤ length buf)) as [[Hl _]|]; [|done].
  destruct i as [|i]; simpl in Hi.
  - injection Hi as <-. by rewrite Nat.add_0_r, Hcnt, Hl.
  - rewrite <- Nat.add_succ_comm. by eapply IH.
Qed.

(** A gather that is not erroneous has received from every rank as many
    elements as the length table says. *)
Lemma MPI_Gatherv_counts {T} (v : Var) (sends : list (list T)) (recvbuf : list T)
    (st : Buffers) res :
  MPI_Gatherv v sends recvbuf st = Some res →
  (∀ i send, sends !! i = Some send → len_list st !! i = Some (length send)) ∧
  len_list res.2 = len_list st.
Proof.
  unfold MPI_Gatherv. intros Hg.
  destruct (gather_into _ _ _ _) as [buf|] eqn:Hbuf; simpl in Hg; [|done].
  injection Hg as <-. split; [|done].
  intros i send Hi. by apply (gather_into_counts_from _ _ _ 0 _ _ Hbuf i send).
Qed.

(** The merge of a species goes through only if the five local vectors of
    every rank are index-aligned: in a step that returns, no vector is
    read past its end. *)
Lemma merge_species_Some_aligned (ion : bool) cs (st : Buffers) res :
  length (len_list st) = length cs →
  merge_species ion cs st = Some res → Forall aligned cs.
Proof.
  intros Hll. unfold merge_species, bind, MPI_Allgather, compute_displacements,
    scale_len_list, ret. cbn [len_list displacement_list calls].
  fold (lens_of cs).
  assert (Hins : list_inserts 0 (lens_of cs) (len_list st) = lens_of cs).
  { rewrite <- (app_nil_r (lens_of cs)) at 1. apply list_inserts_0_l.
    by rewrite length_lens_of. }
  rewrite Hins.
  destruct (displacements (lens_of cs) (displacement_list st)) as [displs ntotal].
  destruct (MPI_Gatherv (v_gid ion) _ _ _) as [[gt st1]|] eqn:Hg1; [|done].
  destruct (MPI_Gatherv (v_flag ion) _ _ _) as [[ft st2]|] eqn:Hg2; [|done].
  destruct (MPI_Gatherv (v_step ion) _ _ _) as [[stt st3]|] eqn:Hg3; [|done].
  destruct (MPI_Gatherv (v_dw ion) _ _ _) as [[dt st4]|] eqn:Hg4; [|done].
  destruct (displacements (scale (len_list st4)) (displacement_list st4)) as [displs' ntotal'].
  destruct (MPI_Gatherv (v_phase ion) _ _ _) as [[pt st5]|] eqn:Hg5; [|done].
  intros _.
  apply MPI_Gatherv_counts in Hg1 as [_ Hl1], Hg2 as [Hc2 Hl2], Hg3 as [Hc3 Hl3],
    Hg4 as [Hc4 Hl4], Hg5 as [Hc5 _].
  simpl in Hl1, Hl2, Hl3, Hl4. cbn [len_list] in Hc5.
  rewrite Hl4, Hl3, Hl2, Hl1, scale_spec in Hc5.
  rewrite Hl1 in Hc2. rewrite Hl2, Hl1 in Hc3. rewrite Hl3, Hl2, Hl1 in Hc4.
  apply Forall_lookup. intros i c Hc.
  assert (Hlen : lens_of cs !! i = Some (length (c_gid c))).
  { unfold lens_of. by rewrite lookup_map, Hc. }
  specialize (Hc2 i (c_flag c)). specialize (Hc3 i (c_step c)).
  specialize (Hc4 i (c_dw c)). specialize (Hc5 i (c_phase c)).
  rewrite lookup_map, Hc in Hc2. rewrite lookup_map, Hc in Hc3.
  rewrite lookup_map, Hc in Hc4. rewrite lookup_map, Hc in Hc5.
  unfold times_NPHASE in Hc5. rewrite lookup_map in Hc5.
  rewrite Hlen in Hc2, Hc3, Hc4, Hc5. simpl in *.
  specialize (Hc2 eq_refl). specialize (Hc3 eq_refl).
  specialize (Hc4 eq_refl). specialize (Hc5 eq_refl).
  repeat split; congruence.
Qed.

Lemma merge_Some_aligned (ions electrons : list (Columns (float:=float))) (W : nat) res :
  length ions = W → length electrons = W →
  merge ions electrons (init_buffers W) = Some res →
  Forall aligned ions ∧ Forall aligned electrons.
Proof.
  intros Hi He. unfold merge, bind, ret. intros Hm.
  destruct (merge_species true ions _) as [[itotal st1]|] eqn:Hm1; [|done].
  destruct (merge_species false electrons st1) as [[etotal st2]|] eqn:Hm2; [|done].
  assert (Hb : length (len_list (init_buffers W)) = length ions ∧
               length (displacement_list (init_buffers W)) = length ions).
  { rewrite Hi. split; apply length_replicate. }
  destruct Hb as [Hbl Hbd].
  pose proof (merge_species_Some_aligned true ions _ _ Hbl Hm1) as Hai.
  split; [done|].
  rewrite merge_species_spec in Hm1 by done.
  injection Hm1 as _ <-.
  apply (merge_species_Some_aligned false electrons _ _) in Hm2; [done|].
  cbn [len_list]. unfold times_NPHASE. by rewrite length_map, length_lens_of, Hi.
Qed.
End merge_checks.

Section record_facts.
Import Adios Util Heatload.
Context {float PList : Type} `{Deps float PList}.
Implicit Types (c : Columns (float:=float)) (cs : list (Columns (float:=float))).
Implicit Types (p : Particle float).

Lemma particle_at_app_l (c1 c2 : Columns (float:=float)) k :
  aligned c1 → k < length (c_gid c1) →
  particle_at (app_columns c1 c2) k = particle_at c1 k.
Proof.
  intros (Hf & Hs & Hd & Hp) Hk. unfold particle_at, GET, NPHASE in *. simpl.
  f_equal; apply app_nth1; lia.
Qed.

Lemma particle_at_app_r (c1 c2 : Columns (float:=float)) k :
  aligned c1 →
  particle_at (app_columns c1 c2) (length (c_gid c1) + k) = particle_at c2 k.
Proof.
  intros (Hf & Hs & Hd & Hp). unfold particle_at, GET, NPHASE in *. simpl.
  f_equal;
    first [ apply app_nth2_plus
          | rewrite <- Hf; apply app_nth2_plus
          | rewrite <- Hs; apply app_nth2_plus
          | rewrite <- Hd; apply app_nth2_plus
          | match goal with
            | |- nth ((_ + k) * 11 + ?j) _ _ = _ =>
                replace ((length (c_gid c1) + k) * 11 + j)
                  with (length (c_phase c1) + (k * 11 + j)) by lia;
                apply app_nth2_plus
            end ].
Qed.

Lemma seq_add_map (a n : nat) : seq a n = map (Nat.add a) (seq 0 n).
Proof.
  change (map (Nat.add a) (seq 0 n)) with (Nat.add a <$> seq 0 n).
  by rewrite fmap_add_seq, Nat.add_0_r.
Qed.

Lemma records_of_app (c1 c2 : Columns (float:=float)) :
  aligned c1 → records_of (app_columns c1 c2) = records_of c1 ++ records_of c2.
Proof.
  intros Hal. unfold records_of. simpl. rewrite length_app, seq_app, map_app. f_equal.
  - apply map_ext_in. intros k [_ Hk]%in_seq. by apply particle_at_app_l.
  - simpl. rewrite seq_add_map, map_map.
    apply map_ext. intros k. by apply particle_at_app_r.
Qed.

Lemma aligned_app (c1 c2 : Columns (float:=float)) : aligned c1 → aligned c2 → aligned (app_columns c1 c2).
Proof.
  intros (? & ? & ? & ?) (? & ? & ? & ?). unfold aligned. simpl.
  rewrite !length_app. repeat split; lia.
Qed.

Lemma aligned_no_columns : aligned (no_columns (float:=float)).
Proof. by repeat split. Qed.

(** The records gathered at the root: those of rank 0, then those of rank
    1, and so on. *)
Lemma records_of_concat cs :
  Forall aligned cs → records_of (concat_columns cs) = concat (map records_of cs).
Proof.
  induction 1 as [|c cs Hc _ IH]; [done|].
  change (concat_columns (c :: cs)) with (app_columns c (concat_columns cs)).
  by rewrite records_of_app, IH.
Qed.

Lemma length_records_of c : length (records_of c) = length (c_gid c).
Proof. unfold records_of. by rewrite length_map, length_seq. Qed.

Lemma escaped_loop_spec c :
  escaped_loop c = fold_left add (filter is_escaped (records_of c)) pl_empty.
Proof.
  unfold escaped_loop, records_of. generalize (seq 0 (length (c_gid c))) as ks.
  generalize (pl_empty (PList:=PList)) as esc.
  intros esc ks. revert esc. induction ks as [|k ks IH]; intros esc; simpl; [done|].
  rewrite IH, filter_cons.
  destruct (decide (is_escaped (particle_at c k))) as [He|He];
    unfold is_escaped in He;
    change (flag (particle_at c k)) with (nth k (c_flag c) 0%Z) in He.
  - by rewrite He.
  - apply not_true_is_false in He. by rewrite He.
Qed.

Lemma confined_loop_from c (ks : list nat) (div : list (Particle float)) :
  fold_left (λ div i, let ptl := particle_at c i in
                      if negb (escaped (nth i (c_flag c) 0%Z)) then div ++ [ptl] else div)
            ks div
  = div ++ filter (λ p, ¬ is_escaped p) (map (particle_at c) ks).
Proof.
  revert div. induction ks as [|k ks IH]; intros div; simpl.
  - by rewrite app_nil_r.
  - rewrite IH, filter_cons.
    destruct (decide (¬ is_escaped (particle_at c k))) as [He|He];
      [|apply dec_stable in He]; unfold is_escaped in He;
      change (flag (particle_at c k)) with (nth k (c_flag c) 0%Z) in He.
    + apply not_true_is_false in He. rewrite He. simpl. by rewrite <- app_assoc.
    + by rewrite He.
Qed.

Lemma confined_loop_spec c :
  confined_loop c = filter (λ p, ¬ is_escaped p) (records_of c).
Proof. unfold confined_loop. by rewrite confined_loop_from. Qed.
End record_facts.

Section classify_facts.
Import Adios Util Heatload.
Context {float PList : Type} `{Deps float PList}.
Implicit Types (c : Columns (float:=float)) (cs : list (Columns (float:=float))).
Implicit Types (w : list (Heatload.t (float:=float) (PList:=PList))).
Implicit Types (blocks : list (Block (float:=float))).

Lemma aligned_append_block (block : Block (float:=float)) c :
  hblock_ok block → aligned c → aligned (append_block block c).
Proof.
  intros (Hf & Hs & Hd & Hp) (Hf' & Hs' & Hd' & Hp'). unfold append_block.
  destruct (0 <? block_ncount (Count block))%Z; [|done].
  unfold aligned. simpl. rewrite !length_app. repeat split; lia.
Qed.

Lemma read_blocks_aligned blocks c :
  Forall hblock_ok blocks → aligned c →
  ∃ c', for_each (λ block c, Some (append_block block c)) blocks c = Some c' ∧ aligned c'.
Proof.
  intros Hok. revert c. induction Hok as [|block blocks Hb _ IH]; intros c Hc; simpl.
  - by exists c.
  - apply IH. by apply aligned_append_block.
Qed.

Lemma read_species_aligned blocks W r :
  r < W → Forall hblock_ok blocks →
  ∃ c, read_species blocks W r = Some c ∧ aligned c.
Proof.
  intros Hr Hok. unfold read_species.
  rewrite (for_each_indices (λ block c, Some (append_block block c)))
    by (apply slice_end_le; lia).
  apply read_blocks_aligned; [|apply aligned_no_columns].
  by apply Forall_take, Forall_drop.
Qed.

Lemma read_world_aligned W blocks w :
  hworld_ok W w → Forall hblock_ok blocks →
  ∃ cs, mapM (λ h, read_species blocks (comm_size h) (rank h)) w = Some cs ∧
    length cs = W ∧ Forall aligned cs ∧
    ∀ r c, cs !! r = Some c → read_species blocks W r = Some c.
Proof.
  intros [Hlen Hw] Hok.
  destruct (mapM_indexed (λ h, read_species blocks (comm_size h) (rank h))
              (λ r c, aligned c ∧ read_species blocks W r = Some c) w) as (cs & Hcs & Hl & Hall).
  { intros r h Hh. destruct (Hw r h Hh) as [-> ->].
    destruct (read_species_aligned blocks (length w) r) as (c & Hc & Hal); [|done|].
    { by eapply lookup_lt_Some. }
    exists c. rewrite Hlen in *. by rewrite Hc. }
  exists cs. split; [done|]. split; [congruence|]. split.
  - apply Forall_lookup. intros r c Hc. by apply (Hall r c Hc).
  - intros r c Hc. by apply (Hall r c Hc).
Qed.

(** The four collections of all processes, in terms of the local vectors
    of the ranks. *)
Lemma classify_world_spec W iblocks eblocks w :
  hworld_ok W w → Forall hblock_ok iblocks → Forall hblock_ok eblocks →
  ∃ ions electrons,
    length ions = W ∧ length electrons = W ∧
    Forall aligned ions ∧ Forall aligned electrons ∧
    (∀ r c, ions !! r = Some c → read_species iblocks W r = Some c) ∧
    (∀ r c, electrons !! r = Some c → read_species eblocks W r = Some c) ∧
    classify_world iblocks eblocks w =
      Some (zip_with (λ h ie, classify (rank h)
                                (concat_columns ions, concat_columns electrons) ie.1 ie.2)
                     w (zip ions electrons)).
Proof.
  intros Hw Hiok Heok.
  destruct (read_world_aligned W iblocks w Hw Hiok) as (ions & Hi & Hil & Hia & Hir).
  destruct (read_world_aligned W eblocks w Hw Heok) as (electrons & He & Hel & Hea & Her).
  exists ions, electrons. repeat split; try done.
  unfold classify_world. rewrite Hi. simpl. rewrite He. simpl.
  destruct Hw as [Hlen _]. rewrite Hlen.
  by rewrite (merge_spec ions electrons W).
Qed.

Lemma classified_lookup W w (ions electrons : list (Columns (float:=float)))
    (totals : Columns * Columns) r (cl : Classified) :
  hworld_ok W w →
  zip_with (λ h ie, classify (rank h) totals ie.1 ie.2) w (zip ions electrons) !! r = Some cl →
  ∃ ic ec, ions !! r = Some ic ∧ electrons !! r = Some ec ∧ cl = classify r totals ic ec.
Proof.
  intros [_ Hw] Hcl.
  apply lookup_zip_with_Some in Hcl as (h & [ic ec] & -> & Hh & Hie).
  apply lookup_zip_with_Some in Hie as (ic' & ec' & Heq & Hic & Hec).
  injection Heq as <- <-. destruct (Hw r h Hh) as [-> _]. eauto.
Qed.
End classify_facts.

Section heatload_examples.
Import Heatload.

Example ex_gather_0_3_5 :
  (λ res, (c_gid res.1.1, length (c_phase res.1.1), map g_recvcounts (calls res.2)))
    <$> merge ex_ions ex_electrons (init_buffers 3)
  = Some ([10; 11; 12; 20; 21; 22; 23; 24]%Z, 88,
          [[0; 3; 5]; [0; 3; 5]; [0; 3; 5]; [0; 3; 5]; [0; 33; 55];
           [2; 0; 1]; [2; 0; 1]; [2; 0; 1]; [2; 0; 1]; [22; 0; 11]]).
Proof. vm_compute. reflexivity. Qed.

Example ex_classify_4_6 :
  (λ cls, map (λ cl, (map gid (idiv cl), map gid (iesc cl))) cls)
    <$> classify_world ex_iblocks ex_eblocks (init_world 2)
  = Some [([2; 3; 4]%Z, [0; 1; 200; 201]%Z); ([202; 203; 204]%Z, [])].
Proof. vm_compute. reflexivity. Qed.

Lemma ex_ions_aligned : Forall aligned ex_ions.
Proof. repeat constructor. Qed.

Lemma ex_electrons_aligned : Forall aligned ex_electrons.
Proof. repeat constructor. Qed.

Lemma ex_iblocks_ok : Forall hblock_ok ex_iblocks.
Proof. repeat constructor. Qed.

Lemma ex_eblocks_ok : Forall hblock_ok ex_eblocks.
Proof. repeat constructor. Qed.

Lemma init_hworld_ok {float PList : Type} `{Deps float PList} W :
  hworld_ok (float:=float) (PList:=PList) W (init_world W).
Proof.
  unfold init_world. split; [by rewrite length_map, length_seq|].
  intros r h Hh. rewrite lookup_map in Hh.
  destruct (seq 0 W !! r) as [r'|] eqn:Hr; [|done].
  apply lookup_seq in Hr as [-> _]. simpl in Hh. injection Hh as <-. done.
Qed.
End heatload_examples.





Section classification.
Import Adios Util Heatload.
Context {float PList : Type} `{Deps float PList}.
Implicit Types (c : Columns (float:=float)) (cs : list (Columns (float:=float))).
Implicit Types (p : Particle float).

Lemma elem_of_records_concat cs r c p :
  cs !! r = Some c → p ∈ records_of c → p ∈ concat (map records_of cs).
Proof.
  intros Hc Hp. apply list_elem_of_In, in_concat. exists (records_of c).
  split; [|by apply list_elem_of_In].
  apply in_map, list_elem_of_In. by eapply list_elem_of_lookup_2.
Qed.

(** Every record of every rank goes to exactly one side. *)
Lemma classified_sides cs r c p (divs : list (list (Particle float))) :
  cs !! r = Some c → p ∈ records_of c →
  length divs = length cs →
  (∀ r' c', cs !! r' = Some c' →
     divs !! r' = Some (filter (λ p, ¬ is_escaped p) (records_of c'))) →
  if decide (is_escaped p)
  then (p ∈ candidates cs ∧ ∀ r' div, divs !! r' = Some div → p ∉ div)
  else ((p ∉ candidates cs) ∧ ∃ div, divs !! r = Some div ∧ p ∈ div).
Proof.
  intros Hc Hp Hlen Hdivs. destruct (decide (is_escaped p)) as [He|He].
  - split.
    + apply list_elem_of_filter. split; [done|]. by eapply elem_of_records_concat.
    + intros r' div Hdiv.
      destruct (lookup_lt_is_Some_2 cs r') as [c' Hc'].
      { rewrite <- Hlen. by eapply lookup_lt_Some. }
      rewrite (Hdivs r' c' Hc') in Hdiv. injection Hdiv as <-.
      intros [Hn _]%list_elem_of_filter. by apply Hn.
  - split.
    + by intros [He' _]%list_elem_of_filter.
    + eexists. split; [by apply (Hdivs r c)|].
      by apply list_elem_of_filter.
Qed.
End classification.



Section heatload_frames.
Import Adios Util Heatload.
Context {float PList : Type} `{Deps float PList}.
Implicit Types (w : list (Heatload.t (float:=float) (PList:=PList))).

Lemma length_classify_world iblocks eblocks w (cls : list Classified) :
  classify_world iblocks eblocks w = Some cls → length cls = length w.
Proof.
  unfold classify_world. intros Hcls.
  destruct (mapM (λ h, read_species iblocks (comm_size h) (rank h)) w) as [ions|] eqn:Hi;
    simpl in Hcls; [|done].
  destruct (mapM (λ h, read_species eblocks (comm_size h) (rank h)) w) as [electrons|] eqn:He;
    simpl in Hcls; [|done].
  destruct (merge _ _ _) as [merged|]; simpl in Hcls; [|done]. injection Hcls as <-.
  apply length_mapM in Hi, He. rewrite length_zip_with, length_zip. lia.
Qed.

Lemma hstep_frame status iblocks eblocks w w' :
  step status iblocks eblocks w = Some w' →
  Forall2 (λ h h', rank h' = rank h ∧ comm_size h' = comm_size h ∧
                   istep h' = (istep h + if decide (status = OK) then 1 else 0)%Z) w w'.
Proof.
  unfold step. intros Hstep. destruct (decide (status = OK)) as [->|Hne].
  - destruct (classify_world iblocks eblocks w) as [cls|] eqn:Hcls; simpl in Hstep; [|done].
    injection Hstep as <-.
    apply length_classify_world in Hcls.
    apply Forall2_same_length_lookup_2.
    { rewrite length_imap, length_zip. lia. }
    intros i h h' Hh Hh'. rewrite list_lookup_imap in Hh'.
    destruct (zip w cls !! i) as [[h0 cl]|] eqn:Hz; [|done].
    apply lookup_zip_Some in Hz as [Hh0 _]. simpl in Hh'. injection Hh' as <-.
    assert (h0 = h) as -> by congruence. done.
  - assert (w' = map (not_ready status) w) as -> by (destruct status; congruence).
    apply Forall2_fmap_r, Forall_Forall2_diag, Forall_forall. intros h _.
    simpl. repeat split. lia.
Qed.

Lemma hrun_frame (inputs : list (StepStatus * list Block * list Block)) w w' :
  run inputs w = Some w' →
  Forall2 (λ h h', istep h' = (istep h + Z.of_nat (count_OK (map (λ x, x.1.1) inputs)))%Z)
          w w'.
Proof.
  revert w. induction inputs as [|[[status iblocks] eblocks] inputs IH]; intros w Hrun;
    simpl in Hrun.
  - injection Hrun as <-. apply Forall_Forall2_diag, Forall_forall. intros h _.
    unfold count_OK. simpl. lia.
  - destruct (step status iblocks eblocks w) as [w1|] eqn:Hstep; simpl in Hrun; [|done].
    apply hstep_frame in Hstep. apply IH in Hrun.
    eapply Forall2_compose; [|exact Hstep|exact Hrun].
    intros h h1 h' (_ & _ & Hi) Hi'. rewrite Hi', Hi.
    unfold count_OK. simpl. rewrite filter_cons.
    destruct (decide (status = OK)); simpl; lia.
Qed.
End heatload_frames.

(** The step counter of the command-line driver never goes down either:
    it moves by one for every call that returns 0. *)
Lemma driver_istep_monotone (rets : list Z) (istep : Z) :
  (istep ≤ Driver.main_loop rets istep)%Z.
Proof.
  revert istep. induction rets as [|ret rets IH]; intros istep; simpl; [lia|].
  destruct (ret =? 0)%Z; [specialize (IH (istep + 1)%Z); lia|].
  destruct (0 <? ret)%Z; [apply IH|].
  destruct (ret =? -1)%Z; [lia|apply IH].
Qed.



(** ** Further properties of the diffusion pipeline *)

Section diffusion_inversion.
Import Adios Util Diffusion.
Context {double : Type} `{DoubleOps double}.
Implicit Types (d : Diffusion.t (double:=double)) (w : list (Diffusion.t (double:=double))).
Implicit Types (f : Field) (blocks : list (Block (double:=double))).
Implicit Types (block : Block (double:=double)) (b : EntityBin (double:=double)).

Lemma process_row_inv n table k b b' :
  bins_len n b → process_row table k b = Some b' →
  (0 ≤ d_to_int (GET table k 0) < Z.of_nat n)%Z ∧ bins_len n b'.
Proof.
  intros Hlen Hrow.
  destruct (decide (0 ≤ d_to_int (GET table k 0) < Z.of_nat n)%Z) as [Hr|Hr].
  - split; [done|].
    destruct (process_row_Some n table k b Hlen Hr) as (b'' & Heq & Hlen' & _). congruence.
  - by rewrite (process_row_None n table k b Hlen Hr) in Hrow.
Qed.

Lemma process_rows_inv n table (ks : list nat) b b' :
  bins_len n b → for_each (process_row table) ks b = Some b' →
  Forall (λ k, (0 ≤ d_to_int (GET table k 0) < Z.of_nat n)%Z) ks ∧ bins_len n b'.
Proof.
  revert b. induction ks as [|k ks IH]; intros b Hlen Hfe; simpl in Hfe.
  - injection Hfe as <-. by split.
  - destruct (process_row table k b) as [b1|] eqn:Hb1; simpl in Hfe; [|done].
    destruct (process_row_inv n table k b b1 Hlen Hb1) as [Hk Hlen1].
    destruct (IH b1 Hlen1 Hfe) as [Hks Hlen']. split; [by constructor|done].
Qed.

Lemma process_block_inv n block d d' :
  bins_len n (bins d) → process_block block d = Some d' →
  fetched_in_range n block ∧ bins_len n (bins d').
Proof.
  intros Hlen Hpb. pose proof (process_block_bins block d) as Hb.
  rewrite Hpb in Hb. simpl in Hb. symmetry in Hb.
  apply (process_rows_inv n) in Hb as [Hks Hlen']; [|done]. split; [|done].
  unfold fetched_in_range, table_rows. by rewrite Forall_map.
Qed.

Lemma process_indexed_blocks_inv n blocks (idxs : list nat) d d' :
  bins_len n (bins d) →
  for_each (λ i d, block ← blocks !! i; process_block block d) idxs d = Some d' →
  Forall (λ i, ∃ block, blocks !! i = Some block ∧ fetched_in_range n block) idxs ∧
  bins_len n (bins d').
Proof.
  revert d. induction idxs as [|i idxs IH]; intros d Hlen Hfe; simpl in Hfe.
  - injection Hfe as <-. by split.
  - destruct (blocks !! i) as [block|] eqn:Hi; simpl in Hfe; [|done].
    destruct (process_block block d) as [d1|] eqn:Hd1; simpl in Hfe; [|done].
    destruct (process_block_inv n block d d1 Hlen Hd1) as [Hr Hlen1].
    destruct (IH d1 Hlen1 Hfe) as [Hrs Hlen']. split; [|done].
    constructor; [by exists block|done].
Qed.

(** The local part of a step that returns leaves vectors of [ntriangle]
    entries, whatever they were before. *)
Lemma step_local_bins_len status blocks d d' :
  step_local status blocks d = Some d' →
  bins_len (ntriangle d) (bins d) → bins_len (ntriangle d) (bins d').
Proof.
  unfold step_local. intros Hsl Hlen. destruct status;
    try (injection Hsl as <-; exact Hlen).
  destruct (for_each _ _ _) as [d2|] eqn:Hd2; simpl in Hsl; [|done].
  injection Hsl as <-.
  apply (process_indexed_blocks_inv (ntriangle d)) in Hd2 as [_ Hlen2]; [done|].
  apply zero_bins_len.
Qed.

Lemma step_local_OK_inv blocks d d' :
  step_local OK blocks d = Some d' →
  Forall (λ i, ∃ block, blocks !! i = Some block ∧ fetched_in_range (ntriangle d) block)
         (seq (slice_offset blocks (comm_size d) (rank d))
              (slice_count blocks (comm_size d) (rank d))).
Proof.
  unfold step_local. intros Hsl.
  destruct (for_each _ _ _) as [d2|] eqn:Hd2; simpl in Hsl; [|done].
  apply (process_indexed_blocks_inv (ntriangle d)) in Hd2 as [Hr _]; [done|].
  apply zero_bins_len.
Qed.

Lemma slice_Forall_indices {T} (P : T → Prop) (vec : list T) W r :
  Forall (λ i, ∃ x, vec !! i = Some x ∧ P x)
         (seq (slice_offset vec W r) (slice_count vec W r)) →
  Forall P (Util.slice vec W r).
Proof.
  intros Hall. apply Forall_lookup. intros j x Hj. unfold Util.slice in Hj.
  apply lookup_take_Some in Hj as [Hj Hlt]. rewrite lookup_drop in Hj.
  rewrite Forall_forall in Hall.
  destruct (Hall (slice_offset vec W r + j)) as (x' & Hx' & HP).
  { apply in_seq. lia. }
  congruence.
Qed.

Lemma MPI_Reduce_sum_length (bufs : list (list double)) v :
  MPI_Reduce_sum bufs = Some v → Forall (λ buf, length buf = length v) bufs.
Proof.
  destruct bufs as [|v0 rest]; [done|]. unfold MPI_Reduce_sum.
  revert v0. induction rest as [|v1 rest IH]; intros v0 Hfe; simpl in Hfe.
  - injection Hfe as <-. by repeat constructor.
  - destruct (decide (length v1 = length v0)) as [Heq|]; simpl in Hfe; [|done].
    apply IH in Hfe. apply Forall_cons_1 in Hfe as [Hz Hrest].
    rewrite length_zip_with in Hz.
    constructor; [lia|]. constructor; [lia|done].
Qed.

Lemma reduce_bins_inv (bs : list (EntityBin (double:=double))) b f :
  reduce_bins bs = Some b → MPI_Reduce_sum (map (bin f) bs) = Some (bin f b).
Proof.
  unfold reduce_bins. intros Hr.
  destruct (MPI_Reduce_sum (map i_dr_avg bs)) as [a1|] eqn:E1; simpl in Hr; [|done].
  destruct (MPI_Reduce_sum (map i_dr_squared_average bs)) as [a2|] eqn:E2; simpl in Hr; [|done].
  destruct (MPI_Reduce_sum (map i_dE_avg bs)) as [a3|] eqn:E3; simpl in Hr; [|done].
  destruct (MPI_Reduce_sum (map i_dE_squared_average bs)) as [a4|] eqn:E4; simpl in Hr; [|done].
  destruct (MPI_Reduce_sum (map i_marker_den bs)) as [a5|] eqn:E5; simpl in Hr; [|done].
  destruct (MPI_Reduce_sum (map e_dr_avg bs)) as [a6|] eqn:E6; simpl in Hr; [|done].
  destruct (MPI_Reduce_sum (map e_dr_squared_average bs)) as [a7|] eqn:E7; simpl in Hr; [|done].
  destruct (MPI_Reduce_sum (map e_dE_avg bs)) as [a8|] eqn:E8; simpl in Hr; [|done].
  destruct (MPI_Reduce_sum (map e_dE_squared_average bs)) as [a9|] eqn:E9; simpl in Hr; [|done].
  destruct (MPI_Reduce_sum (map e_marker_den bs)) as [a10|] eqn:E10; simpl in Hr; [|done].
  injection Hr as <-. destruct f; assumption.
Qed.
End diffusion_inversion.

Section diffusion_definedness.
Import Adios Util Diffusion.
Context {double : Type} `{DoubleOps double}.
Implicit Types (d : Diffusion.t (double:=double)) (w : list (Diffusion.t (double:=double))).
Implicit Types (f : Field) (blocks : list (Block (double:=double))).

Lemma fetched_ids_in_range n blocks :
  Forall block_ok blocks → Forall (fetched_in_range n) blocks → ids_in_range n blocks.
Proof.
  intros Hok Hf. unfold ids_in_range, blocks_rows.
  apply Forall_concat, Forall_map, Forall_lookup. intros i block Hi.
  rewrite Forall_lookup in Hok, Hf.
  specialize (Hf i block Hi). unfold fetched_in_range in Hf.
  by rewrite (fetch_payload block (Hok i block Hi)) in Hf.
Qed.

Lemma step_OK_inv W n blocks w w' :
  0 < W → world_ok W n w → Diffusion.step OK blocks w = Some w' →
  Forall (fetched_in_range n) blocks.
Proof.
  intros HW [Hlen Hw] Hstep. unfold Diffusion.step in Hstep.
  destruct (mapM (step_local OK blocks) w) as [w1|] eqn:Hw1; simpl in Hstep; [|done].
  apply mapM_Some_1 in Hw1.
  rewrite <- (slices_cover blocks W HW). apply Forall_concat, Forall_map, Forall_forall.
  intros r [_ Hr]%in_seq.
  destruct (lookup_lt_is_Some_2 w r ltac:(lia)) as [d Hd].
  destruct (Forall2_lookup_l _ _ _ _ _ Hw1 Hd) as (d1 & _ & Hd1).
  destruct (Hw r d Hd) as (Hrk & Hcs & Hnt).
  apply step_local_OK_inv in Hd1. rewrite Hrk, Hcs, Hnt in Hd1.
  by apply slice_Forall_indices.
Qed.
End diffusion_definedness.

Example ex_step_out_of_range :
  Diffusion.step Adios.OK
    [ {| Diffusion.BlockID := 0; Diffusion.Count := [1; 11]%Z;
         Diffusion.payload := ex_row 3 1 |} ] (Diffusion.init_world 1 3)
  = None.
Proof. vm_compute. reflexivity. Qed.



Section diffusion_sizes.
Import Adios Util Diffusion.
Context {double : Type} `{DoubleOps double}.
Implicit Types (d : Diffusion.t (double:=double)) (w : list (Diffusion.t (double:=double))).
Implicit Types (f : Field) (blocks : list (Block (double:=double))).

Lemma Forall2_and {A B} (P Q : A → B → Prop) (l : list A) (k : list B) :
  Forall2 P l k → Forall2 Q l k → Forall2 (λ x y, P x y ∧ Q x y) l k.
Proof.
  intros HP. induction HP as [|x y l k Hxy _ IH]; intros HQ.
  - constructor.
  - apply Forall2_cons_1 in HQ as [Hq HQ]. constructor; [done|by apply IH].
Qed.

Lemma step_bins_len status blocks w w' :
  Diffusion.step status blocks w = Some w' →
  Forall (λ d, bins_len (ntriangle d) (bins d)) w →
  Forall2 (λ d d', bins_len (ntriangle d) (bins d')) w w'.
Proof.
  unfold Diffusion.step. intros Hstep Hall.
  destruct (mapM (step_local status blocks) w) as [w1|] eqn:Hw1; simpl in Hstep; [|done].
  apply mapM_Some_1 in Hw1.
  assert (Hloc : Forall2 (λ d d1, bins_len (ntriangle d) (bins d1)) w w1).
  { apply Forall2_same_length_lookup_2; [by eapply Forall2_length|].
    intros i d d1 Hd Hd1. rewrite Forall_lookup in Hall.
    eapply step_local_bins_len; [|by eapply Hall].
    by apply (Forall2_lookup_lr _ _ _ _ _ _ Hw1 Hd Hd1). }
  destruct (decide (status = OK)) as [->|Hne]; [|by destruct status; simplify_eq].
  destruct (reduce_bins (map bins w1)) as [reduced|] eqn:Hred; simpl in Hstep; [|done].
  injection Hstep as <-. apply Forall2_fmap_r.
  apply Forall2_same_length_lookup_2; [by eapply Forall2_length|].
  intros i d d1 Hd Hd1. pose proof (Forall2_lookup_lr _ _ _ _ _ _ Hloc Hd Hd1) as Hlen1.
  destruct (step_reduce_spec reduced d1) as (_ & _ & _ & Hb & _).
  change (bins_len (ntriangle d) (bins (step_reduce reduced d1))).
  rewrite Hb. destruct (decide (rank d1 = 0)); [|done].
  intros f. rewrite <- (Hlen1 f).
  pose proof (MPI_Reduce_sum_length _ _ (reduce_bins_inv _ _ f Hred)) as Hall1.
  rewrite Forall_lookup in Hall1. symmetry. apply (Hall1 i).
  by rewrite !lookup_map, Hd1.
Qed.

Lemma sized_step_events status mid fst r n (b : EntityBin (double:=double)) :
  bins_len n b → Forall (λ ev, is_fetch_event ev = true) mid →
  Forall (sized n) (step_events status mid fst r n b).
Proof.
  intros Hlen Hmid.
  assert (Hm : Forall (sized n) mid).
  { eapply Forall_impl; [|exact Hmid]. intros ev Hev. by destruct ev. }
  assert (Hw : Forall (sized n) (write_events b)).
  { unfold write_events. constructor; [done|]. apply Forall_app. split.
    - apply Forall_map, Forall_forall. intros f _. apply Hlen.
    - by repeat constructor. }
  assert (Hd : Forall (sized n) (declare_events (double:=double) n)).
  { by repeat constructor. }
  unfold step_events, local_events, reduce_events.
  repeat (apply Forall_app; split); try by repeat constructor.
  - destruct status; try done. apply Forall_app. split; [done|by repeat constructor].
  - destruct status; try done.
    repeat (apply Forall_app; split); try by repeat constructor.
    destruct (decide (r = 0)); [|done]. apply Forall_app. split; [by destruct fst|done].
Qed.

Lemma step_well_sized status blocks w w' :
  Diffusion.step status blocks w = Some w' →
  Forall well_sized w →
  Forall2 (λ d d', ntriangle d' = ntriangle d ∧ well_sized d') w w'.
Proof.
  intros Hstep Hall.
  assert (Hb : Forall (λ d, bins_len (ntriangle d) (bins d)) w).
  { eapply Forall_impl; [|exact Hall]. by intros d [? _]. }
  pose proof (Forall2_and _ _ _ _ (step_frame _ _ _ _ Hstep) (step_bins_len _ _ _ _ Hstep Hb))
    as Hboth.
  apply Forall2_same_length_lookup_2; [by eapply Forall2_length|].
  intros i d d' Hd Hd'.
  destruct (Forall2_lookup_lr _ _ _ _ _ _ Hboth Hd Hd')
    as ((Hc & _ & _ & _ & mid & Hmid & Ht) & Hlen).
  assert (Hn : ntriangle d' = ntriangle d) by (unfold cfg in Hc; congruence).
  rewrite Forall_lookup in Hall. destruct (Hall i d Hd) as [_ Htr].
  split; [done|]. unfold well_sized. rewrite Hn, Ht. split; [done|].
  apply Forall_app. split; [done|]. by apply sized_step_events.
Qed.

Lemma run_well_sized (inputs : list (StepStatus * list (Block (double:=double)))) w w' :
  Diffusion.run inputs w = Some w' →
  Forall well_sized w →
  Forall2 (λ d d', ntriangle d' = ntriangle d ∧ well_sized d') w w'.
Proof.
  revert w. induction inputs as [|[status blocks] inputs IH]; intros w Hrun Hall;
    simpl in Hrun.
  - injection Hrun as <-. apply Forall_Forall2_diag.
    eapply Forall_impl; [|exact Hall]. by intros d ?.
  - destruct (Diffusion.step status blocks w) as [w1|] eqn:Hstep; simpl in Hrun; [|done].
    pose proof (step_well_sized _ _ _ _ Hstep Hall) as H1.
    assert (Hall1 : Forall well_sized w1).
    { apply Forall_lookup. intros i d1 Hd1.
      by destruct (Forall2_lookup_r _ _ _ _ _ H1 Hd1) as (d & _ & _ & ?). }
    pose proof (IH w1 Hrun Hall1) as H2.
    eapply Forall2_compose; [|exact H1|exact H2].
    intros d d1 d' [Hn1 _] [Hn2 Hws]. split; [congruence|done].
Qed.

Lemma init_well_sized W r n : well_sized (init (double:=double) W r n).
Proof. split; [apply zero_bins_len|constructor]. Qed.
End diffusion_sizes.

(** X2: in any run from the constructor that returns, every process keeps
    ten vectors of exactly [ntriangle] entries, every variable of the
    output is defined with that shape and every put hands over a vector of
    that length: the writer never reads past the end of a vector. *)
Theorem diffusion_written_vectors_sized {double : Type} `{DoubleOps double}
    (W n : nat) (inputs : list (Adios.StepStatus * list Diffusion.Block))
    (w' : list (Diffusion.t (double:=double))) :
  Diffusion.run inputs (Diffusion.init_world W n) = Some w' →
  Forall (λ d', Diffusion.ntriangle d' = n ∧
                bins_len n (Diffusion.bins d') ∧
                Forall (sized n) (Diffusion.trace d')) w'.
Proof.
  intros Hrun. apply run_well_sized in Hrun.
  - apply Forall_lookup. intros i d' Hd'.
    destruct (Forall2_lookup_r _ _ _ _ _ Hrun Hd') as (d & Hd & Hn & Hlen & Htr).
    unfold Diffusion.init_world in Hd. rewrite lookup_map in Hd.
    destruct (seq 0 W !! i) as [r|]; [|done]. simpl in Hd. injection Hd as <-.
    simpl in Hn. rewrite Hn in Hlen, Htr. done.
  - unfold Diffusion.init_world. apply Forall_map, Forall_forall. intros r _.
    apply init_well_sized.
Qed.

Lemma diffusion_written_vectors_sized_witness :
  ∃ w', Diffusion.run ex_inputs (Diffusion.init_world 2 3) = Some w' ∧
    Forall (λ d', Diffusion.ntriangle d' = 3 ∧
                  bins_len 3 (Diffusion.bins d') ∧
                  Forall (sized 3) (Diffusion.trace d')) w'.
Proof.
  eexists. split; [vm_compute; reflexivity|].
  apply (diffusion_written_vectors_sized 2 3 ex_inputs). vm_compute. reflexivity.
Defined.

Section diffusion_protocol.
Import Adios Util Diffusion.
Context {double : Type} `{DoubleOps double}.
Implicit Types (d : Diffusion.t (double:=double)) (w : list (Diffusion.t (double:=double))).
Implicit Types (f : Field) (blocks : list (Block (double:=double))).

(** A projection of the trace that does not depend on the blocks read
    grows, over a run, by its value on each step in turn. *)
Lemma run_filter (P : Event (double:=double) → Prop) `{!∀ ev, Decision (P ev)}
    (g : StepStatus → list (Event (double:=double)))
    (inputs : list (StepStatus * list (Block (double:=double)))) w w' :
  (∀ status mid fst r n b, Forall (λ ev, is_fetch_event ev = true) mid →
     filter P (step_events status mid fst r n b) = g status) →
  Diffusion.run inputs w = Some w' →
  Forall2 (λ d d', filter P (trace d') = filter P (trace d) ++ concat (map (λ i, g i.1) inputs))
          w w'.
Proof.
  intros Hg. revert w. induction inputs as [|[status blocks] inputs IH]; intros w Hrun;
    simpl in Hrun.
  - injection Hrun as <-. apply Forall_Forall2_diag, Forall_forall. intros d _.
    simpl. by rewrite app_nil_r.
  - destruct (Diffusion.step status blocks w) as [w1|] eqn:Hstep; simpl in Hrun; [|done].
    apply step_frame in Hstep. apply IH in Hrun.
    eapply Forall2_compose; [|exact Hstep|exact Hrun].
    intros d d1 d' (_ & _ & _ & _ & mid & Hmid & Ht) Ht'.
    rewrite Ht', Ht, list.filter_app, (Hg _ _ _ _ _ _ Hmid). simpl.
    by rewrite <- app_assoc.
Qed.

Lemma filter_fetch_none (P : Event (double:=double) → Prop) `{!∀ ev, Decision (P ev)}
    (mid : list (Event (double:=double))) :
  (∀ ev, is_fetch_event ev = true → ¬ P ev) →
  Forall (λ ev, is_fetch_event ev = true) mid → filter P mid = [].
Proof.
  intros HP. induction 1 as [|ev mid Hev _ IH]; [done|].
  rewrite filter_cons_False by (by apply HP). exact IH.
Qed.

Lemma filter_reduce_step_events status mid fst r n (b : EntityBin (double:=double)) :
  Forall (λ ev, is_fetch_event ev = true) mid →
  filter (λ ev, is_reduce_event ev = true) (step_events status mid fst r n b)
  = match status with OK => map Reduce fields | _ => [] end.
Proof.
  intros Hmid. unfold step_events, local_events.
  assert (Hm : filter (λ ev, is_reduce_event ev = true) mid = []).
  { apply filter_fetch_none; [|done]. intros ev Hev. by destruct ev. }
  destruct status; try done.
  rewrite !list.filter_app, Hm. unfold reduce_events.
  rewrite list.filter_app.
  assert (Hr : filter (λ ev, is_reduce_event ev = true)
                 (if decide (r = 0)
                  then (if fst then declare_events n else []) ++ write_events b
                  else []) = []).
  { destruct (decide (r = 0)); [|done]. by destruct fst. }
  rewrite Hr. done.
Qed.

Lemma filter_reader_step_events status mid fst r n (b : EntityBin (double:=double)) :
  Forall (λ ev, is_fetch_event ev = true) mid →
  filter (λ ev, is_reader_step_event ev = true) (step_events status mid fst r n b)
  = reader_step_log status.
Proof.
  intros Hmid. unfold step_events, local_events.
  assert (Hm : filter (λ ev, is_reader_step_event ev = true) mid = []).
  { apply filter_fetch_none; [|done]. intros ev Hev. by destruct ev. }
  destruct status; try done.
  rewrite !list.filter_app, Hm. unfold reduce_events.
  rewrite list.filter_app.
  assert (Hr : filter (λ ev, is_reader_step_event ev = true)
                 (if decide (r = 0)
                  then (if fst then declare_events n else []) ++ write_events b
                  else []) = []).
  { destruct (decide (r = 0)); [|done]. by destruct fst. }
  rewrite Hr. done.
Qed.
End diffusion_protocol.



(** X4: over a run, the reader sees on every process one [BeginStep] per
    call of the step, followed by exactly one [EndStep] when the status
    was OK and by none otherwise: a step is ended once before the next one
    is begun, and a step that was not ready is never ended. *)
Theorem diffusion_reader_steps_bracketed {double : Type} `{DoubleOps double}
    (inputs : list (Adios.StepStatus * list Diffusion.Block))
    (w w' : list (Diffusion.t (double:=double))) :
  Diffusion.run inputs w = Some w' →
  Forall2 (λ d d',
    filter (λ ev, is_reader_step_event ev = true) (Diffusion.trace d') =
      filter (λ ev, is_reader_step_event ev = true) (Diffusion.trace d) ++
      concat (map (λ i, reader_step_log i.1) inputs)) w w'.
Proof.
  apply (run_filter (λ ev, is_reader_step_event ev = true) reader_step_log).
  intros. by apply filter_reader_step_events.
Qed.

Lemma diffusion_reader_steps_bracketed_witness :
  ∃ w', Diffusion.run ex_inputs (Diffusion.init_world 2 3) = Some w' ∧
  Forall2 (λ d d',
    filter (λ ev, is_reader_step_event ev = true) (Diffusion.trace d') =
      filter (λ ev, is_reader_step_event ev = true) (Diffusion.trace d) ++
      concat (map (λ i, reader_step_log i.1) ex_inputs)) (Diffusion.init_world 2 3) w'.
Proof.
  eexists. split; [vm_compute; reflexivity|].
  apply (diffusion_reader_steps_bracketed ex_inputs). vm_compute. reflexivity.
Defined.

Section diffusion_mirror.
Import Adios Util Diffusion.
Context {double : Type} `{DoubleOps double}.
Implicit Types (d : Diffusion.t (double:=double)) (w : list (Diffusion.t (double:=double))).
Implicit Types (f : Field) (blocks : list (Block (double:=double))).
Implicit Types (block : Block (double:=double)).

Lemma process_block_trace block d d' :
  process_block block d = Some d' → trace d' = trace d ++ fetch_events block.
Proof.
  unfold process_block, fetch_events. intros Hpb.
  destruct (process_table _ _) as [b|]; simpl in Hpb; [|done]. injection Hpb as <-.
  destruct (0 <? block_ncount (Count block))%Z; simpl; [done|by rewrite app_nil_r].
Qed.

Lemma process_blocks_trace blocks d d' :
  for_each process_block blocks d = Some d' →
  trace d' = trace d ++ concat (map fetch_events blocks).
Proof.
  revert d. induction blocks as [|block blocks IH]; intros d Hfe; simpl in Hfe.
  - injection Hfe as <-. simpl. by rewrite app_nil_r.
  - destruct (process_block block d) as [d1|] eqn:Hd1; simpl in Hfe; [|done].
    apply process_block_trace in Hd1. apply IH in Hfe.
    rewrite Hfe, Hd1. simpl. by rewrite <- app_assoc.
Qed.

Lemma step_local_OK_trace W r blocks d d' :
  rank d = r → comm_size d = W → r < W →
  step_local OK blocks d = Some d' →
  trace d' = trace d ++ local_events OK (concat (map fetch_events (Util.slice blocks W r))).
Proof.
  intros Hr HW Hlt. unfold step_local. cbn [rank comm_size reset emit set_bins].
  rewrite Hr, HW. rewrite for_each_indices by (apply slice_end_le; lia).
  change (take _ (drop _ blocks)) with (Util.slice blocks W r).
  intros Hsl. destruct (for_each _ _ _) as [d2|] eqn:Hd2; simpl in Hsl; [|done].
  injection Hsl as <-. apply process_blocks_trace in Hd2.
  simpl. rewrite Hd2. simpl. by rewrite <- !app_assoc.
Qed.

Lemma dup_tables_app (l1 l2 : list (Event (double:=double))) :
  dup_tables (l1 ++ l2) = dup_tables l1 ++ dup_tables l2.
Proof. apply omap_app. Qed.

Lemma dup_tables_fetch_events blocks :
  dup_tables (concat (map fetch_events blocks)) = map fetch (filter is_read blocks).
Proof.
  induction blocks as [|block blocks IH]; [done|].
  simpl. rewrite dup_tables_app, IH, filter_cons. unfold fetch_events, is_read.
  destruct (decide (0 < block_ncount (Count block))%Z) as [Hn|Hn].
  - apply Z.ltb_lt in Hn. by rewrite Hn.
  - apply Z.ltb_nlt in Hn. by rewrite Hn.
Qed.

Lemma dup_tables_reduce_events fst r n (b : EntityBin (double:=double)) :
  dup_tables (reduce_events fst r n b) = [].
Proof. unfold reduce_events. by destruct (decide (r = 0)), fst. Qed.

Lemma filter_concat_slices (P : Block (double:=double) → Prop) `{!∀ x, Decision (P x)}
    (bss : list (list (Block (double:=double)))) :
  concat (map (λ bs, map payload (filter P bs)) bss) = map payload (filter P (concat bss)).
Proof.
  induction bss as [|bs bss IH]; [done|].
  simpl. by rewrite IH, list.filter_app, map_app.
Qed.

Lemma fetch_read_payload blocks :
  map fetch (filter is_read blocks) = map payload (filter is_read blocks).
Proof.
  apply map_ext_in. intros block [Hr _]%list_elem_of_In%list_elem_of_filter.
  unfold fetch. unfold is_read in Hr. apply Z.ltb_lt in Hr. by rewrite Hr.
Qed.
End diffusion_mirror.

(** X5: in a Ready step each process puts on the duplicate stream the
    tables of the blocks of its slice that it reads (those with a
    positive element count), unchanged and in block order, and nothing
    else.  Taken in rank order the streams of the processes hold every
    read block of the step exactly once, in the order of the block list;
    blocks with no elements are not mirrored. *)
Theorem diffusion_duplicate_stream_mirrors_blocks {double : Type} `{DoubleOps double}
    (W n : nat) (blocks : list Diffusion.Block) (w w' : list Diffusion.t) :
  0 < W → world_ok W n w →
  Diffusion.step Adios.OK blocks w = Some w' →
  Forall2 (λ d d',
    dup_tables (Diffusion.trace d') =
      dup_tables (Diffusion.trace d) ++
      map Diffusion.payload (filter is_read (Util.slice blocks W (Diffusion.rank d)))) w w' ∧
  concat (map (λ r, map Diffusion.payload (filter is_read (Util.slice blocks W r))) (seq 0 W))
    = map Diffusion.payload (filter is_read blocks).
Proof.
  intros HW [Hlen Hw] Hstep. split.
  - unfold Diffusion.step in Hstep.
    destruct (mapM (Diffusion.step_local Adios.OK blocks) w) as [w1|] eqn:Hw1;
      simpl in Hstep; [|done].
    destruct (Diffusion.reduce_bins _) as [reduced|]; simpl in Hstep; [|done].
    injection Hstep as <-. apply mapM_Some_1 in Hw1. apply Forall2_fmap_r.
    apply Forall2_same_length_lookup_2; [by eapply Forall2_length|].
    intros r d d1 Hd Hd1.
    pose proof (Forall2_lookup_lr _ _ _ _ _ _ Hw1 Hd Hd1) as Hsl.
    destruct (Hw r d Hd) as (Hrk & Hcs & _).
    apply (step_local_OK_trace W r) in Hsl; [|done|done|].
    2:{ rewrite <- Hlen. by eapply lookup_lt_Some. }
    destruct (step_reduce_spec reduced d1) as (_ & _ & _ & _ & Ht).
    change (dup_tables (Diffusion.trace (Diffusion.step_reduce reduced d1)) =
            dup_tables (Diffusion.trace d) ++
            map Diffusion.payload (filter is_read (Util.slice blocks W (Diffusion.rank d)))).
    rewrite Ht, Hsl, Hrk. unfold local_events.
    rewrite !dup_tables_app, dup_tables_reduce_events, dup_tables_fetch_events.
    rewrite fetch_read_payload. simpl. by rewrite !app_nil_r.
  - rewrite <- (map_map (Util.slice blocks W)
                        (λ bs, map Diffusion.payload (filter is_read bs))).
    by rewrite filter_concat_slices, slices_cover.
Qed.

Lemma diffusion_duplicate_stream_mirrors_blocks_witness :
  ∃ w', Diffusion.step Adios.OK ex_blocks (Diffusion.init_world 2 3) = Some w' ∧
  Forall2 (λ d d',
    dup_tables (Diffusion.trace d') =
      dup_tables (Diffusion.trace d) ++
      map Diffusion.payload (filter is_read (Util.slice ex_blocks 2 (Diffusion.rank d))))
    (Diffusion.init_world 2 3) w' ∧
  concat (map (λ r, map Diffusion.payload (filter is_read (Util.slice ex_blocks 2 r))) (seq 0 2))
    = map Diffusion.payload (filter is_read ex_blocks).
Proof.
  eexists. split; [vm_compute; reflexivity|].
  apply (diffusion_duplicate_stream_mirrors_blocks 2 3 ex_blocks (Diffusion.init_world 2 3)).
  - lia.
  - apply init_world_ok.
  - vm_compute. reflexivity.
Defined.

(** X6: after a Ready step only rank 0 holds the totals.  The vectors of
    every other rank hold, per entity, the sum of the rows of the blocks of
    its own slice alone: the reduction leaves the buffers of the other
    ranks as the local accumulation made them. *)
Theorem diffusion_other_ranks_keep_partial_sums {double : Type} `{DoubleOps double}
    (W n : nat) (blocks : list Diffusion.Block) (w : list Diffusion.t) :
  0 < W → world_ok W n w → Forall block_ok blocks → ids_in_range n blocks →
  ∃ w', Diffusion.step Adios.OK blocks w = Some w' ∧
    ∀ r d', 0 < r → w' !! r = Some d' →
      ∀ f e, e < n →
        Diffusion.bin f (Diffusion.bins d') !! e =
        Some (acc_sum e (blocks_rows f (Util.slice blocks W r)) d_zero).
Proof.
  intros HW Hw Hok Hids.
  destruct (step_OK_grouped W n blocks w HW Hw Hok Hids) as (w' & _ & Hstep & _).
  exists w'. split; [done|]. intros r d' Hr Hd' f e He.
  destruct Hw as [Hlen Hw]. unfold Diffusion.step in Hstep.
  destruct (mapM (Diffusion.step_local Adios.OK blocks) w) as [w1|] eqn:Hw1;
    simpl in Hstep; [|done].
  destruct (Diffusion.reduce_bins _) as [reduced|]; simpl in Hstep; [|done].
  injection Hstep as <-. apply mapM_Some_1 in Hw1.
  rewrite lookup_map in Hd'.
  destruct (w1 !! r) as [d1|] eqn:Hd1; simpl in Hd'; [|done]. injection Hd' as <-.
  destruct (Forall2_lookup_r _ _ _ _ _ Hw1 Hd1) as (d & Hd & Hsl).
  destruct (Hw r d Hd) as (Hrk & Hcs & Hnt).
  destruct (step_local_OK W n r blocks d Hrk Hcs Hnt) as (d1' & Hsl' & Hcfg & _ & Hlk);
    [by rewrite <- Hlen; eapply lookup_lt_Some|done|done|].
  assert (d1' = d1) as -> by congruence.
  destruct (step_reduce_spec reduced d1) as (_ & _ & _ & Hb & _).
  destruct Hcfg as (Hrk1 & _).
  rewrite Hb, decide_False by lia. by apply Hlk.
Qed.

Lemma diffusion_other_ranks_keep_partial_sums_witness :
  ∃ w', Diffusion.step Adios.OK ex_blocks (Diffusion.init_world 2 3) = Some w' ∧
    ∀ r d', 0 < r → w' !! r = Some d' →
      ∀ f e, e < 3 →
        Diffusion.bin f (Diffusion.bins d') !! e =
        Some (acc_sum e (blocks_rows f (Util.slice ex_blocks 2 r)) d_zero).
Proof.
  apply (diffusion_other_ranks_keep_partial_sums 2 3 ex_blocks (Diffusion.init_world 2 3)).
  - lia.
  - apply init_world_ok.
  - apply ex_blocks_ok.
  - apply ex_blocks_ids.
Defined.

Section diffusion_checksum.
Import Adios Util Diffusion.
Context {double : Type} `{DoubleOps double, !DoubleLaws double, !DoubleComm double}.
Implicit Types (d : Diffusion.t (double:=double)) (w : list (Diffusion.t (double:=double))).
Implicit Types (f : Field) (blocks : list (Block (double:=double))).

Lemma fold_add_init (l : list double) (a : double) :
  fold_left d_add l a = d_add a (vec_sum l).
Proof.
  unfold vec_sum. revert a. induction l as [|x l IH]; intros a; simpl.
  - by rewrite d_add_0_r.
  - by rewrite IH, (IH (d_add d_zero x)), d_add_0_l, d_add_assoc.
Qed.

Lemma vec_sum_cons (x : double) (l : list double) : vec_sum (x :: l) = d_add x (vec_sum l).
Proof. unfold vec_sum at 1. simpl. by rewrite fold_add_init, d_add_0_l. Qed.

Lemma vec_sum_snoc (l : list double) (x : double) : vec_sum (l ++ [x]) = d_add (vec_sum l) x.
Proof. unfold vec_sum. by rewrite fold_left_app. Qed.

Lemma d_add_swap (a b c e : double) :
  d_add (d_add a b) (d_add c e) = d_add (d_add a c) (d_add b e).
Proof.
  rewrite <- (d_add_assoc a b), (d_add_assoc b c), (d_add_comm b c).
  by rewrite <- (d_add_assoc c b), (d_add_assoc a c).
Qed.

Lemma vec_sum_pointwise {A} (g h : A → double) (l : list A) :
  vec_sum (map (λ a, d_add (g a) (h a)) l) = d_add (vec_sum (map g l)) (vec_sum (map h l)).
Proof.
  induction l as [|a l IH]; simpl.
  - unfold vec_sum. simpl. by rewrite d_add_0_l.
  - by rewrite !vec_sum_cons, IH, d_add_swap.
Qed.

(** A value placed at one index of an otherwise zero vector. *)
Lemma vec_sum_single (id : Z) (x : double) (n : nat) :
  (0 ≤ id)%Z →
  vec_sum (map (λ e, if decide (id = Z.of_nat e) then x else d_zero) (seq 0 n))
  = if decide (id < Z.of_nat n)%Z then x else d_zero.
Proof.
  intros Hid. induction n as [|n IH].
  - by rewrite decide_False by lia.
  - rewrite seq_S, map_app. cbn [map Nat.add]. rewrite vec_sum_snoc, IH.
    destruct (decide (id < Z.of_nat n)%Z), (decide (id = Z.of_nat n)),
      (decide (id < Z.of_nat (S n))%Z); try lia;
      by rewrite ?d_add_0_l, ?d_add_0_r.
Qed.

Lemma acc_sum_cons e (row : Z * double) (rows : list (Z * double)) :
  acc_sum e (row :: rows) d_zero
  = d_add (if decide (row.1 = Z.of_nat e) then row.2 else d_zero) (acc_sum e rows d_zero).
Proof.
  change (acc_sum e (row :: rows) d_zero)
    with (acc_sum e rows (if decide (row.1 = Z.of_nat e)
                          then d_add d_zero row.2 else d_zero)).
  destruct (decide (row.1 = Z.of_nat e)).
  - by rewrite acc_sum_init, d_add_0_l.
  - by rewrite d_add_0_l.
Qed.

(** Adding up the per-entity sums of rows that all name an entity below
    [n] gives the sum over all rows. *)
Lemma vec_sum_entities (n : nat) (rows : list (Z * double)) :
  Forall (λ row, (0 ≤ row.1 < Z.of_nat n)%Z) rows →
  vec_sum (map (λ e, acc_sum e rows d_zero) (seq 0 n)) = column_total rows.
Proof.
  induction 1 as [|row rows Hrow _ IH].
  - unfold column_total. simpl. induction (seq 0 n) as [|e l IHl]; [done|].
    simpl. rewrite vec_sum_cons, IHl. unfold acc_sum. simpl. by rewrite d_add_0_l.
  - rewrite (map_ext _ _ (λ e, acc_sum_cons e row rows)).
    rewrite (vec_sum_pointwise (λ e, if decide (row.1 = Z.of_nat e) then row.2 else d_zero)
                               (λ e, acc_sum e rows d_zero)).
    rewrite IH, vec_sum_single by lia. rewrite decide_True by lia.
    change (d_add row.2 (vec_sum (map snd rows)) = vec_sum (row.2 :: map snd rows)).
    by rewrite vec_sum_cons.
Qed.

Lemma step_OK_root W n blocks w :
  0 < W → world_ok W n w → Forall block_ok blocks → ids_in_range n blocks →
  ∃ w' d0, Diffusion.step OK blocks w = Some w' ∧ w' !! 0 = Some d0 ∧
    ∀ f, bin f (bins d0) = map (λ e, entity_sum f e blocks) (seq 0 n).
Proof.
  intros HW Hw Hok Hids.
  destruct (step_OK_grouped W n blocks w HW Hw Hok Hids)
    as (w' & d0 & Hstep & Hd0 & Hr & Hsum).
  exists w', d0. split; [done|]. split; [done|]. intros f.
  assert (Hlen : length (bin f (bins d0)) = n).
  { pose proof Hstep as Hstep'. unfold Diffusion.step in Hstep'.
    destruct (mapM (step_local OK blocks) w) as [w1|] eqn:Hw1; simpl in Hstep'; [|done].
    destruct (reduce_bins (map bins w1)) as [reduced|] eqn:Hred; simpl in Hstep'; [|done].
    injection Hstep' as <-. rewrite lookup_map in Hd0.
    destruct (w1 !! 0) as [d1|] eqn:Hd1; simpl in Hd0; [|done]. injection Hd0 as <-.
    apply mapM_Some_1 in Hw1.
    destruct (Forall2_lookup_r _ _ _ _ _ Hw1 Hd1) as (d & Hd & Hsl).
    destruct Hw as [Hlw Hw]. destruct (Hw 0 d Hd) as (Hrk & Hcs & Hnt).
    destruct (step_local_OK W n 0 blocks d Hrk Hcs Hnt HW Hok Hids)
      as (d1' & Hsl' & _ & Hbl & _).
    assert (d1' = d1) as -> by congruence.
    destruct (step_reduce_spec reduced d1) as (_ & _ & _ & Hb & _).
    rewrite step_reduce_rank in Hr. rewrite Hb, decide_True by done.
    pose proof (MPI_Reduce_sum_length _ _ (reduce_bins_inv _ _ f Hred)) as Hall.
    rewrite Forall_lookup in Hall. rewrite <- (Hbl f). symmetry. apply (Hall 0).
    by rewrite !lookup_map, Hd1. }
  apply list_eq. intros e. destruct (decide (e < n)) as [He|He].
  - rewrite (Hsum f e He), lookup_map, lookup_seq_lt by done. simpl. f_equal.
    unfold entity_sum.
    rewrite (sum_ranks_acc e (λ r, blocks_rows f (Util.slice blocks W r))).
    rewrite <- (map_map (Util.slice blocks W) (blocks_rows f)).
    rewrite <- (blocks_rows_concat f (map (Util.slice blocks W) (seq 0 W))).
    by rewrite slices_cover.
  - rewrite lookup_ge_None_2 by lia.
    rewrite lookup_ge_None_2; [done|]. rewrite length_map, length_seq. lia.
Qed.

Lemma ids_in_range_field n f blocks :
  ids_in_range n blocks → Forall (λ row, (0 ≤ row.1 < Z.of_nat n)%Z) (blocks_rows f blocks).
Proof.
  unfold ids_in_range, blocks_rows. intros Hall.
  apply Forall_concat, Forall_map, Forall_lookup. intros i block Hi.
  apply Forall_concat in Hall. rewrite Forall_map, Forall_lookup in Hall.
  specialize (Hall i block Hi). unfold table_rows in *.
  rewrite Forall_map in *. exact Hall.
Qed.
End diffusion_checksum.

(** Integer addition is commutative as well. *)
Lemma exact_comm : DoubleComm Z.
Proof. split. intros x y. simpl. apply Z.add_comm. Qed.

#[global] Existing Instance exact_comm.



Section diffusion_finalize.
Import Adios Util Diffusion.
Context {double : Type} `{DoubleOps double}.
Implicit Types (d : Diffusion.t (double:=double)) (bs : list (EntityBin (double:=double))).

Lemma WriterOpen_in_sink_log n bs :
  WriterOpen ∈ sink_log (double:=double) n bs ↔ bs ≠ [].
Proof.
  destruct bs as [|b bs].
  - split; [by intros ?%elem_of_nil|done].
  - split; [done|]. intros _. unfold sink_log.
    apply elem_of_app. left. unfold declare_events.
    apply elem_of_cons. right. apply elem_of_app. right. by apply list_elem_of_singleton.
Qed.

Lemma WriterOpen_in_trace d bs :
  sink_inv d bs → WriterOpen ∈ trace d ↔ bs ≠ [].
Proof.
  intros [_ Hlog]. rewrite <- WriterOpen_in_sink_log, <- Hlog, list_elem_of_filter.
  split; [by intros ?|by intros [_ ?]].
Qed.
End diffusion_finalize.

(** X8: [finalize] closes the output writer on rank 0 and on no other
    rank, whether or not [output] ever opened it.  In a run from the
    constructor the writer has been opened exactly on rank 0 and only if at
    least one step was Ready: after a run without a Ready step, rank 0
    closes a writer that was never opened. *)
Theorem diffusion_finalize_closes_unopened_writer {double : Type} `{DoubleOps double}
    (W n : nat) (inputs : list (Adios.StepStatus * list Diffusion.Block))
    (w' : list (Diffusion.t (double:=double))) :
  Diffusion.run inputs (Diffusion.init_world W n) = Some w' →
  Forall (λ d',
    (Diffusion.WriterClose ∈ Diffusion.finalize d' ↔ Diffusion.rank d' = 0) ∧
    (Diffusion.WriterOpen ∈ Diffusion.trace d' ↔
       Diffusion.rank d' = 0 ∧ 0 < count_OK (map fst inputs))) w'.
Proof.
  intros Hrun. apply run_frame in Hrun. apply Forall_lookup. intros i d' Hd'.
  destruct (Forall2_lookup_r _ _ _ _ _ Hrun Hd') as (d & Hd & Hc & _ & Hinv).
  unfold Diffusion.init_world in Hd. rewrite lookup_map in Hd.
  destruct (seq 0 W !! i) as [r|]; [|done]. simpl in Hd. injection Hd as <-.
  destruct (Hinv [] (init_sink_inv W r n)) as (bs & Hlen & Hsink).
  unfold cfg in Hc. simpl in Hc, Hlen. injection Hc as Hr _ _. split.
  - unfold Diffusion.finalize. rewrite Hr. destruct (decide (r = 0)) as [->|Hne]; simpl.
    + split; [done|]. intros _. apply elem_of_cons. right. apply elem_of_cons. by left.
    + split; [|done]. intros Hin.
      apply elem_of_cons in Hin as [?|Hin]; [done|].
      by apply list_elem_of_singleton in Hin.
  - rewrite (WriterOpen_in_trace _ _ Hsink), Hr. simpl.
    destruct bs as [|b bs]; simpl in Hlen.
    + split; [done|]. intros [-> Hpos]. rewrite decide_True in Hlen by done. lia.
    + split; [|done]. intros _. destruct (decide (r = 0)); [|done]. split; [done|lia].
Qed.

Lemma diffusion_finalize_closes_unopened_writer_witness :
  ∃ w', Diffusion.run [(Adios.NotReady, []); (Adios.EndOfStream, [])]
          (Diffusion.init_world (double:=Z) 2 3) = Some w' ∧
  Forall (λ d',
    (Diffusion.WriterClose ∈ Diffusion.finalize d' ↔ Diffusion.rank d' = 0) ∧
    (Diffusion.WriterOpen ∈ Diffusion.trace d' ↔
       Diffusion.rank d' = 0 ∧
       0 < count_OK (map fst [(Adios.NotReady, @nil (Diffusion.Block (double:=Z)));
                              (Adios.EndOfStream, [])]))) w'.
Proof.
  eexists. split; [vm_compute; reflexivity|].
  apply (diffusion_finalize_closes_unopened_writer 2 3
           [(Adios.NotReady, []); (Adios.EndOfStream, [])]).
  vm_compute. reflexivity.
Defined.

Example ex_ncount_wraps :
  Adios.block_ncount [65536; 65536]%Z = 0%Z ∧
  Adios.block_ncount [65536; 32768; 3]%Z = (- 2 ^ 31)%Z ∧
  Diffusion.fetch {| Diffusion.BlockID := 0; Diffusion.Count := [65536; 65536]%Z;
                     Diffusion.payload := ex_row 0 1 |} = [].
Proof. by vm_compute. Qed.



(** ** Further properties of the heatload pipeline *)



Example ex_merge_misaligned :
  Heatload.merge
    [ex_columns 0 2;
     {| Heatload.c_gid := [7; 8]%Z; Heatload.c_flag := [1]%Z; Heatload.c_step := [0; 0]%Z;
        Heatload.c_dw := [0; 0]%Z; Heatload.c_phase := Heatload.c_phase (ex_columns 7 2) |}]
    [ex_columns 0 0; ex_columns 0 0] (Heatload.init_buffers 2)
  = None.
Proof. vm_compute. reflexivity. Qed.

Section displacement_facts.
Import Heatload.

Lemma prefix_sums_lookup (lens : list nat) (i : nat) :
  i < length lens → prefix_sums lens !! i = Some (sum_list (take i lens)).
Proof.
  intros Hi. destruct (lookup_lt_is_Some_2 lens i Hi) as [x Hx].
  rewrite <- (take_drop_middle lens i x Hx) at 1.
  assert (Hl : length (take i lens) = i) by (rewrite length_take; lia).
  rewrite <- Hl at 1. apply prefix_sums_middle.
Qed.

Lemma prefix_from_times (acc : nat) (lens : list nat) :
  prefix_from (acc * NPHASE) (times_NPHASE lens) = times_NPHASE (prefix_from acc lens).
Proof.
  revert acc. induction lens as [|n lens IH]; intros acc; simpl; [done|].
  f_equal. rewrite <- IH. f_equal. lia.
Qed.

Lemma prefix_sums_times (lens : list nat) :
  prefix_sums (times_NPHASE lens) = times_NPHASE (prefix_sums lens).
Proof. unfold prefix_sums. by rewrite <- prefix_from_times. Qed.
End displacement_facts.

Example ex_displacements_overwrite :
  Heatload.displacements [2; 0; 3] [99; 98; 97] = ([0; 2; 2], 5) ∧
  Heatload.displacements (Heatload.scale [2; 0; 3]) [0; 2; 2] = ([0; 22; 22], 55).
Proof. by vm_compute. Qed.



Section heatload_counts.
Import Adios Util Heatload.
Context {float PList : Type} `{Deps float PList}.
Implicit Types (c : Columns (float:=float)) (cs : list (Columns (float:=float))).

Lemma length_filter_split {A} (P : A → Prop) `{!∀ x, Decision (P x)} (l : list A) :
  length (filter P l) + length (filter (λ x, ¬ P x) l) = length l.
Proof.
  induction l as [|x l IH]; [done|].
  rewrite !filter_cons. destruct (decide (P x)).
  - rewrite decide_False by tauto. simpl. lia.
  - rewrite decide_True by done. simpl. lia.
Qed.

Lemma length_filter_concat {A} (P : A → Prop) `{!∀ x, Decision (P x)} (ls : list (list A)) :
  length (filter P (concat ls)) = sum_list (map (λ l, length (filter P l)) ls).
Proof.
  induction ls as [|l ls IH]; [done|].
  simpl. by rewrite list.filter_app, length_app, IH.
Qed.

(** Escaped candidates and confined records of all ranks add up to the
    records of all ranks. *)
Lemma classified_counts cs :
  length (candidates cs)
  + sum_list (map (λ c, length (filter (λ p, ¬ is_escaped p) (records_of c))) cs)
  = sum_list (lens_of cs).
Proof.
  unfold candidates, lens_of. rewrite length_filter_concat, map_map.
  induction cs as [|c cs IH]; [done|]. simpl.
  pose proof (length_filter_split is_escaped (records_of c)) as Hs.
  rewrite length_records_of in Hs. lia.
Qed.
End heatload_counts.



Section heatload_block_order.
Import Adios Util Heatload.
Context {float PList : Type} `{Deps float PList}.
Implicit Types (c : Columns (float:=float)) (blocks : list (Block (float:=float))).

Lemma app_columns_no_columns_l c : app_columns no_columns c = c.
Proof. by destruct c. Qed.

Lemma app_columns_no_columns_r c : app_columns c no_columns = c.
Proof. destruct c. unfold app_columns. simpl. by rewrite !app_nil_r. Qed.

Lemma app_columns_assoc (c1 c2 c3 : Columns (float:=float)) :
  app_columns (app_columns c1 c2) c3 = app_columns c1 (app_columns c2 c3).
Proof. unfold app_columns. simpl. by rewrite <- !app_assoc. Qed.

Lemma read_columns_cons block blocks :
  read_columns (block :: blocks)
  = if decide (is_hread block) then app_columns (block_columns block) (read_columns blocks)
    else read_columns blocks.
Proof. unfold read_columns. rewrite filter_cons. by destruct (decide (is_hread block)). Qed.

Lemma read_columns_app blocks1 blocks2 :
  read_columns (blocks1 ++ blocks2) = app_columns (read_columns blocks1) (read_columns blocks2).
Proof.
  induction blocks1 as [|block blocks1 IH]; simpl.
  - change (read_columns []) with (no_columns (float:=float)).
    by rewrite app_columns_no_columns_l.
  - rewrite !read_columns_cons, IH. destruct (decide (is_hread block)); [|done].
    by rewrite app_columns_assoc.
Qed.

Lemma append_block_columns block c :
  append_block block c
  = if decide (is_hread block) then app_columns c (block_columns block) else c.
Proof.
  unfold append_block, is_hread.
  destruct (decide (0 < block_ncount (Count block))%Z) as [Hn|Hn].
  - apply Z.ltb_lt in Hn. by rewrite Hn.
  - apply Z.ltb_nlt in Hn. by rewrite Hn.
Qed.

(** The read loop appends the variables of the blocks it reads, in the
    order of the blocks. *)
Lemma read_blocks_columns blocks c :
  for_each (λ block c, Some (append_block block c)) blocks c
  = Some (app_columns c (read_columns blocks)).
Proof.
  revert c. induction blocks as [|block blocks IH]; intros c; simpl.
  - change (read_columns []) with (no_columns (float:=float)).
    by rewrite app_columns_no_columns_r.
  - rewrite IH, read_columns_cons, append_block_columns.
    destruct (decide (is_hread block)); [|done]. by rewrite app_columns_assoc.
Qed.

Lemma read_species_columns blocks W r :
  r < W → read_species blocks W r = Some (read_columns (slice blocks W r)).
Proof.
  intros Hr. unfold read_species.
  rewrite (for_each_indices (λ block c, Some (append_block block c)))
    by (apply slice_end_le; lia).
  rewrite read_blocks_columns. by rewrite app_columns_no_columns_l.
Qed.

Lemma concat_read_columns (bss : list (list (Block (float:=float)))) :
  concat_columns (map read_columns bss) = read_columns (concat bss).
Proof.
  induction bss as [|bs bss IH]; [done|].
  cbn [map concat]. rewrite read_columns_app, <- IH. done.
Qed.

(** The local vectors of all ranks, one after the other, are the
    variables of the blocks read, in the order the blocks are published. *)
Lemma locals_in_block_order W blocks (cs : list (Columns (float:=float))) :
  0 < W → length cs = W →
  (∀ r c, cs !! r = Some c → read_species blocks W r = Some c) →
  cs = map (λ r, read_columns (slice blocks W r)) (seq 0 W) ∧
  concat_columns cs = read_columns blocks.
Proof.
  intros HW Hlen Hcs.
  assert (Heq : cs = map (λ r, read_columns (slice blocks W r)) (seq 0 W)).
  { apply list_eq_same_length with W; [by rewrite length_map, length_seq|done|].
    intros r c c' Hr Hc Hc'.
    rewrite lookup_map, lookup_seq_lt in Hc' by done. simpl in Hc'.
    apply Hcs in Hc. rewrite read_species_columns in Hc by done. congruence. }
  split; [done|].
  rewrite Heq, <- (map_map (slice blocks W) read_columns), concat_read_columns.
  by rewrite slices_cover.
Qed.
End heatload_block_order.



Section heatload_history.
Import Adios Util Heatload.
Context {float PList : Type} `{Deps float PList}.
Implicit Types (h : Heatload.t (float:=float) (PList:=PList)).
Implicit Types (w : list (Heatload.t (float:=float) (PList:=PList))).

(** What one call of the step does to one process. *)
Lemma hstep_cases status iblocks eblocks w w' :
  step status iblocks eblocks w = Some w' →
  Forall2 (λ h h', (status = OK ∧ ∃ cl iesc' eesc', h' = finish h cl iesc' eesc') ∨
                   (status ≠ OK ∧ h' = not_ready status h)) w w'.
Proof.
  unfold step. intros Hstep. destruct (decide (status = OK)) as [->|Hne].
  - destruct (classify_world iblocks eblocks w) as [cls|] eqn:Hcls; simpl in Hstep; [|done].
    injection Hstep as <-.
    apply length_classify_world in Hcls.
    apply Forall2_same_length_lookup_2.
    { rewrite length_imap, length_zip. lia. }
    intros i h h' Hh Hh'. rewrite list_lookup_imap in Hh'.
    destruct (zip w cls !! i) as [[h0 cl]|] eqn:Hz; [|done].
    apply lookup_zip_Some in Hz as [Hh0 _]. simpl in Hh'. injection Hh' as <-.
    assert (h0 = h) as -> by congruence. left. split; [done|]. eauto.
  - assert (w' = map (not_ready status) w) as -> by (destruct status; congruence).
    apply Forall2_fmap_r, Forall_Forall2_diag, Forall_forall. intros h _. by right.
Qed.

Lemma calc_consistent_mono h h' (ev : Event (float:=float) (PList:=PList)) :
  iesc_db h `prefix_of` iesc_db h' → eesc_db h `prefix_of` eesc_db h' →
  calc_consistent h ev → calc_consistent h' ev.
Proof.
  intros Hi He. destruct ev as [|isp div db| |]; simpl; try done.
  intros [[-> Hp]|[-> Hp]]; [left|right]; (split; [done|]); by etrans.
Qed.

Lemma finish_history h (cl : Classified) (iesc' eesc' : PList) :
  iesc_db (finish h cl iesc' eesc') = iesc_db h ++ [iesc'] ∧
  eesc_db (finish h cl iesc' eesc') = eesc_db h ++ [eesc'] ∧
  map shape (trace (finish h cl iesc' eesc')) = map shape (trace h) ++ step_shape OK ∧
  (history_inv h → history_inv (finish h cl iesc' eesc')).
Proof.
  split; [done|]. split; [done|]. split.
  { unfold finish. cbn [trace]. by rewrite map_app. }
  intros (Hi & He & Ht). unfold history_inv, finish.
  cbn [istep iesc_db eesc_db trace].
  split; [rewrite length_app, Hi; simpl; lia|].
  split; [rewrite !length_app, He; done|].
  apply Forall_app. split.
  - eapply Forall_impl; [|exact Ht]. intros ev.
    apply calc_consistent_mono; simpl; by apply prefix_app_r.
  - constructor; [done|]. constructor; [by left|]. constructor; [by right|].
    constructor; [done|]. constructor; [done|]. constructor.
Qed.

Lemma not_ready_history status h :
  status ≠ OK →
  map shape (trace (not_ready status h)) = map shape (trace h) ++ step_shape status ∧
  (history_inv h → history_inv (not_ready status h)).
Proof.
  intros Hne. split.
  { unfold not_ready. cbn [trace]. rewrite map_app. by destruct status. }
  intros (Hi & He & Ht). unfold history_inv, not_ready.
  cbn [istep iesc_db eesc_db trace].
  split; [done|]. split; [done|].
  apply Forall_app. split; [|constructor; [done|constructor]].
  eapply Forall_impl; [|exact Ht]. intros ev. by apply calc_consistent_mono.
Qed.

Lemma hstep_history status iblocks eblocks w w' :
  step status iblocks eblocks w = Some w' →
  Forall2 (λ h h',
    iesc_db h `prefix_of` iesc_db h' ∧ eesc_db h `prefix_of` eesc_db h' ∧
    map shape (trace h') = map shape (trace h) ++ step_shape status ∧
    (history_inv h → history_inv h')) w w'.
Proof.
  intros Hstep. apply hstep_cases in Hstep.
  eapply Forall2_impl; [|exact Hstep].
  intros h h' [(-> & cl & iesc' & eesc' & ->)|(Hne & ->)].
  - destruct (finish_history h cl iesc' eesc') as (Hi & He & Hs & Hinv).
    rewrite Hi, He. split; [by apply prefix_app_r|]. split; [by apply prefix_app_r|]. done.
  - destruct (not_ready_history status h Hne) as (Hs & Hinv). done.
Qed.

Lemma hrun_history (inputs : list (StepStatus * list Block * list Block)) w w' :
  run inputs w = Some w' →
  Forall2 (λ h h',
    iesc_db h `prefix_of` iesc_db h' ∧ eesc_db h `prefix_of` eesc_db h' ∧
    map shape (trace h') = map shape (trace h) ++ concat (map (λ x, step_shape x.1.1) inputs) ∧
    (history_inv h → history_inv h')) w w'.
Proof.
  revert w. induction inputs as [|[[status iblocks] eblocks] inputs IH]; intros w Hrun;
    simpl in Hrun.
  - injection Hrun as <-. apply Forall_Forall2_diag, Forall_forall. intros h _.
    simpl. by rewrite app_nil_r.
  - destruct (step status iblocks eblocks w) as [w1|] eqn:Hstep; simpl in Hrun; [|done].
    apply hstep_history in Hstep. apply IH in Hrun.
    eapply Forall2_compose; [|exact Hstep|exact Hrun].
    intros h h1 h' (Hi & He & Hs & Hinv) (Hi' & He' & Hs' & Hinv').
    split; [by etrans|]. split; [by etrans|]. split; [|tauto].
    rewrite Hs', Hs. simpl. by rewrite <- app_assoc.
Qed.

Lemma init_history_inv W r : history_inv (init (float:=float) (PList:=PList) W r).
Proof. unfold history_inv. simpl. done. Qed.
End heatload_history.



(** X15: every call of the heatload step follows the same protocol on
    every process.  Over a run the trace grows, call after call, by
    [BeginStep] alone when the status is not OK, and by [BeginStep], the
    evaluation of the ions, the evaluation of the electrons, the output and
    [EndStep], in this order, when it is OK. *)
Theorem heatload_step_protocol {float PList : Type} `{Heatload.Deps float PList}
    (inputs : list (Adios.StepStatus * list Heatload.Block * list Heatload.Block))
    (w w' : list Heatload.t) :
  Heatload.run inputs w = Some w' →
  Forall2 (λ h h',
    map shape (Heatload.trace h') =
      map shape (Heatload.trace h) ++ concat (map (λ x, step_shape x.1.1) inputs)) w w'.
Proof.
  intros Hrun. apply hrun_history in Hrun.
  eapply Forall2_impl; [|exact Hrun]. by intros h h' (_ & _ & Hs & _).
Qed.

Lemma heatload_step_protocol_witness :
  ∃ hw' : list (Heatload.t (float:=Z) (PList:=list (Heatload.Particle Z))),
    Heatload.run ex_hinputs (Heatload.init_world 2) = Some hw' ∧
    Forall2 (λ h h' : Heatload.t (float:=Z) (PList:=list (Heatload.Particle Z)),
      map shape (Heatload.trace h') =
        map shape (Heatload.trace h) ++ concat (map (λ x, step_shape x.1.1) ex_hinputs))
      (Heatload.init_world 2) hw'.
Proof.
  eexists. split; [vm_compute; reflexivity|].
  apply (heatload_step_protocol ex_hinputs). vm_compute. reflexivity.
Defined.

(** ** Properties of the driver *)

Section driver_facts.
Import Driver.

Lemma check_args_single (arg : String.string) :
  check_args [arg] = None ↔ arg = opt_test ∨ arg = opt_update_test.
Proof.
  simpl.
  destruct (String.eqb_spec arg opt_test) as [->|Ht]; [by split; [left|]|].
  destruct (String.eqb_spec arg opt_update_test) as [->|Hu]; [by split; [right|]|].
  split; [done|]. by intros [?|?].
Qed.

Lemma zeros_cons (ret : Z) (rets : list Z) :
  zeros (ret :: rets) = if decide (ret = 0%Z) then S (zeros rets) else zeros rets.
Proof. unfold zeros. rewrite filter_cons. by destruct (decide (ret = 0%Z)). Qed.

Lemma break_in_cons {A} (ret : Z) (rets : list Z) (a b : A) :
  ret ≠ (-1)%Z →
  (if decide ((-1)%Z ∈ ret :: rets) then a else b) = (if decide ((-1)%Z ∈ rets) then a else b).
Proof.
  intros Hne. destruct (decide ((-1)%Z ∈ rets)) as [Hin|Hin].
  - destruct (decide ((-1)%Z ∈ ret :: rets)) as [_|Hn]; [done|].
    destruct Hn. by apply list_elem_of_further.
  - destruct (decide ((-1)%Z ∈ ret :: rets)) as [[?|?]%elem_of_cons|_]; [congruence|done|done].
Qed.

(** One turn of the loop on a return other than [-1]. *)
Lemma main_loop_turn (ret : Z) (rets : list Z) (istep : Z) :
  ret ≠ (-1)%Z →
  main_loop (ret :: rets) istep
    = main_loop rets (if decide (ret = 0%Z) then istep + 1 else istep)%Z ∧
  main_loop_calls (ret :: rets) istep
    = (istep :: (main_loop_calls rets (if decide (ret = 0%Z) then istep + 1 else istep)%Z).1,
       (main_loop_calls rets (if decide (ret = 0%Z) then istep + 1 else istep)%Z).2).
Proof.
  intros Hne. simpl. destruct (decide (ret = 0%Z)) as [->|Hz]; [done|].
  apply Z.eqb_neq in Hz. rewrite Hz.
  apply Z.eqb_neq in Hne. rewrite Hne.
  by destruct (0 <? ret)%Z.
Qed.

Lemma main_loop_zeros (rets : list Z) (istep : Z) :
  main_loop rets istep = (istep + Z.of_nat (zeros (until_break rets)))%Z.
Proof.
  revert istep. induction rets as [|ret rets IH]; intros istep.
  - simpl. unfold zeros. simpl. lia.
  - cbn [until_break]. destruct (decide (ret = (-1)%Z)) as [->|Hne].
    + simpl. unfold zeros. simpl. lia.
    + destruct (main_loop_turn ret rets istep Hne) as [-> _].
      rewrite IH, zeros_cons. destruct (decide (ret = 0%Z)); lia.
Qed.

Lemma main_loop_calls_exit (rets : list Z) (istep : Z) :
  (main_loop_calls rets istep).2
  = if decide ((-1)%Z ∈ rets) then Some (main_loop rets istep) else None.
Proof.
  revert istep. induction rets as [|ret rets IH]; intros istep.
  - rewrite decide_False by apply not_elem_of_nil. done.
  - destruct (decide (ret = (-1)%Z)) as [->|Hne].
    + rewrite decide_True by apply list_elem_of_here. done.
    + rewrite break_in_cons by done.
      destruct (main_loop_turn ret rets istep Hne) as [-> ->]. cbn [snd].
      by rewrite IH.
Qed.

Lemma main_loop_calls_args (rets : list Z) (istep : Z) :
  (main_loop_calls rets istep).1
  = map (λ k, (istep + Z.of_nat (zeros (take k rets)))%Z)
        (seq 0 (length (until_break rets) + if decide ((-1)%Z ∈ rets) then 1 else 0)).
Proof.
  revert istep. induction rets as [|ret rets IH]; intros istep.
  - rewrite decide_False by apply not_elem_of_nil. done.
  - cbn [until_break]. destruct (decide (ret = (-1)%Z)) as [->|Hne].
    + rewrite decide_True by apply list_elem_of_here. simpl.
      unfold zeros. simpl. f_equal. lia.
    + destruct (main_loop_turn ret rets istep Hne) as [_ ->]. cbn [fst length].
      rewrite IH.
      rewrite (break_in_cons ret rets 1 0) by done. cbn [Nat.add seq map take]. f_equal.
      { unfold zeros. simpl. lia. }
      rewrite <- seq_shift, map_map. apply map_ext. intros k.
      cbn [take]. rewrite zeros_cons. destruct (decide (ret = 0%Z)); lia.
Qed.
End driver_facts.

(** X16: the driver accepts no argument, [--test] alone or
    [--update-test] alone, and nothing else; with two arguments or more it
    stops on "too many arguments" before it looks at any of them. *)
Theorem driver_accepted_arguments (args : list String.string) :
  (Driver.parse_args args = None ↔
     args = [] ∨ args = [Driver.opt_test] ∨ args = [Driver.opt_update_test]) ∧
  (Driver.parse_args args = Some Driver.TooManyArguments ↔ 2 ≤ length args).
Proof.
  unfold Driver.parse_args. destruct args as [|arg [|arg' args]].
  - simpl. split; [by split; [left|]|]. split; [done|lia].
  - rewrite decide_False by (simpl; lia). split.
    + rewrite check_args_single. split.
      * intros [->| ->]; [right; by left|right; by right].
      * intros [?|[[= ->]|[= ->]]]; [done|by left|by right].
    + simpl. split; [|lia].
      destruct (String.eqb arg Driver.opt_test); [done|].
      by destruct (String.eqb arg Driver.opt_update_test).
  - rewrite decide_True by (simpl; lia). split.
    + split; [done|]. by intros [?|[?|?]].
    + split; [simpl; lia|done].
Qed.


(** ** Runs that return *)

Section diffusion_runs.
Import Adios Util Diffusion.
Context {double : Type} `{DoubleOps double}.
Implicit Types (d : Diffusion.t (double:=double)) (w : list (Diffusion.t (double:=double))).
Implicit Types (blocks : list (Block (double:=double))).

Lemma world_ok_cfg W n w w' :
  map cfg w' = map cfg w → world_ok W n w → world_ok W n w'.
Proof.
  intros Hcfg [Hlen Hw]. split.
  - rewrite <- Hlen, <- (length_map cfg w'), Hcfg. by rewrite length_map.
  - intros r d' Hd'.
    assert (Hc : map cfg w !! r = Some (cfg d')) by (by rewrite <- Hcfg, lookup_map, Hd').
    rewrite lookup_map in Hc. destruct (w !! r) as [d|] eqn:Hd; [|done].
    simpl in Hc. unfold cfg in Hc. injection Hc as Hr' Hs' Hn'.
    destruct (Hw r d Hd) as (Hr & Hs & Hn).
    split; [congruence|]. split; congruence.
Qed.

Lemma step_preserves_world W n status blocks w w' :
  step status blocks w = Some w' → world_ok W n w → world_ok W n w'.
Proof. intros Hstep. apply world_ok_cfg. by eapply step_cfg. Qed.

Lemma step_defined_iff W n status blocks w :
  0 < W → world_ok W n w → Forall block_ok blocks →
  is_Some (step status blocks w) ↔ (status = OK → ids_in_range n blocks).
Proof.
  intros HW Hw Hok. destruct (decide (status = OK)) as [->|Hne].
  - split.
    + intros [w' Hstep] _. apply fetched_ids_in_range; [done|]. by eapply step_OK_inv.
    + intros Hids.
      destruct (step_OK_grouped W n blocks w HW Hw Hok (Hids eq_refl)) as (w' & _ & Hstep & _).
      by exists w'.
  - rewrite step_not_OK by done. split; [done|]. by eexists.
Qed.

End diffusion_runs.



Section heatload_runs.
Import Adios Util Heatload.
Context {float PList : Type} `{Deps float PList}.
Implicit Types (w : list (Heatload.t (float:=float) (PList:=PList))).

Lemma hstep_preserves_world W status iblocks eblocks w w' :
  step status iblocks eblocks w = Some w' → hworld_ok W w → hworld_ok W w'.
Proof.
  intros Hstep [Hlen Hw]. apply hstep_frame in Hstep. split.
  - apply Forall2_length in Hstep. lia.
  - intros r h' Hh'.
    destruct (Forall2_lookup_r _ _ _ _ _ Hstep Hh') as (h & Hh & Hr & Hs & _).
    destruct (Hw r h Hh) as [? ?]. split; congruence.
Qed.

Lemma hstep_defined W status iblocks eblocks w :
  hworld_ok W w →
  (status = OK → Forall hblock_ok iblocks ∧ Forall hblock_ok eblocks) →
  is_Some (step status iblocks eblocks w).
Proof.
  intros Hw Hok. unfold step. destruct status; try by eexists.
  destruct (Hok eq_refl) as [Hi He].
  destruct (classify_world_spec W iblocks eblocks w Hw Hi He) as (? & ? & _ & _ & _ & _ & _ & _ & ->).
  by eexists.
Qed.

End heatload_runs.



(** ** Rows that are not complete *)

Section diffusion_rows.
Import Adios Util Diffusion.
Context {double : Type} `{DoubleOps double}.
Implicit Types (table : list double) (b : EntityBin (double:=double)).

Lemma GET_take table q k j :
  k < q → j < NCOL → GET (take (q * NCOL) table) k j = GET table k j.
Proof.
  intros Hk Hj. unfold GET. rewrite !nth_lookup.
  rewrite lookup_take_lt; [done|]. unfold NCOL in *. nia.
Qed.

Lemma length_whole_rows table :
  length (take (length table / NCOL * NCOL) table) = length table / NCOL * NCOL.
Proof.
  rewrite length_take. pose proof (Nat.div_mod_eq (length table) NCOL).
  unfold NCOL in *. lia.
Qed.

Lemma process_row_take table q k b :
  k < q → process_row (take (q * NCOL) table) k b = process_row table k b.
Proof.
  intros Hk. unfold process_row.
  by rewrite !(GET_take table q k) by (done || (unfold NCOL; lia)).
Qed.
End diffusion_rows.

(** X20: only complete rows count.  A table whose size is not a multiple
    of [NCOL] is accumulated as if it ended with its last complete row:
    the values after it are never read, neither as a triangle id nor as a
    contribution, whatever they are. *)
Theorem diffusion_incomplete_row_ignored {double : Type} `{DoubleOps double}
    (table : list double) (b : Diffusion.EntityBin) :
  let whole := take (length table / Diffusion.NCOL * Diffusion.NCOL) table in
  length whole = length table / Diffusion.NCOL * Diffusion.NCOL ∧
  Diffusion.process_table table b = Diffusion.process_table whole b ∧
  ∀ f, table_rows f table = table_rows f whole.
Proof.
  intros whole. pose proof (length_whole_rows table) as Hlen. fold whole in Hlen.
  assert (Hq : length whole / Diffusion.NCOL = length table / Diffusion.NCOL).
  { rewrite Hlen. by apply Nat.div_mul. }
  split; [done|]. split.
  - unfold Diffusion.process_table. rewrite Hq. apply for_each_ext.
    intros k s [_ Hk]%elem_of_seq. symmetry. apply process_row_take. lia.
  - intros f. unfold table_rows. rewrite Hq. apply map_ext_in.
    intros k [_ Hk]%in_seq. unfold whole.
    rewrite !GET_take; [done|lia|by destruct f; unfold Diffusion.NCOL; simpl; lia|lia|].
    unfold Diffusion.NCOL. lia.
Qed.
